(** * Solidity-Signature-Decoder: a shallow embedding of
      [decode_keccak_signatures.js] (both scripts) and its properties.

    A JavaScript string is a sequence of UTF-16 code units; every regular
    expression literal of the source is kept as a syntax tree and run by a
    backtracking matcher that follows the continuation semantics of the
    ECMAScript specification (leftmost match, greedy and lazy quantifiers,
    capture groups).

    The hashing primitive [web3.utils.keccak256] belongs to a library and is
    a parameter.  [Script1] and [Script2] read it as a function, which is
    what a run that returns has seen of it; [Script1Exn] and [Script2Exn]
    are the same callbacks with a call that returns or throws, and the
    traversal of the directory is built on them. *)

From Stdlib Require Import String Ascii List NArith Arith Bool Lia.
From Stdlib Require Import DecimalString Sorted.
Import ListNotations.

Set Implicit Arguments.

(* ================================================================== *)
(** ** JavaScript strings *)
(* ================================================================== *)

Module Js.

(** A UTF-16 code unit. *)
Definition char := N.
Definition jsstring := list char.

(** A string literal of this file, read as code units (ASCII literals only). *)
Definition js (s : string) : jsstring :=
  map N_of_ascii (list_ascii_of_string s).

Definition ch (a : ascii) : char := N_of_ascii a.

(** The double quote character. *)
Definition dquote : char := 34%N.

Definition in_range (lo hi c : N) : bool := (lo <=? c)%N && (c <=? hi)%N.

(** [\w]: ASCII letters, digits and underscore. *)
Definition is_word (c : char) : bool :=
  in_range 97 122 c || in_range 65 90 c || in_range 48 57 c || (c =? 95)%N.

(** LineTerminator: LF, CR, LS, PS. *)
Definition is_line_terminator (c : char) : bool :=
  (c =? 10)%N || (c =? 13)%N || (c =? 8232)%N || (c =? 8233)%N.

(** [\s] and the characters removed by [trim]: WhiteSpace and
    LineTerminator of ECMAScript. *)
Definition is_space (c : char) : bool :=
  in_range 9 13 c || (c =? 32)%N || (c =? 160)%N || (c =? 5760)%N
  || in_range 8192 8202 c || (c =? 8232)%N || (c =? 8233)%N
  || (c =? 8239)%N || (c =? 8287)%N || (c =? 12288)%N || (c =? 65279)%N.

(** [.] without the [s] flag: anything but a line terminator. *)
Definition is_dot (c : char) : bool := negb (is_line_terminator c).

Fixpoint trimStart (s : jsstring) : jsstring :=
  match s with
  | c :: s' => if is_space c then trimStart s' else s
  | [] => []
  end.

Definition trimEnd (s : jsstring) : jsstring := rev (trimStart (rev s)).

(** [String.prototype.trim]. *)
Definition trim (s : jsstring) : jsstring := trimEnd (trimStart s).

(** [s.split(sep)] for a one-character separator: the empty string gives
    one empty piece. *)
Fixpoint split (sep : char) (s : jsstring) : list jsstring :=
  match s with
  | [] => [[]]
  | c :: s' =>
      if (c =? sep)%N then [] :: split sep s'
      else match split sep s' with
           | h :: t => (c :: h) :: t
           | [] => [[c]]
           end
  end.

(** [Boolean(s)] on a string: false only for the empty string. *)
Definition truthy (s : jsstring) : bool :=
  match s with [] => false | _ :: _ => true end.

(** [a.join(sep)]. *)
Fixpoint join (sep : jsstring) (l : list jsstring) : jsstring :=
  match l with
  | [] => []
  | [x] => x
  | x :: l' => x ++ sep ++ join sep l'
  end.

(** [s.slice(0, n)]. *)
Definition slice0 (n : nat) (s : jsstring) : jsstring := firstn n s.

End Js.
Import Js.

(* ================================================================== *)
(** ** Regular expressions *)
(* ================================================================== *)

Module Re.

Inductive regex : Type :=
| Chr (c : char)                       (* a literal character *)
| Class (p : char -> bool)             (* \w, \s, . *)
| Seq (r1 r2 : regex)                  (* r1 r2 *)
| Star (greedy : bool) (r : regex)     (* r* and r*? *)
| Opt (greedy : bool) (r : regex)      (* r? and r?? *)
| Group (n : nat) (r : regex)          (* the n-th capturing group *)
| Eol                                  (* $ (no m flag) *)
| WordB                                (* \b *)
| Eps.

(** [r+] is one [r] followed by [r*]. *)
Definition Plus (greedy : bool) (r : regex) : regex := Seq r (Star greedy r).

Fixpoint Lit (s : jsstring) : regex :=
  match s with
  | [] => Eps
  | [c] => Chr c
  | c :: s' => Seq (Chr c) (Lit s')
  end.

Declare Scope re_scope.
Delimit Scope re_scope with re.
Infix ";;" := Seq (at level 61, right associativity) : re_scope.

(** The matcher state: the character before the current position, the rest
    of the input, and the captures made so far. *)
Record state : Type := mkState {
  prev : option char;
  rest : jsstring;
  caps : list (nat * jsstring)
}.

Definition advance (c : char) (tl : jsstring) (s : state) : state :=
  mkState (Some c) tl (caps s).

Fixpoint lookup (n : nat) (cs : list (nat * jsstring)) : option jsstring :=
  match cs with
  | [] => None
  | (m, v) :: cs' => if Nat.eqb m n then Some v else lookup n cs'
  end.

Fixpoint groups_of (r : regex) : list nat :=
  match r with
  | Seq r1 r2 => groups_of r1 ++ groups_of r2
  | Star _ r | Opt _ r => groups_of r
  | Group n r => n :: groups_of r
  | _ => []
  end.

(** Captures of the groups inside a quantified atom are cleared when an
    iteration starts. *)
Definition clear (gs : list nat) (s : state) : state :=
  mkState (prev s) (rest s)
          (filter (fun e => negb (existsb (Nat.eqb (fst e)) gs)) (caps s)).

Definition set_cap (n : nat) (from : jsstring) (s : state) : state :=
  mkState (prev s) (rest s)
          ((n, firstn (length from - length (rest s)) from) :: caps s).

Definition is_word_opt (c : option char) : bool :=
  match c with Some c => is_word c | None => false end.

Definition orelse {A} (a b : option A) : option A :=
  match a with Some _ => a | None => b end.

Definition cont := state -> option state.

(** One more iteration of a quantifier with minimum 0: an iteration that
    consumed nothing fails. *)
Definition progress (s : state) (k : cont) : cont :=
  fun s' => if length (rest s') <? length (rest s) then k s' else None.

(** The loop of a quantifier [r*]: [body] matches one [r]; [gs] are the
    groups inside [r].  The input left bounds the number of iterations,
    since each one must consume a character. *)
Section Loop.
Variable body : cont -> state -> option state.
Variable greedy : bool.
Variable gs : list nat.
Variable k : cont.

Fixpoint star_loop (fuel : nat) (s : state) {struct fuel} : option state :=
  match fuel with
  | O => k s
  | S fuel' =>
      let again := body (progress s (star_loop fuel')) (clear gs s) in
      if greedy then orelse again (k s) else orelse (k s) again
  end.
End Loop.

(** [m r k s]: match [r] at [s], then continue with [k]; alternatives are
    tried in the priority order of a backtracking matcher. *)
Fixpoint m (r : regex) (k : cont) (s : state) {struct r} : option state :=
  match r with
  | Eps => k s
  | Chr c =>
      match rest s with
      | d :: tl => if (d =? c)%N then k (advance d tl s) else None
      | [] => None
      end
  | Class p =>
      match rest s with
      | d :: tl => if p d then k (advance d tl s) else None
      | [] => None
      end
  | Seq r1 r2 => m r1 (m r2 k) s
  | Star greedy r =>
      star_loop (m r) greedy (groups_of r) k (length (rest s)) s
  | Opt greedy r =>
      let once := m r (progress s k) (clear (groups_of r) s) in
      if greedy then orelse once (k s) else orelse (k s) once
  | Group n r => m r (fun s' => k (set_cap n (rest s) s')) s
  | Eol => match rest s with [] => k s | _ :: _ => None end
  | WordB =>
      let a := is_word_opt (prev s) in
      let b := is_word_opt (hd_error (rest s)) in
      if xorb a b then k s else None
  end.

(** Try the pattern at the current position, then one character further,
    and so on ([lastIndex] is 0 and there is no [g] or [y] flag). *)
Fixpoint search (r : regex) (p : option char) (input : jsstring)
  : option (list (nat * jsstring)) :=
  match m (Group 0 r) Some (mkState p input []) with
  | Some s => Some (caps s)
  | None =>
      match input with
      | [] => None
      | c :: tl => search r (Some c) tl
      end
  end.

(** [str.match(re)]: [None] is [null]; otherwise the captures, group 0
    being the whole match. *)
Definition jsmatch (r : regex) (input : jsstring)
  : option (list (nat * jsstring)) := search r None input.

(** [match[n]]: [None] is [undefined]. *)
Definition group (n : nat) (mt : list (nat * jsstring)) : option jsstring :=
  lookup n mt.

(** [match[n] || ''], also the value of a destructuring default [= '']
    when the group took part in the match. *)
Definition group_or_empty (n : nat) (mt : list (nat * jsstring)) : jsstring :=
  match lookup n mt with Some v => v | None => [] end.

End Re.
Import Re.
Local Open Scope re_scope.

(* ================================================================== *)
(** ** The regular expression literals of the source *)
(* ================================================================== *)

Definition w_plus : regex := Plus true (Class is_word).      (* \w+ *)
Definition s_plus : regex := Plus true (Class is_space).     (* \s+ *)
Definition s_star : regex := Star true (Class is_space).     (* \s* *)
Definition dot_lazy : regex := Star false (Class is_dot).    (* .*? *)
Definition dot_star : regex := Star true (Class is_dot).     (* .* *)

(** The literals are quoted with blanks between their tokens.
    [( \w+ ) ( \s+ \w+ )? ( \[ \] )? $] *)
Definition canonRe : regex :=
  Group 1 w_plus ;;
  Opt true (Group 2 (s_plus ;; w_plus)) ;;
  Opt true (Group 3 (Chr (ch "[") ;; Chr (ch "]"))) ;;
  Eol.

(** [function \s+ ( \w+ ) \s* \( ( .*? ) \) \s*] *)
Definition functionRe : regex :=
  Lit (js "function") ;; s_plus ;; Group 1 w_plus ;; s_star ;;
  Chr (ch "(") ;; Group 2 dot_lazy ;; Chr (ch ")") ;; s_star.

(** [error \s+ ( \w+ ) \s* \( ( .*? ) \) ;] *)
Definition errorRe : regex :=
  Lit (js "error") ;; s_plus ;; Group 1 w_plus ;; s_star ;;
  Chr (ch "(") ;; Group 2 dot_lazy ;; Lit (js ");").

(** [require \( ( .*? ) , \s* " ( .*? ) " \) ; \s*] *)
Definition requireRe : regex :=
  Lit (js "require(") ;; Group 1 dot_lazy ;; Chr (ch ",") ;; s_star ;;
  Chr dquote ;; Group 2 dot_lazy ;; Chr dquote ;; Lit (js ");") ;; s_star.

(** [\b public \b] *)
Definition publicRe : regex := WordB ;; Lit (js "public") ;; WordB.

(** [\b ( \w+ ) \s+ ( \w+ ) \s* = \s* ( .* ) ;] *)
Definition varRe : regex :=
  WordB ;; Group 1 w_plus ;; s_plus ;; Group 2 w_plus ;; s_star ;;
  Chr (ch "=") ;; s_star ;; Group 3 dot_star ;; Chr (ch ";").

(* ================================================================== *)
(** ** Exceptions and records *)
(* ================================================================== *)

(** What the scripts can throw: a [TypeError] of the language (reading a
    property of [null]), or an error raised inside [web3.utils.keccak256]. *)
Inductive exn : Type := TypeError | Web3Error.

Inductive result (A : Type) : Type :=
| Ok (a : A)
| Raise (e : exn).
Arguments Ok {A} a.
Arguments Raise {A} e.

Definition bind {A B} (x : result A) (f : A -> result B) : result B :=
  match x with Ok a => f a | Raise e => Raise e end.

Notation "x <- c ;;; k" := (bind c (fun x => k))
  (at level 62, c at next level, right associativity).

(** [a.map(f)] for a callback that may throw: the first exception ends the
    traversal. *)
Fixpoint mapM {A B} (f : A -> result B) (l : list A) : result (list B) :=
  match l with
  | [] => Ok []
  | a :: l' => b <- f a ;;; bs <- mapM f l' ;;; Ok (b :: bs)
  end.

(** [a.forEach((x, index) => ...)] threading the variables the callback
    updates, for a callback that may throw. *)
Fixpoint forEachM {A St} (f : A -> nat -> St -> result St)
         (l : list A) (index : nat) (st : St) : result St :=
  match l with
  | [] => Ok st
  | a :: l' => st' <- f a index st ;;; forEachM f l' (S index) st'
  end.

Fixpoint forEach {A St} (f : A -> nat -> St -> St)
         (l : list A) (index : nat) (st : St) : St :=
  match l with
  | [] => st
  | a :: l' => forEach f l' (S index) (f a index st)
  end.

(** The value of [match[n]] where the source uses it as a string; a group
    that took no part in the match would be printed [undefined]. *)
Definition cap (n : nat) (mt : list (nat * jsstring)) : jsstring :=
  match group n mt with Some v => v | None => js "undefined" end.

(** The objects pushed on [functions], [errors] and [requires]. *)
Record entry : Type := mkEntry {
  line : nat;
  text : jsstring;
  signature : jsstring
}.

(** The objects pushed on [getters] (second script): no [line]. *)
Record getter : Type := mkGetter {
  getter_text : jsstring;
  getter_signature : jsstring
}.

(** [params.split(',').filter(Boolean)] *)
Definition splitParams (params : jsstring) : list jsstring :=
  filter truthy (split (ch ",") params).

(* ================================================================== *)
(** ** The first script (functions, errors, requires) *)
(* ================================================================== *)

Module Script1.
Section WithHash.

(** [web3.utils.keccak256], the hashing primitive the script calls, read
    as the function that gives the value the call returns; [Script1Exn]
    below has the call that can also throw. *)
Variable keccak256 : jsstring -> jsstring.

(** [getKeccak256]: the first 10 characters of the hash. *)
Definition getKeccak256 (text : jsstring) : jsstring :=
  slice0 10 (keccak256 text).

(** The callback of [inputs.map] in [getCanonicalForm]: the type token of
    one parameter fragment, empty when the pattern does not match. *)
Definition canonicalType (input : jsstring) : jsstring :=
  match jsmatch canonRe (trim input) with
  | Some mt => cap 1 mt ++ group_or_empty 3 mt
  | None => []
  end.

Definition getCanonicalForm (name : jsstring) (inputs : list jsstring)
  : jsstring :=
  let types := map canonicalType inputs in
  name ++ js "(" ++ join (js ",") types ++ js ")".

(** The three arrays of [calculateSignatures]. *)
Record sigs : Type := mkSigs {
  functions : list entry;
  errors : list entry;
  requires : list entry
}.

Definition matchFunction (line : jsstring) (index : nat) (st : sigs) : sigs :=
  match jsmatch functionRe line with
  | Some functionMatch =>
      let name := cap 1 functionMatch in
      let params := group_or_empty 2 functionMatch in
      let inputs := splitParams params in
      let canonicalForm := getCanonicalForm name inputs in
      let signature := getKeccak256 canonicalForm in
      mkSigs (functions st ++ [mkEntry (index + 1) canonicalForm signature])
             (errors st) (requires st)
  | None => st
  end.

Definition matchError (line : jsstring) (index : nat) (st : sigs) : sigs :=
  match jsmatch errorRe line with
  | Some errorMatch =>
      let name := cap 1 errorMatch in
      let params := group_or_empty 2 errorMatch in
      let inputs := splitParams params in
      let canonicalForm := getCanonicalForm name inputs in
      let signature := getKeccak256 canonicalForm in
      mkSigs (functions st)
             (errors st ++ [mkEntry (index + 1) canonicalForm signature])
             (requires st)
  | None => st
  end.

Definition matchRequire (line : jsstring) (index : nat) (st : sigs) : sigs :=
  match jsmatch requireRe line with
  | Some requireMatch =>
      let condition := cap 1 requireMatch in
      let errorMessage := cap 2 requireMatch in
      let errorSignature := getKeccak256 errorMessage in
      mkSigs (functions st) (errors st)
             (requires st ++
              [mkEntry (index + 1)
                 (js "require(" ++ condition ++ js ", " ++ [dquote]
                  ++ errorMessage ++ [dquote] ++ js ")")
                 errorSignature])
  | None => st
  end.

(** The callback of [lines.forEach]: three independent [if] statements. *)
Definition onLine (line : jsstring) (index : nat) (st : sigs) : sigs :=
  matchRequire line index (matchError line index (matchFunction line index st)).

(** [calculateSignatures]: the arrays handed to [writeMarkdown]. *)
Definition calculateSignatures (source : jsstring) : sigs :=
  let lines := split 10%N source in
  forEach onLine lines 0 (mkSigs [] [] []).

End WithHash.
End Script1.

(* ================================================================== *)
(** ** The second script (adds getters; unguarded canonical form) *)
(* ================================================================== *)

Module Script2.
Section WithHash.

(** [web3.utils.keccak256], read as a function (see [Script2Exn]). *)
Variable keccak256 : jsstring -> jsstring.

Definition getKeccak256 (text : jsstring) : jsstring :=
  slice0 10 (keccak256 text).

(** The callback of [inputs.map]: [match(...)[1]] throws a [TypeError] when
    the pattern does not match, and the third group is not read. *)
Definition canonicalType (input : jsstring) : result jsstring :=
  match jsmatch canonRe (trim input) with
  | Some mt => Ok (cap 1 mt)
  | None => Raise TypeError
  end.

Definition getCanonicalForm (name : jsstring) (inputs : list jsstring)
  : result jsstring :=
  types <- mapM canonicalType inputs ;;;
  Ok (name ++ js "(" ++ join (js ",") types ++ js ")").

Record sigs : Type := mkSigs {
  functions : list entry;
  errors : list entry;
  requires : list entry;
  getters : list getter
}.

Definition matchFunction (line : jsstring) (index : nat) (st : sigs)
  : result sigs :=
  match jsmatch functionRe line with
  | Some functionMatch =>
      let name := cap 1 functionMatch in
      let params := group_or_empty 2 functionMatch in
      let inputs := splitParams params in
      canonicalForm <- getCanonicalForm name inputs ;;;
      let signature := getKeccak256 canonicalForm in
      Ok (mkSigs (functions st ++ [mkEntry (index + 1) canonicalForm signature])
                 (errors st) (requires st) (getters st))
  | None => Ok st
  end.

Definition matchError (line : jsstring) (index : nat) (st : sigs)
  : result sigs :=
  match jsmatch errorRe line with
  | Some errorMatch =>
      let name := cap 1 errorMatch in
      let params := group_or_empty 2 errorMatch in
      let inputs := splitParams params in
      canonicalForm <- getCanonicalForm name inputs ;;;
      let signature := getKeccak256 canonicalForm in
      Ok (mkSigs (functions st)
                 (errors st ++ [mkEntry (index + 1) canonicalForm signature])
                 (requires st) (getters st))
  | None => Ok st
  end.

Definition matchRequire (line : jsstring) (index : nat) (st : sigs) : sigs :=
  match jsmatch requireRe line with
  | Some requireMatch =>
      let condition := cap 1 requireMatch in
      let errorMessage := cap 2 requireMatch in
      let errorSignature := getKeccak256 errorMessage in
      mkSigs (functions st) (errors st)
             (requires st ++
              [mkEntry (index + 1)
                 (js "require(" ++ condition ++ js ", " ++ [dquote]
                  ++ errorMessage ++ [dquote] ++ js ")")
                 errorSignature])
             (getters st)
  | None => st
  end.

(** Detect public state variables for getter generation. *)
Definition matchPublicVar (line : jsstring) (st : sigs) : result sigs :=
  match jsmatch publicRe line with
  | Some publicVarMatch =>
      match jsmatch varRe line with
      | Some varMatch =>
          let type := cap 1 varMatch in
          let name := cap 2 varMatch in
          canonicalForm <- getCanonicalForm name [type] ;;;
          let signature := getKeccak256 canonicalForm in
          Ok (mkSigs (functions st) (errors st) (requires st)
                     (getters st ++ [mkGetter canonicalForm signature]))
      | None => Ok st
      end
  | None => Ok st
  end.

(** The callback of [lines.forEach]: four independent [if] statements. *)
Definition onLine (line : jsstring) (index : nat) (st : sigs) : result sigs :=
  st1 <- matchFunction line index st ;;;
  st2 <- matchError line index st1 ;;;
  matchPublicVar line (matchRequire line index st2).

(** [calculateSignatures]: the arrays handed to [writeMarkdown], or the
    exception that leaves the function before [writeMarkdown] is reached. *)
Definition calculateSignatures (source : jsstring) : result sigs :=
  let lines := split 10%N source in
  forEachM onLine lines 0 (mkSigs [] [] [] []).

End WithHash.
End Script2.

(* ================================================================== *)
(** ** Both scripts when the hash call can throw *)
(* ================================================================== *)

(** [Script1] and [Script2] above read [web3.utils.keccak256] as a function
    that always returns.  The library call can also throw (it does on some
    texts that start with [0x]), and nothing between the call and the [try]
    block of [readFilesRecursively] catches the exception.  The modules below
    are the same callbacks with that exit; the type tokens, the canonical
    forms and the arrays are those of [Script1] and [Script2]. *)

Module Script1Exn.
Section WithHash.

(** [web3.utils.keccak256]: the string it returns, or the exception that
    leaves [getKeccak256]. *)
Variable keccak256 : jsstring -> result jsstring.

(** [getKeccak256]: the first 10 characters of the hash. *)
Definition getKeccak256 (text : jsstring) : result jsstring :=
  hash <- keccak256 text ;;; Ok (slice0 10 hash).

Definition matchFunction (line : jsstring) (index : nat) (st : Script1.sigs)
  : result Script1.sigs :=
  match jsmatch functionRe line with
  | Some functionMatch =>
      let name := cap 1 functionMatch in
      let params := group_or_empty 2 functionMatch in
      let inputs := splitParams params in
      let canonicalForm := Script1.getCanonicalForm name inputs in
      signature <- getKeccak256 canonicalForm ;;;
      Ok (Script1.mkSigs
            (Script1.functions st
             ++ [mkEntry (index + 1) canonicalForm signature])
            (Script1.errors st) (Script1.requires st))
  | None => Ok st
  end.

Definition matchError (line : jsstring) (index : nat) (st : Script1.sigs)
  : result Script1.sigs :=
  match jsmatch errorRe line with
  | Some errorMatch =>
      let name := cap 1 errorMatch in
      let params := group_or_empty 2 errorMatch in
      let inputs := splitParams params in
      let canonicalForm := Script1.getCanonicalForm name inputs in
      signature <- getKeccak256 canonicalForm ;;;
      Ok (Script1.mkSigs (Script1.functions st)
            (Script1.errors st
             ++ [mkEntry (index + 1) canonicalForm signature])
            (Script1.requires st))
  | None => Ok st
  end.

Definition matchRequire (line : jsstring) (index : nat) (st : Script1.sigs)
  : result Script1.sigs :=
  match jsmatch requireRe line with
  | Some requireMatch =>
      let condition := cap 1 requireMatch in
      let errorMessage := cap 2 requireMatch in
      errorSignature <- getKeccak256 errorMessage ;;;
      Ok (Script1.mkSigs (Script1.functions st) (Script1.errors st)
            (Script1.requires st ++
             [mkEntry (index + 1)
                (js "require(" ++ condition ++ js ", " ++ [dquote]
                 ++ errorMessage ++ [dquote] ++ js ")")
                errorSignature]))
  | None => Ok st
  end.

(** The callback of [lines.forEach]: the three [if] statements in order; an
    exception leaves the callback and the loop. *)
Definition onLine (line : jsstring) (index : nat) (st : Script1.sigs)
  : result Script1.sigs :=
  st1 <- matchFunction line index st ;;;
  st2 <- matchError line index st1 ;;;
  matchRequire line index st2.

(** [calculateSignatures] up to its call of [writeMarkdown]: the arrays, or
    the exception that leaves the function before anything is written. *)
Definition calculateSignatures (source : jsstring) : result Script1.sigs :=
  let lines := split 10%N source in
  forEachM onLine lines 0 (Script1.mkSigs [] [] []).

End WithHash.
End Script1Exn.

Module Script2Exn.
Section WithHash.

Variable keccak256 : jsstring -> result jsstring.

Definition getKeccak256 (text : jsstring) : result jsstring :=
  hash <- keccak256 text ;;; Ok (slice0 10 hash).

Definition matchFunction (line : jsstring) (index : nat) (st : Script2.sigs)
  : result Script2.sigs :=
  match jsmatch functionRe line with
  | Some functionMatch =>
      let name := cap 1 functionMatch in
      let params := group_or_empty 2 functionMatch in
      let inputs := splitParams params in
      canonicalForm <- Script2.getCanonicalForm name inputs ;;;
      signature <- getKeccak256 canonicalForm ;;;
      Ok (Script2.mkSigs
            (Script2.functions st
             ++ [mkEntry (index + 1) canonicalForm signature])
            (Script2.errors st) (Script2.requires st) (Script2.getters st))
  | None => Ok st
  end.

Definition matchError (line : jsstring) (index : nat) (st : Script2.sigs)
  : result Script2.sigs :=
  match jsmatch errorRe line with
  | Some errorMatch =>
      let name := cap 1 errorMatch in
      let params := group_or_empty 2 errorMatch in
      let inputs := splitParams params in
      canonicalForm <- Script2.getCanonicalForm name inputs ;;;
      signature <- getKeccak256 canonicalForm ;;;
      Ok (Script2.mkSigs (Script2.functions st)
            (Script2.errors st
             ++ [mkEntry (index + 1) canonicalForm signature])
            (Script2.requires st) (Script2.getters st))
  | None => Ok st
  end.

Definition matchRequire (line : jsstring) (index : nat) (st : Script2.sigs)
  : result Script2.sigs :=
  match jsmatch requireRe line with
  | Some requireMatch =>
      let condition := cap 1 requireMatch in
      let errorMessage := cap 2 requireMatch in
      errorSignature <- getKeccak256 errorMessage ;;;
      Ok (Script2.mkSigs (Script2.functions st) (Script2.errors st)
            (Script2.requires st ++
             [mkEntry (index + 1)
                (js "require(" ++ condition ++ js ", " ++ [dquote]
                 ++ errorMessage ++ [dquote] ++ js ")")
                errorSignature])
            (Script2.getters st))
  | None => Ok st
  end.

Definition matchPublicVar (line : jsstring) (st : Script2.sigs)
  : result Script2.sigs :=
  match jsmatch publicRe line with
  | Some publicVarMatch =>
      match jsmatch varRe line with
      | Some varMatch =>
          let type := cap 1 varMatch in
          let name := cap 2 varMatch in
          canonicalForm <- Script2.getCanonicalForm name [type] ;;;
          signature <- getKeccak256 canonicalForm ;;;
          Ok (Script2.mkSigs (Script2.functions st) (Script2.errors st)
                (Script2.requires st)
                (Script2.getters st ++ [mkGetter canonicalForm signature]))
      | None => Ok st
      end
  | None => Ok st
  end.

(** The callback of [lines.forEach]: the four [if] statements in order. *)
Definition onLine (line : jsstring) (index : nat) (st : Script2.sigs)
  : result Script2.sigs :=
  st1 <- matchFunction line index st ;;;
  st2 <- matchError line index st1 ;;;
  st3 <- matchRequire line index st2 ;;;
  matchPublicVar line st3.

Definition calculateSignatures (source : jsstring) : result Script2.sigs :=
  let lines := split 10%N source in
  forEachM onLine lines 0 (Script2.mkSigs [] [] [] []).

End WithHash.
End Script2Exn.

(* ================================================================== *)
(** ** The hashing primitive *)
(* ================================================================== *)

Module Keccak.
Local Open Scope N_scope.

(** Keccak-f[1600] with rate 136 bytes and the padding byte 0x01, on a
    state of 25 lanes of 64 bits. *)

Definition mask64 : N := 0xFFFFFFFFFFFFFFFF.

Definition rotl (x n : N) : N :=
  N.land (N.lor (N.shiftl x n) (N.shiftr x (64 - n))) mask64.

Definition lane (st : list N) (i : nat) : N := nth i st 0.

Definition RC : list N :=
  [0x0000000000000001; 0x0000000000008082; 0x800000000000808A;
   0x8000000080008000; 0x000000000000808B; 0x0000000080000001;
   0x8000000080008081; 0x8000000000008009; 0x000000000000008A;
   0x0000000000000088; 0x0000000080008009; 0x000000008000000A;
   0x000000008000808B; 0x800000000000008B; 0x8000000000008089;
   0x8000000000008003; 0x8000000000008002; 0x8000000000000080;
   0x000000000000800A; 0x800000008000000A; 0x8000000080008081;
   0x8000000000008080; 0x0000000080000001; 0x8000000080008008].

(** Rotation offsets, lane [x + 5y]. *)
Definition rho_offsets : list N :=
  [0; 1; 62; 28; 27;   36; 44; 6; 55; 20;   3; 10; 43; 25; 39;
   41; 45; 15; 21; 8;  18; 2; 61; 56; 14].

Definition idx25 : list nat := seq 0 25.

Definition theta (a : list N) : list N :=
  let c x := N.lxor (lane a x) (N.lxor (lane a (x + 5)) (N.lxor (lane a (x + 10))
             (N.lxor (lane a (x + 15)) (lane a (x + 20))))) in
  let d x := N.lxor (c ((x + 4) mod 5)%nat) (rotl (c ((x + 1) mod 5)%nat) 1) in
  map (fun i => N.lxor (lane a i) (d (i mod 5)%nat)) idx25.

Definition rho_pi (a : list N) : list N :=
  map (fun j =>
         let X := (j mod 5)%nat in
         let Y := (j / 5)%nat in
         let src := (((X + 3 * Y) mod 5) + 5 * X)%nat in
         rotl (lane a src) (nth src rho_offsets 0)) idx25.

Definition chi (b : list N) : list N :=
  map (fun i =>
         let x := (i mod 5)%nat in
         let y := (i / 5)%nat in
         let b1 := lane b (((x + 1) mod 5) + 5 * y)%nat in
         let b2 := lane b (((x + 2) mod 5) + 5 * y)%nat in
         N.lxor (lane b i) (N.land (N.lxor b1 mask64) b2)) idx25.

Definition iota (rc : N) (a : list N) : list N :=
  match a with
  | a0 :: tl => N.lxor a0 rc :: tl
  | [] => []
  end.

Definition round (a : list N) (rc : N) : list N :=
  iota rc (chi (rho_pi (theta a))).

Definition keccak_f (a : list N) : list N := fold_left round RC a.

(** Bytes of a 64-bit lane, least significant first. *)
Definition lane_bytes (l : N) : list N :=
  map (fun j => N.land (N.shiftr l (8 * N.of_nat j)) 255) (seq 0 8).

Fixpoint bytes_lane (bs : list N) : N :=
  match bs with
  | [] => 0
  | b :: bs' => b + 256 * bytes_lane bs'
  end.

Fixpoint chunks (fuel n : nat) (l : list N) : list (list N) :=
  match fuel with
  | O => []
  | S fuel' =>
      match l with
      | [] => []
      | _ => firstn n l :: chunks fuel' n (skipn n l)
      end
  end.

Definition rate : nat := 136.

(** Multi-rate padding with the Keccak domain byte 0x01. *)
Definition pad (msg : list N) : list N :=
  let k := (rate - 1 - (List.length msg mod rate))%nat in
  match k with
  | O => msg ++ [0x81]
  | S k' => msg ++ [0x01] ++ repeat 0 k' ++ [0x80]
  end.

Definition absorb (st : list N) (block : list N) : list N :=
  let lanes := map bytes_lane (chunks 17 8 block) in
  keccak_f (map (fun i => N.lxor (lane st i) (lane lanes i)) idx25).

Definition keccak256_bytes (msg : list N) : list N :=
  let p := pad msg in
  let st := fold_left absorb (chunks (List.length p) rate p) (repeat 0 25) in
  flat_map (fun i => lane_bytes (lane st i)) (seq 0 4).

Definition hex_digit (d : N) : char :=
  if d <? 10 then 48 + d else 87 + d.

Definition hex2 (b : N) : jsstring :=
  [hex_digit (N.land (N.shiftr b 4) 15); hex_digit (N.land b 15)].

Definition high_surrogate (c : N) : bool := (0xD800 <=? c) && (c <=? 0xDBFF).
Definition low_surrogate (c : N) : bool := (0xDC00 <=? c) && (c <=? 0xDFFF).
Definition replacement : list N := [0xEF; 0xBF; 0xBD].

(** UTF-8 bytes of a string of UTF-16 code units. *)
Fixpoint utf8 (s : jsstring) : list N :=
  match s with
  | [] => []
  | c :: s' =>
      if c <? 0x80 then c :: utf8 s'
      else if c <? 0x800 then [0xC0 + c / 64; 0x80 + c mod 64] ++ utf8 s'
      else if high_surrogate c then
        match s' with
        | d :: s'' =>
            if low_surrogate d then
              let cp := 0x10000 + (c - 0xD800) * 1024 + (d - 0xDC00) in
              [0xF0 + cp / 262144; 0x80 + (cp / 4096) mod 64;
               0x80 + (cp / 64) mod 64; 0x80 + cp mod 64] ++ utf8 s''
            else replacement ++ utf8 s'
        | [] => replacement
        end
      else if low_surrogate c then replacement ++ utf8 s'
      else [0xE0 + (c / 4096) mod 16; 0x80 + (c / 64) mod 64; 0x80 + c mod 64]
           ++ utf8 s'
  end.

(** Modelled from the spec: [web3.utils.keccak256] belongs to the web3
    package, which is not part of the sources.  The Digest Engine of the
    specification computes Keccak-256 over the UTF-8 byte encoding of the
    string and formats it as lowercase hex with a [0x] prefix. *)
Definition keccak256 (text : jsstring) : jsstring :=
  js "0x" ++ flat_map hex2 (keccak256_bytes (utf8 text)).

End Keccak.

(** A stand-in for the library call in sample runs.  [web3.utils.keccak256]
    reads a text made of [0x] and hexadecimal digits as bytes, and throws
    when the number of digits is odd.  The stand-in throws on those texts
    and returns the hash of the specification on a text that is not such a
    literal; no sample uses a literal with an even number of digits. *)
Definition is_hex_char (c : char) : bool :=
  in_range 48 57 c || in_range 97 102 c || in_range 65 70 c.

Definition odd_hex_literal (t : jsstring) : bool :=
  match t with
  | a :: b :: h =>
      (a =? 48)%N && ((b =? 120)%N || (b =? 88)%N) && forallb is_hex_char h
      && Nat.odd (length h)
  | _ => false
  end.

Definition sampleKeccak256 (t : jsstring) : result jsstring :=
  if odd_hex_literal t then Raise Web3Error else Ok (Keccak.keccak256 t).


(* ================================================================== *)
(** ** Specification-side definitions *)
(* ================================================================== *)

(** The character before the position reached after reading [w]. *)
Fixpoint lastp (p : option char) (w : jsstring) : option char :=
  match w with
  | [] => p
  | c :: w' => lastp (Some c) w'
  end.

(** Declarative reading of a pattern: [run r s s'] when [r] can take the
    matcher from [s] to [s']. *)
Inductive run : regex -> state -> state -> Prop :=
| run_eps s : run Eps s s
| run_chr c tl s : rest s = c :: tl -> run (Chr c) s (advance c tl s)
| run_class (p : char -> bool) c tl s :
    rest s = c :: tl -> p c = true -> run (Class p) s (advance c tl s)
| run_seq r1 r2 s s1 s2 :
    run r1 s s1 -> run r2 s1 s2 -> run (Seq r1 r2) s s2
| run_star_nil g r s : run (Star g r) s s
| run_star_cons g r s s1 s2 :
    run r (clear (groups_of r) s) s1 -> run (Star g r) s1 s2 ->
    run (Star g r) s s2
| run_opt_none g r s : run (Opt g r) s s
| run_opt_some g r s s1 :
    run r (clear (groups_of r) s) s1 -> run (Opt g r) s s1
| run_group n r s s1 :
    run r s s1 -> run (Group n r) s (set_cap n (rest s) s1)
| run_eol s : rest s = [] -> run Eol s s
| run_wordb s :
    xorb (is_word_opt (prev s)) (is_word_opt (hd_error (rest s))) = true ->
    run WordB s s.

(** [.] other than the character [a]. *)
Definition other_than (a : char) (c : char) : bool :=
  is_dot c && negb (c =? a)%N.

(** 0-based positions of the elements of a list that satisfy [f]. *)
Fixpoint positions {A} (f : A -> bool) (l : list A) (from : nat) : list nat :=
  match l with
  | [] => []
  | a :: l' =>
      if f a then from :: positions f l' (S from) else positions f l' (S from)
  end.

Definition matches (r : regex) (s : jsstring) : bool :=
  match jsmatch r s with Some _ => true | None => false end.

Definition is_lower_hex (c : char) : bool :=
  in_range 48 57 c || in_range 97 102 c.

(** [0x] followed by exactly [n] lowercase hexadecimal characters. *)
Definition is_hex_of (n : nat) (s : jsstring) : bool :=
  match s with
  | a :: b :: h =>
      (a =? 48)%N && (b =? 120)%N && Nat.eqb (length h) n
      && forallb is_lower_hex h
  | _ => false
  end.


(** *** Sample inputs *)

(** The declaration of the specification's first scenario. *)
Definition transferLine : jsstring :=
  js "function transfer(address to, uint256 amount) public returns (bool)".

(** The guard of the specification's third scenario. *)
Definition requireLine : jsstring :=
  js "require(balance >= amount, " ++ dquote :: js "Insufficient balance"
     ++ dquote :: js ");".

(** A function declaration whose body holds a guard, on one line. *)
Definition twoKindsLine : jsstring :=
  js "function f() public { require(x > 0, " ++ dquote :: js "bad"
     ++ dquote :: js "); }".

(** A source with a declaration of each kind. *)
Definition sampleSource : jsstring :=
  transferLine ++ 10%N :: js "error InsufficientBalance(uint256 available, uint256 required);"
    ++ 10%N :: requireLine ++ 10%N :: js "uint256 counter = 0; // public".

(* ================================================================== *)
(** ** The report and the directory traversal *)
(* ================================================================== *)

(** A number inside a template literal: its decimal digits. *)
Definition showNat (n : nat) : jsstring :=
  js (NilEmpty.string_of_uint (Nat.to_uint n)).

(** [a === b] on strings. *)
Fixpoint str_eqb (a b : jsstring) : bool :=
  match a, b with
  | [], [] => true
  | x :: a', y :: b' => (x =? y)%N && str_eqb a' b'
  | _, _ => false
  end.

(** What [fsp.readdir(dir, { withFileTypes: true })] lists: a file, with
    what [fsp.readFile(path, 'utf8')] gives for it ([None]: the read is
    rejected); a directory, with its own listing ([None]: [readdir] is
    rejected); or an entry that is neither. *)
#[local] Set Warnings "-register-all".
Inductive dirent : Type :=
| File (name : jsstring) (content : option jsstring)
| Directory (name : jsstring) (listing : option (list dirent))
| Special (name : jsstring).

(** How an awaited call ends. *)
Inductive settled : Type := Fulfilled | Rejected.

(** What the script leaves behind: the text written to [outputFile] and
    the messages given to [console.error] and [console.log]. *)
Record world : Type := mkWorld {
  stream : jsstring;
  console : list jsstring
}.

(** [outputFile.write(s)], on a stream that is open and takes the text. *)
Definition write (s : jsstring) (w : world) : world :=
  mkWorld (stream w ++ s) (console w).

(** [console.error(msg, ...)] and [console.log(msg)] *)
Definition consoleMsg (msg : jsstring) (w : world) : world :=
  mkWorld (stream w) (console w ++ [msg]).

(** [for (const item of items) { await body(item) }]: a rejection ends the
    loop. *)
Section ForOf.
Variable A : Type.
Variable body : A -> world -> world * settled.

Fixpoint forOf (l : list A) (w : world) : world * settled :=
  match l with
  | [] => (w, Fulfilled)
  | a :: l' =>
      match body a w with
      | (w', Fulfilled) => forOf l' w'
      | (w', Rejected) => (w', Rejected)
      end
  end.
End ForOf.

Definition nl : jsstring := [10%N].

(** One line of the report for a record that has a line number. *)
Definition entryLine (label : jsstring) (e : entry) : jsstring :=
  js "- Line " ++ showNat (line e) ++ js ": `" ++ text e ++ js "` | "
     ++ label ++ js ": `" ++ signature e ++ js "`" ++ nl.

Module Script1Io.
Section WithEnv.

(** [web3.utils.keccak256]: the hash, or the exception it throws. *)
Variable keccak256 : jsstring -> result jsstring.
(** [args[0]] and the functions of the [path] module. *)
Variable directoryPath : jsstring.
Variable path_join : jsstring -> jsstring -> jsstring.
Variable path_relative : jsstring -> jsstring -> jsstring.
Variable path_extname : jsstring -> jsstring.

(** [writeMarkdown] *)
Definition writeMarkdown (filePath : jsstring)
           (functions errors requires : list entry) (w : world) : world :=
  let relativePath := path_relative directoryPath filePath in
  let w := write (js "### " ++ relativePath ++ nl ++ nl) w in
  let w :=
    if 0 <? length functions then
      let w := write (js "#### Functions:" ++ nl) w in
      let w := fold_left (fun w fn => write (entryLine (js "Selector") fn) w)
                         functions w in
      write nl w
    else w in
  let w :=
    if 0 <? length errors then
      let w := write (js "#### Custom Errors:" ++ nl) w in
      let w := fold_left (fun w err => write (entryLine (js "Signature") err) w)
                         errors w in
      write nl w
    else w in
  let w :=
    if 0 <? length requires then
      let w := write (js "#### Require Statements:" ++ nl) w in
      let w := fold_left (fun w req => write (entryLine (js "Signature") req) w)
                         requires w in
      write nl w
    else w in
  write (js "---" ++ nl ++ nl) w.

(** [calculateSignatures], with its final call of [writeMarkdown]: an
    exception of the analysis leaves before anything is written. *)
Definition calculateSignatures (source filePath : jsstring) (w : world)
  : result world :=
  st <- Script1Exn.calculateSignatures keccak256 source ;;;
  Ok (writeMarkdown filePath (Script1.functions st) (Script1.errors st)
        (Script1.requires st) w).

(** The body of the loop of [readFilesRecursively]; the call on a
    subdirectory is [readFilesRecursively fullPath].  The [try] block holds
    the read and the call of [calculateSignatures]: a rejected read and an
    exception of the analysis both end in the [catch] block. *)
Fixpoint onItem (dir : jsstring) (item : dirent) (w : world) {struct item}
  : world * settled :=
  match item with
  | Directory name listing =>
      let fullPath := path_join dir name in
      match listing with
      | Some items => forOf (onItem fullPath) items w
      | None => (w, Rejected)
      end
  | File name content =>
      let fullPath := path_join dir name in
      if str_eqb (path_extname fullPath) (js ".sol") then
        match content with
        | Some content =>
            match calculateSignatures content fullPath w with
            | Ok w' => (w', Fulfilled)
            | Raise _ =>
                (consoleMsg (js "Error processing file " ++ fullPath ++ js ":")
                   w, Fulfilled)
            end
        | None =>
            (consoleMsg (js "Error processing file " ++ fullPath ++ js ":") w,
             Fulfilled)
        end
      else (w, Fulfilled)
  | Special _ => (w, Fulfilled)
  end.

(** [readFilesRecursively(dir)], given what [readdir(dir)] yields. *)
Definition readFilesRecursively (dir : jsstring)
           (listing : option (list dirent)) (w : world) : world * settled :=
  match listing with
  | Some items => forOf (onItem dir) items w
  | None => (w, Rejected)
  end.

(** The final asynchronous block: [try], [catch], and [finally] closing the
    stream. *)
Definition main (root : option (list dirent)) (w : world) : world :=
  match readFilesRecursively directoryPath root w with
  | (w', Fulfilled) => consoleMsg (js "Finished processing all files.") w'
  | (w', Rejected) => consoleMsg (js "Error:") w'
  end.

End WithEnv.
End Script1Io.

Module Script2Io.
Section WithEnv.

Variable keccak256 : jsstring -> result jsstring.
Variable directoryPath : jsstring.
Variable path_join : jsstring -> jsstring -> jsstring.
Variable path_relative : jsstring -> jsstring -> jsstring.
Variable path_extname : jsstring -> jsstring.

(** One line of the report for a getter. *)
Definition getterLine (g : getter) : jsstring :=
  js "- `" ++ getter_text g ++ js "` | Selector: `" ++ getter_signature g
     ++ js "`" ++ nl.

(** [writeMarkdown] *)
Definition writeMarkdown (filePath : jsstring)
           (functions errors requires : list entry) (getters : list getter)
           (w : world) : world :=
  let relativePath := path_relative directoryPath filePath in
  let w := write (js "### " ++ relativePath ++ nl ++ nl) w in
  let w :=
    if 0 <? length functions then
      let w := write (js "#### Functions:" ++ nl) w in
      let w := fold_left (fun w fn => write (entryLine (js "Selector") fn) w)
                         functions w in
      write nl w
    else w in
  let w :=
    if 0 <? length getters then
      let w := write (js "#### Getters (for public variables):" ++ nl) w in
      let w := fold_left (fun w g => write (getterLine g) w) getters w in
      write nl w
    else w in
  let w :=
    if 0 <? length errors then
      let w := write (js "#### Custom Errors:" ++ nl) w in
      let w := fold_left (fun w err => write (entryLine (js "Signature") err) w)
                         errors w in
      write nl w
    else w in
  let w :=
    if 0 <? length requires then
      let w := write (js "#### Require Statements:" ++ nl) w in
      let w := fold_left (fun w req => write (entryLine (js "Signature") req) w)
                         requires w in
      write nl w
    else w in
  write (js "---" ++ nl ++ nl) w.

(** [calculateSignatures], with its final call of [writeMarkdown]: an
    exception of the analysis leaves before anything is written. *)
Definition calculateSignatures (source filePath : jsstring) (w : world)
  : result world :=
  st <- Script2Exn.calculateSignatures keccak256 source ;;;
  Ok (writeMarkdown filePath (Script2.functions st) (Script2.errors st)
        (Script2.requires st) (Script2.getters st) w).

Fixpoint onItem (dir : jsstring) (item : dirent) (w : world) {struct item}
  : world * settled :=
  match item with
  | Directory name listing =>
      let fullPath := path_join dir name in
      match listing with
      | Some items => forOf (onItem fullPath) items w
      | None => (w, Rejected)
      end
  | File name content =>
      let fullPath := path_join dir name in
      if str_eqb (path_extname fullPath) (js ".sol") then
        match content with
        | Some content =>
            match calculateSignatures content fullPath w with
            | Ok w' => (w', Fulfilled)
            | Raise _ =>
                (consoleMsg (js "Error processing file " ++ fullPath ++ js ":")
                   w, Fulfilled)
            end
        | None =>
            (consoleMsg (js "Error processing file " ++ fullPath ++ js ":") w,
             Fulfilled)
        end
      else (w, Fulfilled)
  | Special _ => (w, Fulfilled)
  end.

Definition readFilesRecursively (dir : jsstring)
           (listing : option (list dirent)) (w : world) : world * settled :=
  match listing with
  | Some items => forOf (onItem dir) items w
  | None => (w, Rejected)
  end.

Definition main (root : option (list dirent)) (w : world) : world :=
  match readFilesRecursively directoryPath root w with
  | (w', Fulfilled) => consoleMsg (js "Finished processing all files.") w'
  | (w', Rejected) => consoleMsg (js "Error during file processing:") w'
  end.

End WithEnv.
End Script2Io.

(* ================================================================== *)
(** ** More specification-side definitions *)
(* ================================================================== *)

(** The optional name part: absent, or blanks and a word. *)
Definition name_part (mid : jsstring) : Prop :=
  mid = [] \/
  exists cs ws c2 w2,
    mid = (cs :: ws) ++ (c2 :: w2)
    /\ forallb is_space (cs :: ws) = true
    /\ forallb is_word (c2 :: w2) = true.

(** The text ends with a word character, or with a word character
    followed by [[]]. *)
Definition ends_with_type (t : jsstring) : bool :=
  match rev t with
  | c :: r =>
      is_word c
      || ((c =? ch "]")%N
          && match r with
             | b :: c2 :: _ => (b =? ch "[")%N && is_word c2
             | _ => false
             end)
  | [] => false
  end.

(** The last character of the text is [a]. *)
Definition last_is (a : char) (t : jsstring) : bool :=
  match rev t with
  | c :: _ => (c =? a)%N
  | [] => false
  end.

(** The characters of a canonical signature: word characters, parentheses,
    comma and brackets. *)
Definition is_sig_char (c : char) : bool :=
  is_word c || (c =? ch "(")%N || (c =? ch ")")%N || (c =? ch ",")%N
  || (c =? ch "[")%N || (c =? ch "]")%N.

(** The text of a record is made of signature characters only. *)
Definition text_ok (e : entry) : Prop := forallb is_sig_char (text e) = true.
Definition getter_ok (g : getter) : Prop :=
  forallb is_sig_char (getter_text g) = true.

Definition texts2 (st : Script2.sigs) : Prop :=
  Forall text_ok (Script2.functions st)
  /\ Forall text_ok (Script2.errors st)
  /\ Forall getter_ok (Script2.getters st).

(** Records in strictly increasing line order, with line numbers from 1
    to [n]. *)
Definition in_line_order (n : nat) (recs : list entry) : Prop :=
  StronglySorted lt (map line recs)
  /\ Forall (fun e => 1 <= line e <= n) recs.

(** A record moved [k] lines down. *)
Definition shift (k : nat) (e : entry) : entry :=
  mkEntry (line e + k) (text e) (signature e).

(** The records a rule gives for the lines of a list, the first line
    having index [index]. *)
Fixpoint collect (rule : jsstring -> nat -> list entry)
         (lines : list jsstring) (index : nat) : list entry :=
  match lines with
  | [] => []
  | l :: lines' => rule l index ++ collect rule lines' (S index)
  end.

(** What each rule of the first script appends for one line. *)
Section Rules.
Variable keccak256 : jsstring -> jsstring.

Definition functionRule (l : jsstring) (index : nat) : list entry :=
  match jsmatch functionRe l with
  | Some mt =>
      let text := Script1.getCanonicalForm (cap 1 mt)
                    (splitParams (group_or_empty 2 mt)) in
      [mkEntry (index + 1) text (Script1.getKeccak256 keccak256 text)]
  | None => []
  end.

Definition errorRule (l : jsstring) (index : nat) : list entry :=
  match jsmatch errorRe l with
  | Some mt =>
      let text := Script1.getCanonicalForm (cap 1 mt)
                    (splitParams (group_or_empty 2 mt)) in
      [mkEntry (index + 1) text (Script1.getKeccak256 keccak256 text)]
  | None => []
  end.

Definition requireRule (l : jsstring) (index : nat) : list entry :=
  match jsmatch requireRe l with
  | Some mt =>
      [mkEntry (index + 1)
         (js "require(" ++ cap 1 mt ++ js ", " ++ [dquote] ++ cap 2 mt
             ++ [dquote] ++ js ")")
         (Script1.getKeccak256 keccak256 (cap 2 mt))]
  | None => []
  end.

End Rules.

(** A fragment in which the canonical-form pattern finds no type. *)
Definition untyped (input : jsstring) : bool :=
  negb (ends_with_type (trim input)).

(** A line on which the second script throws: its function or error rule
    matches and one of the parameter fragments has no type. *)
Definition throwsOn (l : jsstring) : bool :=
  match jsmatch functionRe l with
  | Some mt => existsb untyped (splitParams (group_or_empty 2 mt))
  | None => false
  end
  || match jsmatch errorRe l with
     | Some mt => existsb untyped (splitParams (group_or_empty 2 mt))
     | None => false
     end.

(** The lists of the two scripts agree: same require records, and function
    and error records on the same lines. *)
Definition agree (a : Script1.sigs) (b : Script2.sigs) : Prop :=
  Script2.requires b = Script1.requires a
  /\ map line (Script2.functions b) = map line (Script1.functions a)
  /\ map line (Script2.errors b) = map line (Script1.errors a).

(** Every directory of the tree can be listed. *)
Fixpoint walkable (item : dirent) : bool :=
  match item with
  | Directory _ (Some items) => forallb walkable items
  | Directory _ None => false
  | _ => true
  end.

(** One headed section of a report: nothing for an empty list. *)
Definition sectionText {A} (heading : jsstring) (lineOf : A -> jsstring)
           (l : list A) : jsstring :=
  if 0 <? length l then heading ++ nl ++ flat_map lineOf l ++ nl else [].

(** The report of one file, as one text. *)
Definition reportText1 (relativePath : jsstring) (st : Script1.sigs)
  : jsstring :=
  (js "### " ++ relativePath ++ nl ++ nl)
  ++ sectionText (js "#### Functions:") (entryLine (js "Selector"))
       (Script1.functions st)
  ++ sectionText (js "#### Custom Errors:") (entryLine (js "Signature"))
       (Script1.errors st)
  ++ sectionText (js "#### Require Statements:") (entryLine (js "Signature"))
       (Script1.requires st)
  ++ (js "---" ++ nl ++ nl).

Definition reportText2 (relativePath : jsstring) (st : Script2.sigs)
  : jsstring :=
  (js "### " ++ relativePath ++ nl ++ nl)
  ++ sectionText (js "#### Functions:") (entryLine (js "Selector"))
       (Script2.functions st)
  ++ sectionText (js "#### Getters (for public variables):")
       Script2Io.getterLine (Script2.getters st)
  ++ sectionText (js "#### Custom Errors:") (entryLine (js "Signature"))
       (Script2.errors st)
  ++ sectionText (js "#### Require Statements:") (entryLine (js "Signature"))
       (Script2.requires st)
  ++ (js "---" ++ nl ++ nl).

(** The message logged for a file that could not be processed. *)
Definition fileError (fullPath : jsstring) : jsstring :=
  js "Error processing file " ++ fullPath ++ js ":".

Section Files.
Variable keccak256 : jsstring -> result jsstring.
Variable directoryPath : jsstring.
Variable path_join : jsstring -> jsstring -> jsstring.
Variable path_relative : jsstring -> jsstring -> jsstring.
Variable path_extname : jsstring -> jsstring.

(** The files with extension [.sol] under an entry, depth first in listing
    order, each with its full path and what reading it gives. *)
Fixpoint solFiles (dir : jsstring) (item : dirent) {struct item}
  : list (jsstring * option jsstring) :=
  match item with
  | Directory name (Some items) =>
      flat_map (solFiles (path_join dir name)) items
  | Directory _ None => []
  | File name content =>
      if str_eqb (path_extname (path_join dir name)) (js ".sol")
      then [(path_join dir name, content)] else []
  | Special _ => []
  end.

(** What one file adds to the report and to the console, first script: its
    report when it is read and analysed, one message when the read is
    rejected or the analysis throws. *)
Definition fileReport1 (f : jsstring * option jsstring) : jsstring :=
  match snd f with
  | Some content =>
      match Script1Exn.calculateSignatures keccak256 content with
      | Ok st => reportText1 (path_relative directoryPath (fst f)) st
      | Raise _ => []
      end
  | None => []
  end.

Definition fileConsole1 (f : jsstring * option jsstring) : list jsstring :=
  match snd f with
  | Some content =>
      match Script1Exn.calculateSignatures keccak256 content with
      | Ok _ => []
      | Raise _ => [fileError (fst f)]
      end
  | None => [fileError (fst f)]
  end.

(** The same for the second script. *)
Definition fileReport2 (f : jsstring * option jsstring) : jsstring :=
  match snd f with
  | Some content =>
      match Script2Exn.calculateSignatures keccak256 content with
      | Ok st => reportText2 (path_relative directoryPath (fst f)) st
      | Raise _ => []
      end
  | None => []
  end.

Definition fileConsole2 (f : jsstring * option jsstring) : list jsstring :=
  match snd f with
  | Some content =>
      match Script2Exn.calculateSignatures keccak256 content with
      | Ok _ => []
      | Raise _ => [fileError (fst f)]
      end
  | None => [fileError (fst f)]
  end.

End Files.

(** The world after more text and more console messages. *)
Definition extend (added : jsstring) (msgs : list jsstring) (w : world)
  : world :=
  mkWorld (stream w ++ added) (console w ++ msgs).

(** What [readdir] yields can be listed, and so can every directory below. *)
Definition listable (listing : option (list dirent)) : bool :=
  match listing with
  | Some items => forallb walkable items
  | None => false
  end.

(** *** A sample directory *)

(** Stand-ins for the functions of the [path] module on plain names, for
    sample runs: join with a slash, drop the root and its slash, take the
    last four characters. *)
Definition sampleJoin (dir name : jsstring) : jsstring :=
  dir ++ js "/" ++ name.

Definition sampleRelative (from to : jsstring) : jsstring :=
  skipn (length from + 1) to.

Definition sampleExtname (p : jsstring) : jsstring :=
  skipn (length p - 4) p.

(** A guard whose message is a [0x] literal with three digits. *)
Definition oddLiteralLine : jsstring :=
  js "require(x > 0, " ++ dquote :: js "0x123" ++ dquote :: js ");".

(** A readable file, an unreadable one, a subdirectory with a text file
    and a file on which the second script throws, a special entry, and a
    file with a guard on whose message the hash call throws. *)
Definition sampleTree : list dirent :=
  [File (js "a.sol") (Some transferLine);
   File (js "b.sol") None;
   Directory (js "sub")
     (Some [File (js "c.txt") (Some (js "x"));
            File (js "d.sol") (Some (js "function f( ) public {}"))]);
   Special (js "link");
   File (js "e.sol") (Some oddLiteralLine)].

(* ================================================================== *)
(** ** Specification-side definitions for the hash call *)
(* ================================================================== *)

(** The value the hash call returns on a text (the empty string stands for
    no value, where the call throws). *)
Definition returned (keccak256 : jsstring -> result jsstring)
           (t : jsstring) : jsstring :=
  match keccak256 t with Ok h => h | Raise _ => [] end.

(** The hash call returns on the text. *)
Definition hashable (keccak256 : jsstring -> result jsstring)
           (t : jsstring) : Prop :=
  exists h, keccak256 t = Ok h.

(** The signature [sg] is the hash of the text [t] cut to its first ten
    characters. *)
Definition digest_of (keccak256 : jsstring -> result jsstring)
           (t sg : jsstring) : Prop :=
  exists h, keccak256 t = Ok h /\ sg = slice0 10 h.

(** The text of a require record, from the two captures. *)
Definition requireText (condition message : jsstring) : jsstring :=
  js "require(" ++ condition ++ js ", " ++ dquote :: message
     ++ dquote :: js ")".

(** A require record of a source with the lines [lines]: it stands for the
    line whose number it carries, that line is accepted by the require
    pattern, its text is rebuilt from the two captures and its signature is
    the digest of the captured message. *)
Definition require_of (keccak256 : jsstring -> result jsstring)
           (lines : list jsstring) (e : entry) : Prop :=
  exists l mt,
    1 <= line e /\ nth_error lines (line e - 1) = Some l
    /\ jsmatch requireRe l = Some mt
    /\ text e = requireText (cap 1 mt) (cap 2 mt)
    /\ digest_of keccak256 (cap 2 mt) (signature e).

(** The records of a source with the lines [lines]: the signature of a
    function, error or getter record is the digest of the text of that
    record, and a require record carries the digest of its message. *)
Section Digests.
Variable keccak256 : jsstring -> result jsstring.
Variable lines : list jsstring.

Definition entry_digest (e : entry) : Prop :=
  digest_of keccak256 (text e) (signature e).

Definition getter_digest (g : getter) : Prop :=
  digest_of keccak256 (getter_text g) (getter_signature g).

Definition digests1 (st : Script1.sigs) : Prop :=
  Forall entry_digest (Script1.functions st)
  /\ Forall entry_digest (Script1.errors st)
  /\ Forall (require_of keccak256 lines) (Script1.requires st).

Definition digests2 (st : Script2.sigs) : Prop :=
  Forall entry_digest (Script2.functions st)
  /\ Forall entry_digest (Script2.errors st)
  /\ Forall (require_of keccak256 lines) (Script2.requires st)
  /\ Forall getter_digest (Script2.getters st).

End Digests.

(** The texts the first script gives to the hash for one line, in the
    order of the calls. *)
Definition hashInputs1 (l : jsstring) : list jsstring :=
  match jsmatch functionRe l with
  | Some mt =>
      [Script1.getCanonicalForm (cap 1 mt) (splitParams (group_or_empty 2 mt))]
  | None => []
  end
  ++ match jsmatch errorRe l with
     | Some mt =>
         [Script1.getCanonicalForm (cap 1 mt)
            (splitParams (group_or_empty 2 mt))]
     | None => []
     end
  ++ match jsmatch requireRe l with
     | Some mt => [cap 2 mt]
     | None => []
     end.

(** The canonical form of the second script as a list: empty when it
    throws. *)
Definition formText2 (name : jsstring) (inputs : list jsstring)
  : list jsstring :=
  match Script2.getCanonicalForm name inputs with
  | Ok t => [t]
  | Raise _ => []
  end.

(** The texts the second script gives to the hash for one line on which
    no canonical form throws, in the order of the calls. *)
Definition hashInputs2 (l : jsstring) : list jsstring :=
  match jsmatch functionRe l with
  | Some mt => formText2 (cap 1 mt) (splitParams (group_or_empty 2 mt))
  | None => []
  end
  ++ match jsmatch errorRe l with
     | Some mt => formText2 (cap 1 mt) (splitParams (group_or_empty 2 mt))
     | None => []
     end
  ++ match jsmatch requireRe l with
     | Some mt => [cap 2 mt]
     | None => []
     end
  ++ match jsmatch publicRe l, jsmatch varRe l with
     | Some _, Some mt => formText2 (cap 2 mt) [cap 1 mt]
     | _, _ => []
     end.

(** A step of a script with the hash call that can throw, [f], against
    the same step with the hash read as a function, [g]: when [f] returns,
    [g] returns the same value, no canonical form throws ([throws] is
    false) and the hash call returns on every text of [inputs]; when [f]
    throws [e], a canonical form threw a [TypeError], or the hash call throws
    [e] on one of the texts. *)
Section Steps.
Variable keccak256 : jsstring -> result jsstring.
Variable St : Type.

Definition step_spec (f g : St -> result St) (throws : bool)
           (inputs : list jsstring) : Prop :=
  forall st,
    match f st with
    | Ok st' =>
        g st = Ok st' /\ throws = false
        /\ Forall (hashable keccak256) inputs
    | Raise e =>
        (throws = true /\ e = TypeError)
        \/ Exists (fun t => keccak256 t = Raise e) inputs
    end.

End Steps.

(** A parameter as a declaration writes it, and its type: a type word, a
    type word followed by blanks and a name, or a type word directly
    followed by [[]], with any blanks before and after. *)
Inductive parameter : jsstring -> jsstring -> Prop :=
| param_type lead ty trail :
    forallb is_space lead = true -> forallb is_space trail = true ->
    ty <> [] -> forallb is_word ty = true ->
    parameter (lead ++ ty ++ trail) ty
| param_named lead ty sep name trail :
    forallb is_space lead = true -> forallb is_space trail = true ->
    ty <> [] -> forallb is_word ty = true ->
    sep <> [] -> forallb is_space sep = true ->
    name <> [] -> forallb is_word name = true ->
    parameter (lead ++ ty ++ sep ++ name ++ trail) ty
| param_array lead ty trail :
    forallb is_space lead = true -> forallb is_space trail = true ->
    ty <> [] -> forallb is_word ty = true ->
    parameter (lead ++ ty ++ js "[]" ++ trail) (ty ++ js "[]").

(** A character other than the comma. *)
Definition no_comma (c : char) : bool := negb (c =? ch ",")%N.

(** A function declaration with a blank parameter list, whose body holds an
    assignment. *)
Definition lostGetterLine : jsstring :=
  js "function f( ) public { uint x = 1; }".

(** The text of the getter made from a match of the assignment pattern:
    the second captured word, and the first one between parentheses. *)
Definition getterText (mt : list (nat * jsstring)) : jsstring :=
  cap 2 mt ++ js "(" ++ cap 1 mt ++ js ")".


(* ================================================================== *)
(** ** Strings: facts about [trim], [js] and the character classes *)
(* ================================================================== *)

Module JsFacts.

Lemma word_not_space c : is_word c = true -> is_space c = false.
Proof.
  unfold is_word, is_space, in_range. intros H.
  repeat rewrite ?orb_true_iff, ?andb_true_iff, ?N.leb_le, ?N.eqb_eq in H.
  repeat rewrite ?orb_false_iff, ?andb_false_iff, ?N.leb_gt, ?N.eqb_neq.
  lia.
Qed.

Lemma space_not_word c : is_space c = true -> negb (is_word c) = true.
Proof.
  intros H. destruct (is_word c) eqn:E; [|reflexivity].
  apply word_not_space in E. congruence.
Qed.

Lemma word_not_space_b c : is_word c = true -> negb (is_space c) = true.
Proof. intros H. apply word_not_space in H. now rewrite H. Qed.

Lemma forallb_head {A} (f : A -> bool) c l :
  forallb f (c :: l) = true -> f c = true.
Proof. simpl. intros H. now apply andb_true_iff in H. Qed.

Lemma trimStart_spaces lead x :
  forallb is_space lead = true -> trimStart (lead ++ x) = trimStart x.
Proof.
  induction lead as [|c lead IH]; simpl; [reflexivity|].
  intros H. apply andb_true_iff in H as [Hc Hl]. rewrite Hc. auto.
Qed.

Lemma trimStart_head c x :
  is_space c = false -> trimStart (c :: x) = c :: x.
Proof. intros H. simpl. now rewrite H. Qed.

Lemma forallb_rev {A} (f : A -> bool) l :
  forallb f l = true -> forallb f (rev l) = true.
Proof.
  rewrite !forallb_forall. intros H x Hx. apply H. now apply in_rev.
Qed.

Lemma trimEnd_spaces x d trail :
  forallb is_space trail = true -> is_space d = false ->
  trimEnd (x ++ d :: trail) = x ++ [d].
Proof.
  intros Ht Hd. unfold trimEnd.
  rewrite rev_app_distr. simpl rev. rewrite <- !app_assoc.
  rewrite trimStart_spaces by now apply forallb_rev.
  simpl app. rewrite trimStart_head by assumption.
  simpl rev. now rewrite rev_involutive.
Qed.

(** [trim] removes the blanks around a text that starts and ends with a
    character that is not a blank. *)
Lemma trim_core lead c mid d trail :
  forallb is_space lead = true -> forallb is_space trail = true ->
  is_space c = false -> is_space d = false ->
  trim (lead ++ (c :: mid ++ [d]) ++ trail) = c :: mid ++ [d].
Proof.
  intros Hl Ht Hc Hd. unfold trim.
  rewrite trimStart_spaces by assumption.
  simpl app. rewrite trimStart_head by assumption.
  rewrite <- app_assoc. simpl app.
  apply (trimEnd_spaces (c :: mid)); assumption.
Qed.

Lemma trim_single lead c trail :
  forallb is_space lead = true -> forallb is_space trail = true ->
  is_space c = false ->
  trim (lead ++ [c] ++ trail) = [c].
Proof.
  intros Hl Ht Hc. unfold trim.
  rewrite trimStart_spaces by assumption.
  simpl app. rewrite trimStart_head by assumption.
  apply (trimEnd_spaces []); assumption.
Qed.

(** The same, for a text given by its first character and the rest. *)
Lemma trim_framed lead c mid trail :
  forallb is_space lead = true -> forallb is_space trail = true ->
  is_space c = false ->
  (forall m' d, mid = m' ++ [d] -> is_space d = false) ->
  trim (lead ++ (c :: mid) ++ trail) = c :: mid.
Proof.
  intros Hl Ht Hc Hd. destruct mid as [|x mid].
  - now apply trim_single.
  - destruct (@exists_last _ (x :: mid)) as [m' [d E]]; [discriminate|].
    rewrite E. apply trim_core; try assumption. now apply (Hd m' d).
Qed.

Lemma trim_word c w : forallb is_word (c :: w) = true -> trim (c :: w) = c :: w.
Proof.
  intros H. rewrite <- (app_nil_r (c :: w)) at 1.
  apply (@trim_framed [] c w []); try reflexivity.
  - apply word_not_space. now apply forallb_head in H.
  - intros m' d E. apply word_not_space. subst w.
    change (c :: m' ++ [d]) with ((c :: m') ++ [d]) in H.
    rewrite forallb_app in H. apply andb_true_iff in H as [_ H].
    now apply forallb_head in H.
Qed.

Lemma firstn_app_diff {A} (a b : list A) :
  firstn (length (a ++ b) - length b) (a ++ b) = a.
Proof.
  rewrite length_app. replace (length a + length b - length b) with (length a) by lia.
  rewrite firstn_app, Nat.sub_diag, firstn_all. simpl. apply app_nil_r.
Qed.

Lemma filter_all {A} (l : list A) : filter (fun _ => true) l = l.
Proof. induction l; simpl; congruence. Qed.

End JsFacts.

(* ================================================================== *)
(** ** The matcher: how quantified character classes behave *)
(* ================================================================== *)

Module ReFacts.
Import JsFacts.

Lemma clear_nil p r cs : clear [] (mkState p r cs) = mkState p r cs.
Proof. unfold clear. simpl. now rewrite filter_all. Qed.

Lemma lt_cons {A} (c : A) l : (length l <? length (c :: l)) = true.
Proof. apply Nat.ltb_lt. simpl. lia. Qed.

Lemma m_star g r k s :
  m (Star g r) k s = star_loop (m r) g (groups_of r) k (length (rest s)) s.
Proof. reflexivity. Qed.

(** One iteration of a class inside a loop. *)
Lemma class_step p (K : cont) pv c tl cs :
  p c = true ->
  m (Class p) (progress (mkState pv (c :: tl) cs) K)
    (clear [] (mkState pv (c :: tl) cs))
  = K (mkState (Some c) tl cs).
Proof.
  intros Hc. rewrite clear_nil. simpl. rewrite Hc.
  unfold progress, advance. cbn [rest caps]. now rewrite lt_cons.
Qed.

Lemma class_stop p (K : cont) pv t cs :
  match t with [] => true | c :: _ => negb (p c) end = true ->
  m (Class p) K (clear [] (mkState pv t cs)) = None.
Proof.
  intros Ht. rewrite clear_nil. simpl. destruct t as [|c t]; [reflexivity|].
  apply negb_true_iff in Ht. now rewrite Ht.
Qed.

(** A greedy [p*] reads the longest run of [p] first: when the
    continuation accepts there, that is the match. *)
Lemma star_class_greedy p k w : forall t pv cs res,
  forallb p w = true ->
  match t with [] => true | c :: _ => negb (p c) end = true ->
  k (mkState (lastp pv w) t cs) = Some res ->
  m (Star true (Class p)) k (mkState pv (w ++ t) cs) = Some res.
Proof.
  induction w as [|c w IH]; intros t pv cs res Hw Ht Hk;
    rewrite m_star; cbn [rest groups_of].
  - cbn [app lastp] in *. destruct (length t); cbn [star_loop]; [assumption|].
    rewrite class_stop by assumption. assumption.
  - simpl in Hw. apply andb_true_iff in Hw as [Hc Hw].
    simpl app. simpl length. cbn [star_loop].
    rewrite class_step by assumption.
    specialize (IH t (Some c) cs res Hw Ht Hk). rewrite m_star in IH.
    cbn [rest groups_of] in IH. rewrite IH. reflexivity.
Qed.

Lemma plus_class_greedy p k c w t pv cs res :
  forallb p (c :: w) = true ->
  match t with [] => true | c :: _ => negb (p c) end = true ->
  k (mkState (lastp pv (c :: w)) t cs) = Some res ->
  m (Plus true (Class p)) k (mkState pv (c :: w ++ t) cs) = Some res.
Proof.
  intros Hw Ht Hk. unfold Plus. simpl in Hw.
  apply andb_true_iff in Hw as [Hc Hw].
  change (m (Class p) (m (Star true (Class p)) k)
            (mkState pv (c :: w ++ t) cs) = Some res).
  cbn [m rest]. rewrite Hc. unfold advance. cbn [caps].
  now apply star_class_greedy.
Qed.

Lemma plus_class_greedy_end p k c w pv cs res :
  forallb p (c :: w) = true ->
  k (mkState (lastp pv (c :: w)) [] cs) = Some res ->
  m (Plus true (Class p)) k (mkState pv (c :: w) cs) = Some res.
Proof.
  intros Hw Hk. rewrite <- (app_nil_r w) at 1.
  now apply plus_class_greedy.
Qed.

Lemma m_seq r1 r2 k s : m (Seq r1 r2) k s = m r1 (m r2 k) s.
Proof. reflexivity. Qed.

Lemma m_group n r k s :
  m (Group n r) k s = m r (fun s' => k (set_cap n (rest s) s')) s.
Proof. reflexivity. Qed.

Lemma m_opt_taken r k s res :
  m r (progress s k) (clear (groups_of r) s) = Some res ->
  m (Opt true r) k s = Some res.
Proof. intros H. cbn [m]. now rewrite H. Qed.

Lemma m_opt_skipped r k s :
  m r (progress s k) (clear (groups_of r) s) = None ->
  m (Opt true r) k s = k s.
Proof. intros H. cbn [m]. now rewrite H. Qed.

(** A lazy [p*?] stops at the first position the continuation accepts. *)
Lemma star_class_lazy p k w : forall t pv cs res,
  forallb p w = true ->
  (forall w1 c w2, w = w1 ++ c :: w2 ->
     k (mkState (lastp pv w1) (c :: w2 ++ t) cs) = None) ->
  k (mkState (lastp pv w) t cs) = Some res ->
  m (Star false (Class p)) k (mkState pv (w ++ t) cs) = Some res.
Proof.
  induction w as [|c w IH]; intros t pv cs res Hw Hno Hk;
    rewrite m_star; cbn [rest groups_of].
  - cbn [app lastp] in *. destruct (length t); cbn [star_loop]; [assumption|].
    now rewrite Hk.
  - simpl in Hw. apply andb_true_iff in Hw as [Hc Hw].
    simpl app. simpl length. cbn [star_loop].
    pose proof (Hno [] c w eq_refl) as H0. cbn [lastp] in H0.
    rewrite H0. cbn [orelse].
    rewrite class_step by assumption.
    assert (IH' : m (Star false (Class p)) k (mkState (Some c) (w ++ t) cs)
                  = Some res).
    { apply IH; [assumption| |assumption].
      intros w1 c' w2 E. apply (Hno (c :: w1) c' w2). now rewrite E. }
    rewrite m_star in IH'. exact IH'.
Qed.

(** Whatever follows, [p*] before a continuation that always accepts is
    accepted, and the captures seen by the continuation are unchanged. *)
Lemma star_class_total p g k (P : state -> Prop) cs : forall fuel s,
  caps s = cs ->
  (forall s', caps s' = cs -> exists res, k s' = Some res /\ P res) ->
  exists res, star_loop (m (Class p)) g [] k fuel s = Some res /\ P res.
Proof.
  induction fuel as [|fuel IH]; intros s Hs Hk; [now apply Hk|].
  cbn [star_loop].
  destruct (Hk s Hs) as [res0 [E0 P0]].
  assert (A : m (Class p) (progress s (star_loop (m (Class p)) g [] k fuel))
                (clear [] s) = None \/
              exists res, m (Class p) (progress s (star_loop (m (Class p)) g [] k fuel))
                (clear [] s) = Some res /\ P res).
  { destruct s as [pv r cs']. rewrite clear_nil. cbn [m rest].
    destruct r as [|d tl]; [now left|].
    destruct (p d); [|now left].
    unfold progress, advance. cbn [rest caps]. rewrite lt_cons.
    right. apply IH; [exact Hs|exact Hk]. }
  destruct g.
  - destruct A as [A|[res [A PA]]]; rewrite A; cbn [orelse]; eauto.
  - rewrite E0. cbn [orelse]. eauto.
Qed.

Lemma star_class_accepts p g k (P : state -> Prop) s :
  (forall s', caps s' = caps s -> exists res, k s' = Some res /\ P res) ->
  exists res, m (Star g (Class p)) k s = Some res /\ P res.
Proof.
  intros H. rewrite m_star. cbn [groups_of].
  apply star_class_total with (cs := caps s); [reflexivity|exact H].
Qed.

(** The matcher is sound for the declarative reading. *)
Lemma m_sound r : forall k s res,
  m r k s = Some res -> exists s', run r s s' /\ k s' = Some res.
Proof.
  induction r as [c|p|r1 IH1 r2 IH2|g r IH|g r IH|n r IH| | |];
    intros k s res H; cbn [m] in H.
  - destruct (rest s) as [|d tl] eqn:E; [discriminate|].
    destruct (N.eqb_spec d c); [subst d|discriminate].
    eexists; split; [apply run_chr; exact E|exact H].
  - destruct (rest s) as [|d tl] eqn:E; [discriminate|].
    destruct (p d) eqn:Hp; [|discriminate].
    eexists; split; [apply run_class; [exact E|exact Hp]|exact H].
  - apply IH1 in H as [s1 [R1 H]]. apply IH2 in H as [s2 [R2 H]].
    exists s2; split; [now apply run_seq with s1|exact H].
  - revert H. generalize (length (rest s)) as fuel. intros fuel. revert s.
    induction fuel as [|fuel IHf]; intros s H; cbn [star_loop] in H.
    + exists s; split; [apply run_star_nil|exact H].
    + assert (A : m r (progress s (star_loop (m r) g (groups_of r) k fuel))
                    (clear (groups_of r) s) = Some res \/ k s = Some res).
      { destruct g;
          [destruct (m r _ (clear (groups_of r) s)); cbn [orelse] in H; auto
          |destruct (k s); cbn [orelse] in H; auto]. }
      destruct A as [A|A].
      * apply IH in A as [s1 [R1 A]]. unfold progress in A.
        destruct (length (rest s1) <? length (rest s)); [|discriminate].
        apply IHf in A as [s2 [R2 A]].
        exists s2; split; [now apply run_star_cons with s1|exact A].
      * exists s; split; [apply run_star_nil|exact A].
  - assert (A : m r (progress s k) (clear (groups_of r) s) = Some res
                \/ k s = Some res).
    { destruct g;
        [destruct (m r _ (clear (groups_of r) s)); cbn [orelse] in H; auto
        |destruct (k s); cbn [orelse] in H; auto]. }
    destruct A as [A|A].
    + apply IH in A as [s1 [R1 A]]. unfold progress in A.
      destruct (length (rest s1) <? length (rest s)); [|discriminate].
      exists s1; split; [now apply run_opt_some|exact A].
    + exists s; split; [apply run_opt_none|exact A].
  - apply IH in H as [s1 [R1 H]].
    eexists; split; [apply run_group; exact R1|exact H].
  - destruct (rest s) eqn:E; [|discriminate].
    exists s; split; [now apply run_eol|exact H].
  - destruct (xorb _ _) eqn:E; [|discriminate].
    exists s; split; [now apply run_wordb|exact H].
  - exists s; split; [apply run_eps|exact H].
Qed.

Lemma set_cap_app n a b p cs :
  set_cap n (a ++ b) (mkState p b cs) = mkState p b ((n, a) :: cs).
Proof. unfold set_cap. cbn [rest caps prev]. now rewrite firstn_app_diff. Qed.

Lemma set_cap_cons n c a b p cs :
  set_cap n (c :: a ++ b) (mkState p b cs) = mkState p b ((n, c :: a) :: cs).
Proof. apply (set_cap_app n (c :: a)). Qed.

Lemma set_cap_all n a p cs :
  set_cap n a (mkState p [] cs) = mkState p [] ((n, a) :: cs).
Proof.
  unfold set_cap. cbn [rest caps prev length].
  now rewrite Nat.sub_0_r, firstn_all.
Qed.

Lemma lastp_app a : forall p b, lastp p (a ++ b) = lastp (lastp p a) b.
Proof. induction a as [|c a IH]; intros p b; simpl; auto. Qed.

(** Positions where the pattern cannot start are skipped by the search. *)
Lemma search_skip r lead : forall p x,
  (forall l1 c l2, lead = l1 ++ c :: l2 ->
     m (Group 0 r) Some (mkState (lastp p l1) (c :: l2 ++ x) []) = None) ->
  search r p (lead ++ x) = search r (lastp p lead) x.
Proof.
  induction lead as [|c lead IH]; intros p x H; [reflexivity|].
  simpl app. cbn [search].
  pose proof (H [] c lead eq_refl) as H0. cbn [lastp app] in H0. rewrite H0.
  cbn [lastp]. apply IH. intros l1 c' l2 E.
  apply (H (c :: l1) c' l2). now rewrite E.
Qed.

Lemma search_here r p x s :
  m (Group 0 r) Some (mkState p x []) = Some s ->
  search r p x = Some (caps s).
Proof. intros H. destruct x; cbn [search]; now rewrite H. Qed.

(** A successful search is a run of the pattern from some position. *)
Lemma search_sound r : forall input p cs,
  search r p input = Some cs ->
  exists pre post s',
    input = pre ++ post /\
    run r (mkState (lastp p pre) post []) s' /\
    cs = (0, firstn (length post - length (rest s')) post) :: caps s'.
Proof.
  induction input as [|c input IH]; intros p cs H; cbn [search] in H.
  - destruct (m (Group 0 r) Some (mkState p [] [])) eqn:E; [|discriminate].
    inversion H; subst; clear H. cbn [m] in E.
    apply m_sound in E as [s' [R E]]. inversion E; subst; clear E.
    exists [], [], s'. repeat split; assumption.
  - destruct (m (Group 0 r) Some (mkState p (c :: input) [])) eqn:E.
    + inversion H; subst; clear H. cbn [m] in E.
      apply m_sound in E as [s' [R E]]. inversion E; subst; clear E.
      exists [], (c :: input), s'. repeat split; assumption.
    + apply IH in H as [pre [post [s' [E1 [R E2]]]]].
      exists (c :: pre), post, s'. subst. repeat split; assumption.
Qed.

End ReFacts.

(* ================================================================== *)
(** ** The canonical-form pattern on one-word and two-word fragments *)
(* ================================================================== *)

Module CanonFacts.
Import JsFacts ReFacts.

(** At the end of the input the array suffix is absent and [$] holds. *)
Lemma canon_tail (K : cont) p cs :
  m (Opt true (Group 3 (Chr (ch "[") ;; Chr (ch "]"))) ;; Eol) K
    (mkState p [] cs) = K (mkState p [] cs).
Proof. reflexivity. Qed.

(** [type name]: the first group is the type. *)
Lemma canon_two_words c1 w1 cs ws c2 w2 :
  forallb is_word (c1 :: w1) = true ->
  forallb is_space (cs :: ws) = true ->
  forallb is_word (c2 :: w2) = true ->
  let input := (c1 :: w1) ++ (cs :: ws) ++ (c2 :: w2) in
  jsmatch canonRe input
  = Some [(0, input); (2, (cs :: ws) ++ (c2 :: w2)); (1, c1 :: w1)].
Proof.
  intros H1 Hs H2 input. unfold jsmatch.
  apply search_here with
    (s := mkState (lastp None input) []
            [(0, input); (2, (cs :: ws) ++ (c2 :: w2)); (1, c1 :: w1)]).
  unfold canonRe, w_plus, s_plus, input.
  rewrite m_group, m_seq, m_group. cbn [rest app].
  apply plus_class_greedy; [assumption| |].
  { apply space_not_word. now apply forallb_head in Hs. }
  rewrite set_cap_cons, m_seq. apply m_opt_taken.
  cbn [groups_of Plus app]. 
  change (clear [2] (mkState (lastp None (c1 :: w1)) (cs :: ws ++ c2 :: w2)
                       [(1, c1 :: w1)]))
    with (mkState (lastp None (c1 :: w1)) (cs :: ws ++ c2 :: w2) [(1, c1 :: w1)]).
  rewrite m_group, m_seq. cbn [rest].
  apply plus_class_greedy; [assumption| |].
  { apply word_not_space_b. now apply forallb_head in H2. }
  apply plus_class_greedy_end; [assumption|].
  rewrite set_cap_all. unfold progress. cbn [rest].
  change (length (@nil char) <? length (cs :: ws ++ c2 :: w2)) with true.
  cbv iota. rewrite canon_tail, set_cap_all.
  change (c1 :: w1 ++ cs :: ws ++ c2 :: w2)
    with ((c1 :: w1) ++ (cs :: ws) ++ c2 :: w2).
  now rewrite !lastp_app.
Qed.

(** [type] alone. *)
Lemma canon_one_word c1 w1 :
  forallb is_word (c1 :: w1) = true ->
  jsmatch canonRe (c1 :: w1) = Some [(0, c1 :: w1); (1, c1 :: w1)].
Proof.
  intros H1. unfold jsmatch.
  apply search_here with
    (s := mkState (lastp None (c1 :: w1)) [] [(0, c1 :: w1); (1, c1 :: w1)]).
  unfold canonRe, w_plus.
  rewrite m_group, m_seq, m_group. cbn [rest].
  apply plus_class_greedy_end; [assumption|].
  rewrite set_cap_all, m_seq, m_opt_skipped by reflexivity.
  now rewrite canon_tail, set_cap_all.
Qed.
End CanonFacts.

(* ================================================================== *)
(** ** The line patterns on well-formed lines *)
(* ================================================================== *)

Module LineFacts.
Import JsFacts ReFacts.

Lemma lit_match l : forall (k : cont) p x cs,
  m (Lit l) k (mkState p (l ++ x) cs) = k (mkState (lastp p l) x cs).
Proof.
  induction l as [|c l IH]; intros k p x cs; [reflexivity|].
  destruct l as [|c' l].
  - cbn [Lit m rest app]. now rewrite N.eqb_refl.
  - change (Lit (c :: c' :: l)) with (Seq (Chr c) (Lit (c' :: l))).
    rewrite m_seq. cbn [m rest app]. rewrite N.eqb_refl.
    unfold advance. cbn [caps lastp]. apply (IH k (Some c) x cs).
Qed.

Lemma lit_mismatch a l (k : cont) p c x cs :
  (c =? a)%N = false ->
  m (Lit (a :: l)) k (mkState p (c :: x) cs) = None.
Proof.
  intros H. destruct l; cbn [Lit m rest]; now rewrite H.
Qed.

Lemma chr_match a (k : cont) p x cs :
  m (Chr a) k (mkState p (a :: x) cs) = k (mkState (Some a) x cs).
Proof. cbn [m rest]. now rewrite N.eqb_refl. Qed.

Lemma chr_mismatch a (k : cont) p c x cs :
  (c =? a)%N = false -> m (Chr a) k (mkState p (c :: x) cs) = None.
Proof. intros H. cbn [m rest]. now rewrite H. Qed.

Lemma forallb_split {A} (f : A -> bool) l1 c l2 :
  forallb f (l1 ++ c :: l2) = true -> f c = true.
Proof.
  rewrite forallb_app. simpl. intros H.
  apply andb_true_iff in H as [_ H]. now apply andb_true_iff in H as [H _].
Qed.

Lemma forallb_weaken {A} (f g : A -> bool) l :
  (forall a, f a = true -> g a = true) ->
  forallb f l = true -> forallb g l = true.
Proof.
  intros Hfg. rewrite !forallb_forall. intros H x Hx. auto.
Qed.

Lemma class_neq (p : char -> bool) c a :
  p c = true -> p a = false -> (c =? a)%N = false.
Proof.
  intros Hc Ha. destruct (N.eqb_spec c a); [subst; congruence|reflexivity].
Qed.

Lemma other_than_dot a l :
  forallb (other_than a) l = true -> forallb is_dot l = true.
Proof.
  apply forallb_weaken. unfold other_than. intros c H.
  now apply andb_true_iff in H.
Qed.

Lemma other_than_neq a l1 c l2 :
  forallb (other_than a) (l1 ++ c :: l2) = true -> (c =? a)%N = false.
Proof.
  intros H. apply forallb_split in H. unfold other_than in H.
  apply andb_true_iff in H as [_ H]. now apply negb_true_iff in H.
Qed.

(** [require(cond, "msg");] after indentation: the groups are the
    condition up to the separating comma and the text between the quotes. *)
Lemma require_shape lead cond ws msg tail :
  forallb is_space lead = true ->
  forallb (other_than (ch ",")) cond = true ->
  forallb is_space ws = true ->
  forallb (other_than dquote) msg = true ->
  exists whole,
    jsmatch requireRe
      (lead ++ js "require(" ++ cond ++ ch "," :: ws ++ dquote :: msg
            ++ dquote :: js ");" ++ tail)
    = Some [(0, whole); (2, msg); (1, cond)].
Proof.
  intros Hl Hc Hw Hm. unfold jsmatch.
  rewrite search_skip.
  2:{ intros l1 c l2 E.
      assert (Hs : is_space c = true)
        by (subst lead; eapply forallb_split; eauto).
      unfold requireRe. rewrite m_group, m_seq.
      change (js "require(") with (114%N :: js "equire(").
      apply lit_mismatch. now apply (class_neq is_space). }
  set (p := lastp None lead).
  set (body := js "require(" ++ cond ++ ch "," :: ws ++ dquote :: msg
                  ++ dquote :: js ");" ++ tail).
  destruct (star_class_accepts is_space true
              (fun s' => Some (set_cap 0 body s'))
              (fun res => exists whole,
                          caps res = [(0, whole); (2, msg); (1, cond)])
              (mkState (Some (ch ";")) tail [(2, msg); (1, cond)]))
    as [res [E [whole P]]].
  { intros s' Hs'. eexists; split; [reflexivity|].
    unfold set_cap; cbn [caps] in *. rewrite Hs'. eexists; reflexivity. }
  exists whole. erewrite search_here; [rewrite P; reflexivity|].
  unfold requireRe, body. rewrite m_group, m_seq, lit_match, m_seq, m_group.
  cbn [rest]. unfold dot_lazy at 1.
  apply star_class_lazy; [now apply other_than_dot with (ch ",")| |].
  { intros w1 c w2 Ew. unfold set_cap. cbn [rest prev caps].
    rewrite m_seq. apply chr_mismatch. subst cond.
    now apply other_than_neq in Hc. }
  rewrite set_cap_app, m_seq, chr_match, m_seq. unfold s_star at 1.
  apply star_class_greedy; [assumption|reflexivity|].
  rewrite m_seq, chr_match, m_seq, m_group. cbn [rest]. unfold dot_lazy.
  apply star_class_lazy; [now apply other_than_dot with dquote| |].
  { intros w1 c w2 Ew. unfold set_cap. cbn [rest prev caps].
    rewrite m_seq. apply chr_mismatch. subst msg.
    now apply other_than_neq in Hm. }
  rewrite set_cap_app, m_seq, chr_match, m_seq, lit_match.
  exact E.
Qed.

(** [function name(params)] after indentation: the groups are the name and
    the text up to the first closing parenthesis. *)
Lemma function_shape lead s1 ws1 n1 name ws2 params tail :
  forallb is_space lead = true ->
  forallb is_space (s1 :: ws1) = true ->
  forallb is_word (n1 :: name) = true ->
  forallb is_space ws2 = true ->
  forallb (other_than (ch ")")) params = true ->
  exists whole,
    jsmatch functionRe
      (lead ++ js "function" ++ (s1 :: ws1) ++ (n1 :: name) ++ ws2
            ++ ch "(" :: params ++ ch ")" :: tail)
    = Some [(0, whole); (2, params); (1, n1 :: name)].
Proof.
  intros Hl H1 Hn H2 Hp. unfold jsmatch.
  rewrite search_skip.
  2:{ intros l1 c l2 E.
      assert (Hs : is_space c = true)
        by (subst lead; eapply forallb_split; eauto).
      unfold functionRe. rewrite m_group, m_seq.
      change (js "function") with (102%N :: js "unction").
      apply lit_mismatch. now apply (class_neq is_space). }
  set (p := lastp None lead).
  set (body := js "function" ++ (s1 :: ws1) ++ (n1 :: name) ++ ws2
                  ++ ch "(" :: params ++ ch ")" :: tail).
  destruct (star_class_accepts is_space true
              (fun s' => Some (set_cap 0 body s'))
              (fun res => exists whole,
                          caps res = [(0, whole); (2, params); (1, n1 :: name)])
              (mkState (Some (ch ")")) tail [(2, params); (1, n1 :: name)]))
    as [res [E [whole P]]].
  { intros s' Hs'. eexists; split; [reflexivity|].
    unfold set_cap; cbn [caps] in *. rewrite Hs'. eexists; reflexivity. }
  exists whole. erewrite search_here; [rewrite P; reflexivity|].
  unfold functionRe, body. rewrite m_group, m_seq, lit_match, m_seq.
  cbn [rest app]. unfold s_plus.
  apply plus_class_greedy; [assumption| |].
  { apply word_not_space_b. now apply forallb_head in Hn. }
  rewrite m_seq, m_group. cbn [rest]. unfold w_plus.
  apply plus_class_greedy; [assumption| |].
  { destruct ws2 as [|s2 ws2]; [reflexivity|].
    apply space_not_word. now apply forallb_head in H2. }
  rewrite set_cap_cons, m_seq. unfold s_star at 1.
  apply star_class_greedy; [assumption|reflexivity|].
  rewrite m_seq, chr_match, m_seq, m_group. cbn [rest]. unfold dot_lazy.
  apply star_class_lazy; [now apply other_than_dot with (ch ")")| |].
  { intros w1 c w2 Ew. unfold set_cap. cbn [rest prev caps].
    rewrite m_seq. apply chr_mismatch. subst params.
    now apply other_than_neq in Hp. }
  rewrite set_cap_app, m_seq, chr_match.
  exact E.
Qed.

End LineFacts.

(* ================================================================== *)
(** ** What a match of the assignment pattern captures *)
(* ================================================================== *)

Module RunFacts.
Import JsFacts ReFacts.

Lemma run_seq_inv r1 r2 s s2 :
  run (Seq r1 r2) s s2 -> exists s1, run r1 s s1 /\ run r2 s1 s2.
Proof. inversion 1; subst; eauto. Qed.

Lemma run_group_inv n r s s' :
  run (Group n r) s s' -> exists s1, run r s s1 /\ s' = set_cap n (rest s) s1.
Proof. inversion 1; subst; eauto. Qed.

Lemma run_wordb_inv s s' : run WordB s s' -> s' = s.
Proof. inversion 1; subst; reflexivity. Qed.

Lemma run_chr_inv c s s' :
  run (Chr c) s s' -> rest s = c :: rest s' /\ caps s' = caps s.
Proof. inversion 1; subst; split; [assumption|reflexivity]. Qed.

Lemma run_class_inv p s s' :
  run (Class p) s s' ->
  exists c, rest s = c :: rest s' /\ p c = true /\ caps s' = caps s.
Proof. inversion 1; subst; eauto. Qed.

Lemma clear_nil_caps s : caps (clear [] s) = caps s.
Proof. destruct s. now rewrite clear_nil. Qed.

Lemma run_star_class_inv g p s s' :
  run (Star g (Class p)) s s' ->
  exists w, rest s = w ++ rest s' /\ forallb p w = true /\ caps s' = caps s.
Proof.
  remember (Star g (Class p)) as r eqn:Er. intros H.
  induction H; try discriminate.
  - exists []. repeat split.
  - inversion Er; subst. clear IHrun1. specialize (IHrun2 eq_refl).
    destruct IHrun2 as [w [E [Hw Hc]]].
    apply run_class_inv in H as [c [E1 [Hp Hc1]]].
    cbn [groups_of] in *. exists (c :: w). repeat split.
    + destruct s as [pv rs cs]. rewrite clear_nil in E1. cbn [rest] in *.
      now rewrite E1, E.
    + simpl. now rewrite Hp, Hw.
    + now rewrite Hc, Hc1, clear_nil_caps.
Qed.

Lemma run_plus_class_inv g p s s' :
  run (Plus g (Class p)) s s' ->
  exists c w, rest s = (c :: w) ++ rest s' /\ forallb p (c :: w) = true
              /\ caps s' = caps s.
Proof.
  unfold Plus. intros H. apply run_seq_inv in H as [s1 [H1 H2]].
  apply run_class_inv in H1 as [c [E1 [Hp Hc1]]].
  apply run_star_class_inv in H2 as [w [E2 [Hw Hc2]]].
  exists c, w. repeat split.
  - simpl. now rewrite E1, E2.
  - simpl. now rewrite Hp, Hw.
  - congruence.
Qed.

Lemma set_cap_rest n from s : rest (set_cap n from s) = rest s.
Proof. reflexivity. Qed.

Lemma set_cap_caps n a s :
  caps (set_cap n (a ++ rest s) s) = (n, a) :: caps s.
Proof. unfold set_cap. cbn [caps]. now rewrite firstn_app_diff. Qed.

(** A match of the assignment pattern captures two non-empty words. *)
Lemma var_captures line mt :
  jsmatch varRe line = Some mt ->
  exists g0 g3 c1 w1 c2 w2,
    mt = [(0, g0); (3, g3); (2, c2 :: w2); (1, c1 :: w1)]
    /\ forallb is_word (c1 :: w1) = true
    /\ forallb is_word (c2 :: w2) = true.
Proof.
  unfold jsmatch. intros H.
  apply search_sound in H as [pre [post [s' [_ [R E]]]]].
  unfold varRe, w_plus, s_plus, s_star, dot_star in R.
  apply run_seq_inv in R as [sa [Ra R]]. apply run_wordb_inv in Ra. subst sa.
  apply run_seq_inv in R as [sb [Rb R]].
  apply run_group_inv in Rb as [sb' [Rb Eb]].
  apply run_plus_class_inv in Rb as [c1 [w1 [E1 [H1 C1]]]].
  apply run_seq_inv in R as [sc [Rc R]].
  apply run_plus_class_inv in Rc as [cs [ws [Es [Hs Cs]]]].
  apply run_seq_inv in R as [sd [Rd R]].
  apply run_group_inv in Rd as [sd' [Rd Ed]].
  apply run_plus_class_inv in Rd as [c2 [w2 [E2 [H2 C2]]]].
  apply run_seq_inv in R as [se [Re R]].
  apply run_star_class_inv in Re as [ws' [Es' [Hs' Cs']]].
  apply run_seq_inv in R as [sf [Rf R]].
  apply run_chr_inv in Rf as [Ef Cf].
  apply run_seq_inv in R as [sg [Rg R]].
  apply run_star_class_inv in Rg as [ws'' [Es'' [Hs'' Cs'']]].
  apply run_seq_inv in R as [sh [Rh R]].
  apply run_group_inv in Rh as [sh' [Rh Eh]].
  apply run_star_class_inv in Rh as [g3 [E3 [H3 C3]]].
  apply run_chr_inv in R as [Ei Ci].
  exists (firstn (length post - length (rest s')) post), g3, c1, w1, c2, w2.
  split; [|split; assumption].
  rewrite E. f_equal. rewrite Ci, Eh, E3, set_cap_caps, C3, Cs'', Cf, Cs'.
  rewrite Ed, E2, set_cap_caps, C2, Cs, Eb. cbn [rest] in E1.
  cbn [rest]. rewrite E1, set_cap_caps, C1. reflexivity.
Qed.

Lemma run_lit_inv l : forall s s',
  run (Lit l) s s' -> rest s = l ++ rest s' /\ caps s' = caps s.
Proof.
  induction l as [|c l IH]; intros s s' H.
  - inversion H; subst. now split.
  - destruct l as [|c' l].
    + apply run_chr_inv in H. exact H.
    + change (Lit (c :: c' :: l)) with (Seq (Chr c) (Lit (c' :: l))) in H.
      apply run_seq_inv in H as [s1 [H1 H2]].
      apply run_chr_inv in H1 as [E1 C1]. apply IH in H2 as [E2 C2].
      split; [|congruence]. rewrite E1, E2. reflexivity.
Qed.

(** A match of the function pattern captures a non-empty word and the
    parameter text. *)
Lemma function_captures l mt :
  jsmatch functionRe l = Some mt ->
  exists g0 c w params,
    mt = [(0, g0); (2, params); (1, c :: w)]
    /\ forallb is_word (c :: w) = true.
Proof.
  unfold jsmatch. intros H.
  apply search_sound in H as [pre [post [s' [_ [R E]]]]].
  unfold functionRe, w_plus, s_plus, s_star, dot_lazy in R.
  apply run_seq_inv in R as [sa [Ra R]]. apply run_lit_inv in Ra as [Ea Ca].
  apply run_seq_inv in R as [sb [Rb R]].
  apply run_plus_class_inv in Rb as [cs [ws [Es [Hs Cs]]]].
  apply run_seq_inv in R as [sc [Rc R]].
  apply run_group_inv in Rc as [sc' [Rc Ec]].
  apply run_plus_class_inv in Rc as [c [w [E1 [H1 C1]]]].
  apply run_seq_inv in R as [sd [Rd R]].
  apply run_star_class_inv in Rd as [ws' [Es' [Hs' Cs']]].
  apply run_seq_inv in R as [se [Re R]].
  apply run_chr_inv in Re as [Ee Ce].
  apply run_seq_inv in R as [sf [Rf R]].
  apply run_group_inv in Rf as [sf' [Rf Ef]].
  apply run_star_class_inv in Rf as [params [E2 [H2 C2]]].
  apply run_seq_inv in R as [sg [Rg R]].
  apply run_chr_inv in Rg as [Eg Cg].
  apply run_star_class_inv in R as [ws'' [Es'' [Hs'' Cs'']]].
  exists (firstn (length post - length (rest s')) post), c, w, params.
  split; [|assumption].
  rewrite E. f_equal. rewrite Cs'', Cg, Ef, E2, set_cap_caps, C2, Ce, Cs'.
  rewrite Ec, E1, set_cap_caps, C1, Cs, Ca. reflexivity.
Qed.

(** A match of the require pattern captures the condition and the
    message. *)
Lemma require_captures l mt :
  jsmatch requireRe l = Some mt ->
  exists g0 condition message,
    mt = [(0, g0); (2, message); (1, condition)].
Proof.
  unfold jsmatch. intros H.
  apply search_sound in H as [pre [post [s' [_ [R E]]]]].
  unfold requireRe, s_star, dot_lazy in R.
  apply run_seq_inv in R as [sa [Ra R]]. apply run_lit_inv in Ra as [Ea Ca].
  apply run_seq_inv in R as [sb [Rb R]].
  apply run_group_inv in Rb as [sb' [Rb Eb]].
  apply run_star_class_inv in Rb as [condition [E1 [H1 C1]]].
  apply run_seq_inv in R as [sc [Rc R]].
  apply run_chr_inv in Rc as [Ec Cc].
  apply run_seq_inv in R as [sd [Rd R]].
  apply run_star_class_inv in Rd as [ws [Es [Hs Cs]]].
  apply run_seq_inv in R as [se [Re R]].
  apply run_chr_inv in Re as [Ee Ce].
  apply run_seq_inv in R as [sf [Rf R]].
  apply run_group_inv in Rf as [sf' [Rf Ef]].
  apply run_star_class_inv in Rf as [message [E2 [H2 C2]]].
  apply run_seq_inv in R as [sg [Rg R]].
  apply run_chr_inv in Rg as [Eg Cg].
  apply run_seq_inv in R as [sh [Rh R]].
  apply run_lit_inv in Rh as [Eh Ch].
  apply run_star_class_inv in R as [ws' [Es' [Hs' Cs']]].
  exists (firstn (length post - length (rest s')) post), condition, message.
  rewrite E. f_equal. rewrite Cs', Ch, Cg, Ef, E2, set_cap_caps, C2, Ce, Cs, Cc.
  rewrite Eb, E1, set_cap_caps, C1, Ca. reflexivity.
Qed.

End RunFacts.

(* ================================================================== *)
(** ** The first script, line by line *)
(* ================================================================== *)

Module Script1Facts.
Import Script1.

Section WithHash.
Variable keccak256 : jsstring -> jsstring.

Lemma functions_onLine line index st :
  functions (onLine keccak256 line index st)
  = functions st ++
    match jsmatch functionRe line with
    | Some mt =>
        let text := getCanonicalForm (cap 1 mt)
                      (splitParams (group_or_empty 2 mt)) in
        [mkEntry (index + 1) text (getKeccak256 keccak256 text)]
    | None => []
    end.
Proof.
  unfold Script1.onLine, matchRequire, matchError, matchFunction.
  destruct (jsmatch requireRe line), (jsmatch errorRe line),
    (jsmatch functionRe line); cbn [functions]; now rewrite ?app_nil_r.
Qed.

Lemma errors_onLine line index st :
  errors (onLine keccak256 line index st)
  = errors st ++
    match jsmatch errorRe line with
    | Some mt =>
        let text := getCanonicalForm (cap 1 mt)
                      (splitParams (group_or_empty 2 mt)) in
        [mkEntry (index + 1) text (getKeccak256 keccak256 text)]
    | None => []
    end.
Proof.
  unfold Script1.onLine, matchRequire, matchError, matchFunction.
  destruct (jsmatch requireRe line), (jsmatch errorRe line),
    (jsmatch functionRe line); cbn [errors]; now rewrite ?app_nil_r.
Qed.

Lemma requires_onLine line index st :
  requires (onLine keccak256 line index st)
  = requires st ++
    match jsmatch requireRe line with
    | Some mt =>
        [mkEntry (index + 1)
           (js "require(" ++ cap 1 mt ++ js ", " ++ [dquote] ++ cap 2 mt
               ++ [dquote] ++ js ")")
           (getKeccak256 keccak256 (cap 2 mt))]
    | None => []
    end.
Proof.
  unfold Script1.onLine, matchRequire, matchError, matchFunction.
  destruct (jsmatch requireRe line), (jsmatch errorRe line),
    (jsmatch functionRe line); cbn [requires]; now rewrite ?app_nil_r.
Qed.

(** Line numbers pushed by [forEach]: one per line accepted by the rule,
    counted from [index + 1]. *)
Lemma forEach_lines (proj : sigs -> list entry) (re : regex) :
  (forall l index st,
      map line (proj (onLine keccak256 l index st))
      = map line (proj st) ++ (if matches re l then [S index] else [])) ->
  forall lines index st,
    map line (proj (forEach (onLine keccak256) lines index st))
    = map line (proj st) ++ map S (positions (matches re) lines index).
Proof.
  intros H. induction lines as [|l lines IH]; intros index st.
  - simpl. now rewrite app_nil_r.
  - cbn [forEach positions]. rewrite IH, H.
    destruct (matches re l); cbn [map app]; now rewrite <- app_assoc.
Qed.

End WithHash.
End Script1Facts.

(* ================================================================== *)
(** ** The hashing primitive: output format *)
(* ================================================================== *)

Module KeccakFacts.
Import Keccak.

Lemma hex_digit_lower d : (d < 16)%N -> is_lower_hex (hex_digit d) = true.
Proof.
  intros H. unfold hex_digit, is_lower_hex, in_range.
  destruct (N.ltb_spec d 10); apply orb_true_iff; [left|right];
    apply andb_true_iff; rewrite !N.leb_le; lia.
Qed.

Lemma land15 x : (N.land x 15 < 16)%N.
Proof.
  change 15%N with (N.ones 4). rewrite N.land_ones.
  apply N.mod_lt. discriminate.
Qed.

Lemma hex2_lower bs : forallb is_lower_hex (flat_map hex2 bs) = true.
Proof.
  induction bs as [|b bs IH]; [reflexivity|].
  cbn [flat_map hex2 app forallb].
  now rewrite !hex_digit_lower, IH by apply land15.
Qed.

Lemma hex2_length bs : length (flat_map hex2 bs) = 2 * length bs.
Proof. induction bs as [|b bs IH]; [reflexivity|]. cbn [flat_map hex2 app length]. lia. Qed.

Lemma digest_length msg : length (keccak256_bytes msg) = 32.
Proof.
  unfold keccak256_bytes.
  generalize (fold_left absorb (chunks (length (pad msg)) rate (pad msg))
                (repeat 0%N 25)).
  intros st. reflexivity.
Qed.

(** The modelled primitive returns [0x] and 64 lowercase hex digits. *)
Lemma keccak256_format t : is_hex_of 64 (keccak256 t) = true.
Proof.
  unfold keccak256. change (js "0x") with [48%N; 120%N].
  cbn [app is_hex_of]. rewrite hex2_length, digest_length, hex2_lower.
  reflexivity.
Qed.

End KeccakFacts.

(* ================================================================== *)
(** ** Signatures are truncated hashes *)
(* ================================================================== *)

Module DigestFacts.

Lemma forallb_firstn {A} (f : A -> bool) n : forall l,
  forallb f l = true -> forallb f (firstn n l) = true.
Proof.
  induction n as [|n IH]; intros [|a l] H; try reflexivity.
  simpl in *. apply andb_true_iff in H as [Ha Hl]. now rewrite Ha, IH.
Qed.

Lemma slice_hex s : is_hex_of 64 s = true -> is_hex_of 8 (slice0 10 s) = true.
Proof.
  destruct s as [|a [|b h]]; try discriminate.
  change (slice0 10 (a :: b :: h)) with (a :: b :: firstn 8 h).
  cbn [is_hex_of]. intros H. apply andb_true_iff in H as [H Hh].
  apply andb_true_iff in H as [H Hn]. apply andb_true_iff in H as [Ha Hb].
  rewrite Ha, Hb, forallb_firstn by assumption.
  apply Nat.eqb_eq in Hn. rewrite length_firstn, Hn. reflexivity.
Qed.

Section Invariant.
Variable keccak256 : jsstring -> result jsstring.
Variable lines : list jsstring.

Lemma digest_hex t sg :
  (forall t h, keccak256 t = Ok h -> is_hex_of 64 h = true) ->
  digest_of keccak256 t sg -> is_hex_of 8 sg = true.
Proof. intros Hk [h [E ->]]. apply slice_hex. now apply (Hk t). Qed.

Lemma push_digest l n t h :
  keccak256 t = Ok h ->
  Forall (entry_digest keccak256) l ->
  Forall (entry_digest keccak256) (l ++ [mkEntry n t (slice0 10 h)]).
Proof.
  intros E H. apply Forall_app; split; [assumption|].
  constructor; [now exists h|constructor].
Qed.

Lemma push_getter l t h :
  keccak256 t = Ok h ->
  Forall (getter_digest keccak256) l ->
  Forall (getter_digest keccak256) (l ++ [mkGetter t (slice0 10 h)]).
Proof.
  intros E H. apply Forall_app; split; [assumption|].
  constructor; [now exists h|constructor].
Qed.

Lemma push_require recs l index mt h :
  nth_error lines index = Some l -> jsmatch requireRe l = Some mt ->
  keccak256 (cap 2 mt) = Ok h ->
  Forall (require_of keccak256 lines) recs ->
  Forall (require_of keccak256 lines)
    (recs ++ [mkEntry (index + 1)
                (js "require(" ++ cap 1 mt ++ js ", " ++ [dquote]
                 ++ cap 2 mt ++ [dquote] ++ js ")")
                (slice0 10 h)]).
Proof.
  intros N M E H. apply Forall_app; split; [assumption|].
  constructor; [|constructor]. exists l, mt. cbn [line text signature].
  rewrite Nat.add_sub. split; [lia|]. split; [exact N|]. split; [exact M|].
  split; [reflexivity|]. now exists h.
Qed.

Lemma onLine1_digests l index st st' :
  nth_error lines index = Some l ->
  Script1Exn.onLine keccak256 l index st = Ok st' ->
  digests1 keccak256 lines st -> digests1 keccak256 lines st'.
Proof.
  unfold Script1Exn.onLine, Script1Exn.matchFunction, Script1Exn.matchError,
    Script1Exn.matchRequire, Script1Exn.getKeccak256.
  intros N H [Hf [He Hr]].
  destruct (jsmatch functionRe l) as [fm|]; cbv zeta in H;
    [destruct (keccak256 _) as [fh|] eqn:Ef in H; [|discriminate]|];
    cbn [bind] in H;
    (destruct (jsmatch errorRe l) as [em|]; cbv zeta in H;
     [destruct (keccak256 _) as [eh|] eqn:Ee in H; [|discriminate]|]);
    cbn [bind] in H;
    (destruct (jsmatch requireRe l) as [rm|] eqn:Mr; cbv zeta in H;
     [destruct (keccak256 _) as [rh|] eqn:Er in H; [|discriminate]|]);
    cbn [bind] in H; inversion H; subst; clear H;
    unfold digests1;
    cbn [Script1.functions Script1.errors Script1.requires];
    repeat split; try assumption;
    try (now apply push_digest); eapply push_require; eassumption.
Qed.

Lemma forEachM1_digests rest : forall pre st st',
  lines = pre ++ rest ->
  forEachM (Script1Exn.onLine keccak256) rest (length pre) st = Ok st' ->
  digests1 keccak256 lines st -> digests1 keccak256 lines st'.
Proof.
  induction rest as [|l rest IH]; intros pre st st' E H G.
  - inversion H; subst; exact G.
  - cbn [forEachM] in H.
    destruct (Script1Exn.onLine keccak256 l (length pre) st) as [st1|] eqn:E1;
      [|discriminate].
    cbn [bind] in H.
    apply (IH (pre ++ [l]) st1 st').
    + rewrite E, <- app_assoc. reflexivity.
    + rewrite length_app, Nat.add_1_r. exact H.
    + refine (@onLine1_digests l (length pre) st st1 _ E1 G).
      rewrite E, nth_error_app2, Nat.sub_diag by lia. reflexivity.
Qed.

Lemma onLine2_digests l index st st' :
  nth_error lines index = Some l ->
  Script2Exn.onLine keccak256 l index st = Ok st' ->
  digests2 keccak256 lines st -> digests2 keccak256 lines st'.
Proof.
  unfold Script2Exn.onLine, Script2Exn.matchFunction, Script2Exn.matchError,
    Script2Exn.matchRequire, Script2Exn.matchPublicVar,
    Script2Exn.getKeccak256.
  intros N H [Hf [He [Hr Hg]]].
  destruct (jsmatch functionRe l) as [fm|]; cbv zeta in H;
    [destruct (Script2.getCanonicalForm _ _) as [ft|] in H; [|discriminate];
     cbn [bind] in H;
     destruct (keccak256 _) as [fh|] eqn:Ef in H; [|discriminate]|];
    cbn [bind] in H;
    (destruct (jsmatch errorRe l) as [em|]; cbv zeta in H;
     [destruct (Script2.getCanonicalForm _ _) as [et|] in H; [|discriminate];
      cbn [bind] in H;
      destruct (keccak256 _) as [eh|] eqn:Ee in H; [|discriminate]|]);
    cbn [bind] in H;
    (destruct (jsmatch requireRe l) as [rm|] eqn:Mr; cbv zeta in H;
     [destruct (keccak256 _) as [rh|] eqn:Er in H; [|discriminate]|]);
    cbn [bind] in H;
    (destruct (jsmatch publicRe l) as [pm|];
     [destruct (jsmatch varRe l) as [vm|]; cbv zeta in H;
      [destruct (Script2.getCanonicalForm _ _) as [gt|] in H; [|discriminate];
       cbn [bind] in H;
       destruct (keccak256 _) as [gh|] eqn:Eg in H; [|discriminate]|]|]);
    cbn [bind] in H; inversion H; subst; clear H;
    unfold digests2;
    cbn [Script2.functions Script2.errors Script2.requires Script2.getters];
    repeat split; try assumption;
    try (now apply push_digest); try (now apply push_getter);
    eapply push_require; eassumption.
Qed.

Lemma forEachM2_digests rest : forall pre st st',
  lines = pre ++ rest ->
  forEachM (Script2Exn.onLine keccak256) rest (length pre) st = Ok st' ->
  digests2 keccak256 lines st -> digests2 keccak256 lines st'.
Proof.
  induction rest as [|l rest IH]; intros pre st st' E H G.
  - inversion H; subst; exact G.
  - cbn [forEachM] in H.
    destruct (Script2Exn.onLine keccak256 l (length pre) st) as [st1|] eqn:E1;
      [|discriminate].
    cbn [bind] in H.
    apply (IH (pre ++ [l]) st1 st').
    + rewrite E, <- app_assoc. reflexivity.
    + rewrite length_app, Nat.add_1_r. exact H.
    + refine (@onLine2_digests l (length pre) st st1 _ E1 G).
      rewrite E, nth_error_app2, Nat.sub_diag by lia. reflexivity.
Qed.

End Invariant.
End DigestFacts.

(* ================================================================== *)
(** ** Properties of the extraction *)
(* ================================================================== *)

(** C8.  The line numbers of the function records are, in order, the
    1-based positions of the lines of the source (split on newline) that
    the function pattern accepts: a declaration matched on the N-th line
    gives a record whose line number is N.  The same holds for the error
    and require records. *)
Theorem line_numbers_are_positions (keccak256 : jsstring -> jsstring) source :
  let lines := split 10%N source in
  let st := Script1.calculateSignatures keccak256 source in
  map line (Script1.functions st)
    = map S (positions (matches functionRe) lines 0)
  /\ map line (Script1.errors st)
    = map S (positions (matches errorRe) lines 0)
  /\ map line (Script1.requires st)
    = map S (positions (matches requireRe) lines 0).
Proof.
  intros lines st. unfold st, Script1.calculateSignatures. fold lines.
  repeat split.
  - rewrite (Script1Facts.forEach_lines keccak256 Script1.functions functionRe);
      [reflexivity|].
    intros l i s. rewrite Script1Facts.functions_onLine, map_app.
    unfold matches. destruct (jsmatch functionRe l); cbn [map line];
      now rewrite ?Nat.add_1_r.
  - rewrite (Script1Facts.forEach_lines keccak256 Script1.errors errorRe);
      [reflexivity|].
    intros l i s. rewrite Script1Facts.errors_onLine, map_app.
    unfold matches. destruct (jsmatch errorRe l); cbn [map line];
      now rewrite ?Nat.add_1_r.
  - rewrite (Script1Facts.forEach_lines keccak256 Script1.requires requireRe);
      [reflexivity|].
    intros l i s. rewrite Script1Facts.requires_onLine, map_app.
    unfold matches. destruct (jsmatch requireRe l); cbn [map line];
      now rewrite ?Nat.add_1_r.
Qed.

(** The second script appends in the same way, when it does not throw. *)
Lemma onLine2_lengths (keccak256 : jsstring -> jsstring) l index st st' :
  Script2.onLine keccak256 l index st = Ok st' ->
  length (Script2.functions st')
    = length (Script2.functions st) + (if matches functionRe l then 1 else 0)
  /\ length (Script2.errors st')
    = length (Script2.errors st) + (if matches errorRe l then 1 else 0)
  /\ length (Script2.requires st')
    = length (Script2.requires st) + (if matches requireRe l then 1 else 0)
  /\ length (Script2.getters st')
    = length (Script2.getters st)
      + (if matches publicRe l && matches varRe l then 1 else 0).
Proof.
  unfold Script2.onLine, Script2.matchFunction, Script2.matchError,
    Script2.matchRequire, Script2.matchPublicVar, matches.
  intros H.
  destruct (jsmatch functionRe l) as [fm|];
    [destruct (Script2.getCanonicalForm _ _) as [ft|]; [|discriminate]|];
    cbn [bind] in H;
    (destruct (jsmatch errorRe l) as [em|];
     [destruct (Script2.getCanonicalForm _ _) as [et|]; [|discriminate]|]);
    cbn [bind] in H;
    destruct (jsmatch requireRe l) as [rm|];
    (destruct (jsmatch publicRe l) as [pm|];
     [destruct (jsmatch varRe l) as [vm|];
      [destruct (Script2.getCanonicalForm _ _) as [gt|]; [|discriminate]|]|]);
    cbn [bind] in H; inversion H; subst; clear H;
    cbn [Script2.functions Script2.errors Script2.requires Script2.getters
         andb];
    rewrite ?length_app; cbn [length]; repeat split; lia.
Qed.

(** C3 (amended).  The rules are applied to a line independently of each
    other: each rule whose pattern accepts the line appends exactly one
    record to its own list, and a rule that does not accept it appends
    none; a line can therefore yield records of several kinds.  This holds
    for the three rules of the first script and, whenever its callback
    returns, for the four rules of the second script. *)
Theorem rules_are_independent (keccak256 : jsstring -> jsstring)
        l index st1 st2 :
  (let st' := Script1.onLine keccak256 l index st1 in
   length (Script1.functions st')
     = length (Script1.functions st1) + (if matches functionRe l then 1 else 0)
   /\ length (Script1.errors st')
     = length (Script1.errors st1) + (if matches errorRe l then 1 else 0)
   /\ length (Script1.requires st')
     = length (Script1.requires st1) + (if matches requireRe l then 1 else 0))
  /\ (forall st',
        Script2.onLine keccak256 l index st2 = Ok st' ->
        length (Script2.functions st')
          = length (Script2.functions st2)
            + (if matches functionRe l then 1 else 0)
        /\ length (Script2.errors st')
          = length (Script2.errors st2) + (if matches errorRe l then 1 else 0)
        /\ length (Script2.requires st')
          = length (Script2.requires st2)
            + (if matches requireRe l then 1 else 0)
        /\ length (Script2.getters st')
          = length (Script2.getters st2)
            + (if matches publicRe l && matches varRe l then 1 else 0)).
Proof.
  split; [|intros st'; apply onLine2_lengths].
  cbv zeta.
  rewrite Script1Facts.functions_onLine, Script1Facts.errors_onLine,
    Script1Facts.requires_onLine, !length_app. unfold matches.
  destruct (jsmatch functionRe l), (jsmatch errorRe l),
    (jsmatch requireRe l); cbn [length]; auto.
Qed.

Lemma rules_are_independent_witness :
  Script2.onLine Keccak.keccak256 twoKindsLine 0 (Script2.mkSigs [] [] [] [])
  = Ok (Script2.mkSigs
          [mkEntry 1 (js "f()") (js "0x26121ff0")] []
          [mkEntry 1 (js "require(x > 0, " ++ dquote :: js "bad"
                         ++ dquote :: js ")")
             (slice0 10 (Keccak.keccak256 (js "bad")))] [])
  /\ length [mkEntry 1 (js "f()") (js "0x26121ff0")]
     = 0 + (if matches functionRe twoKindsLine then 1 else 0)
  /\ length [mkEntry 1 (js "require(x > 0, " ++ dquote :: js "bad"
                            ++ dquote :: js ")")
                (slice0 10 (Keccak.keccak256 (js "bad")))]
     = 0 + (if matches requireRe twoKindsLine then 1 else 0).
Proof.
  assert (H : Script2.onLine Keccak.keccak256 twoKindsLine 0
                (Script2.mkSigs [] [] [] [])
              = Ok (Script2.mkSigs
                      [mkEntry 1 (js "f()") (js "0x26121ff0")] []
                      [mkEntry 1 (js "require(x > 0, " ++ dquote :: js "bad"
                                     ++ dquote :: js ")")
                         (slice0 10 (Keccak.keccak256 (js "bad")))] []))
    by (vm_compute; reflexivity).
  split; [exact H|].
  destruct (proj2 (rules_are_independent Keccak.keccak256 twoKindsLine 0
                     (Script1.mkSigs [] [] []) (Script2.mkSigs [] [] [] []))
              _ H) as [Hf [_ [Hr _]]].
  split; [exact Hf|exact Hr].
Defined.

(* ------------------------------------------------------------------ *)
(** *** The canonical form of a parameter *)

Lemma canonicalType2_word c w :
  forallb is_word (c :: w) = true ->
  Script2.canonicalType (c :: w) = Ok (c :: w).
Proof.
  intros H. unfold Script2.canonicalType.
  rewrite JsFacts.trim_word, CanonFacts.canon_one_word by assumption.
  reflexivity.
Qed.

(** For a fragment made of a type word, alone or followed by blanks and one
    name word, with any blanks around it, the canonical type is the type
    word: the name is discarded, and the amount and kind of blanks never
    change the token. *)
Theorem canonicalType_of_type_and_name lead ty sep name trail :
  forallb is_space lead = true -> forallb is_space trail = true ->
  ty <> [] -> forallb is_word ty = true ->
  forallb is_space sep = true -> forallb is_word name = true ->
  (sep = [] <-> name = []) ->
  Script1.canonicalType (lead ++ ty ++ sep ++ name ++ trail) = ty.
Proof.
  intros Hl Ht Hty Hw Hs Hn Hiff.
  destruct ty as [|c1 w1]; [congruence|].
  assert (Hc1 : is_space c1 = false)
    by (apply JsFacts.word_not_space; now apply JsFacts.forallb_head in Hw).
  unfold Script1.canonicalType.
  destruct name as [|c2 w2].
  - assert (sep = []) by now apply Hiff. subst sep. cbn [app].
    change (lead ++ c1 :: w1 ++ trail) with (lead ++ (c1 :: w1) ++ trail).
    rewrite JsFacts.trim_framed; try assumption.
    + rewrite CanonFacts.canon_one_word by assumption.
      cbn. now rewrite app_nil_r.
    + intros m' d E. apply JsFacts.word_not_space. subst w1.
      change (c1 :: m' ++ [d]) with ((c1 :: m') ++ [d]) in Hw.
      rewrite forallb_app in Hw. apply andb_true_iff in Hw as [_ Hw].
      now apply JsFacts.forallb_head in Hw.
  - destruct sep as [|cs ws];
      [destruct Hiff as [Hi _]; specialize (Hi eq_refl); discriminate|].
    replace (lead ++ (c1 :: w1) ++ (cs :: ws) ++ (c2 :: w2) ++ trail)
      with (lead ++ (c1 :: w1 ++ (cs :: ws) ++ (c2 :: w2)) ++ trail)
      by (repeat (cbn [app]; rewrite <- ?app_assoc); reflexivity).
    rewrite JsFacts.trim_framed; try assumption.
    + change (c1 :: w1 ++ (cs :: ws) ++ c2 :: w2)
        with ((c1 :: w1) ++ (cs :: ws) ++ (c2 :: w2)).
      rewrite CanonFacts.canon_two_words by assumption.
      cbn. now rewrite app_nil_r.
    + intros m' d E. apply JsFacts.word_not_space.
      destruct (@exists_last _ (c2 :: w2)) as [n' [d' E2]]; [discriminate|].
      rewrite E2 in E, Hn. rewrite !app_assoc in E.
      apply app_inj_tail in E as [_ ->].
      rewrite forallb_app in Hn. apply andb_true_iff in Hn as [_ Hn].
      now apply JsFacts.forallb_head in Hn.
Qed.

Lemma canonicalType_of_type_and_name_witness :
  forallb is_space (js " ") = true /\ forallb is_space (js "  ") = true
  /\ js "uint256" <> [] /\ forallb is_word (js "uint256") = true
  /\ forallb is_space [9%N; 32%N] = true
  /\ forallb is_word (js "amount") = true
  /\ ([9%N; 32%N] = [] <-> js "amount" = [])
  /\ Script1.canonicalType
       (js " " ++ js "uint256" ++ [9%N; 32%N] ++ js "amount" ++ js "  ")
     = js "uint256".
Proof.
  assert (H7 : [9%N; 32%N] = [] <-> js "amount" = [])
    by (split; discriminate).
  split; [reflexivity|]. split; [reflexivity|]. split; [discriminate|].
  split; [reflexivity|]. split; [reflexivity|]. split; [reflexivity|].
  split; [exact H7|].
  apply canonicalType_of_type_and_name; try reflexivity;
    [discriminate|exact H7].
Defined.

(** C1: a storage-location keyword is not discarded.  The pattern is
    anchored at the end of the fragment only, so with three words its first
    group is the second word: on [uint256 calldata x] the token is
    [calldata], and on [address[] memory r] it is [memory], where the
    canonical form has [uint256] and [address[]]. *)
Lemma canonicalType_keeps_storage_keyword :
  Script1.canonicalType (js "uint256 calldata x") = js "calldata"
  /\ Script1.canonicalType (js "uint256 calldata x") <> js "uint256"
  /\ Script1.canonicalType (js "address[] memory r") = js "memory"
  /\ Script1.canonicalType (js "address[] memory r") <> js "address[]"
  /\ Script2.canonicalType (js "uint256 calldata x") = Ok (js "calldata")
  /\ Script1.getCanonicalForm (js "f") [js "uint256 calldata x"]
     = js "f(calldata)".
Proof. vm_compute. repeat split; discriminate. Qed.

(** C9: on a fragment that ends with the array suffix the first script
    appends the third group and the second script drops it; on [address[]
    recipients] both return the name. *)
Theorem canonicalType_scripts_differ :
  Script1.canonicalType (js "uint256[]") = js "uint256[]"
  /\ Script2.canonicalType (js "uint256[]") = Ok (js "uint256")
  /\ Script1.getCanonicalForm (js "f") [js "uint256[]"] = js "f(uint256[])"
  /\ Script2.getCanonicalForm (js "f") [js "uint256[]"] = Ok (js "f(uint256)")
  /\ Script1.canonicalType (js "address[] recipients") = js "recipients"
  /\ Script2.canonicalType (js "address[] recipients") = Ok (js "recipients").
Proof. vm_compute. repeat split. Qed.

(** C5: a fragment of blanks gives the empty token in the first script and
    a [TypeError] in the second one, which ends [calculateSignatures] for
    the whole file. *)
Theorem blank_fragment_throws (keccak256 : jsstring -> jsstring) :
  Script1.canonicalType (js " ") = []
  /\ map text (Script1.functions
                 (Script1.calculateSignatures keccak256
                    (js "function f( ) public {}"))) = [js "f()"]
  /\ Script2.canonicalType (js " ") = Raise TypeError
  /\ Script2.calculateSignatures keccak256 (js "function f( ) public {}")
     = Raise TypeError.
Proof. repeat split. Qed.

(** C2: for the line [uint256 public totalSupply = 0;] the first word
    captured by the assignment pattern is [public], so the getter is
    [totalSupply(public)]. *)
Theorem getter_of_totalSupply (keccak256 : jsstring -> jsstring) :
  Script2.calculateSignatures keccak256 (js "uint256 public totalSupply = 0;")
  = Ok (Script2.mkSigs [] [] []
          [mkGetter (js "totalSupply(public)")
             (Script2.getKeccak256 keccak256 (js "totalSupply(public)"))]).
Proof. reflexivity. Qed.

(* ------------------------------------------------------------------ *)
(** *** Function and require records *)

(** On an indented declaration the captured name is the word after
    [function] and the parameter text runs to the first closing
    parenthesis. *)
Lemma function_record_of_declaration (keccak256 : jsstring -> jsstring)
      lead s1 ws1 n1 name ws2 params tail index st :
  forallb is_space lead = true ->
  forallb is_space (s1 :: ws1) = true ->
  forallb is_word (n1 :: name) = true ->
  forallb is_space ws2 = true ->
  forallb (other_than (ch ")")) params = true ->
  let canonical :=
    (n1 :: name) ++ js "("
      ++ join (js ",") (map Script1.canonicalType (splitParams params))
      ++ js ")" in
  Script1.functions
    (Script1.onLine keccak256
       (lead ++ js "function" ++ (s1 :: ws1) ++ (n1 :: name) ++ ws2
             ++ ch "(" :: params ++ ch ")" :: tail) index st)
  = Script1.functions st
    ++ [mkEntry (index + 1) canonical (slice0 10 (keccak256 canonical))].
Proof.
  intros Hl H1 Hn H2 Hp canonical.
  destruct (@LineFacts.function_shape lead s1 ws1 n1 name ws2 params tail
              Hl H1 Hn H2 Hp) as [whole E].
  rewrite Script1Facts.functions_onLine, E. reflexivity.
Qed.

(** C4 (amended).  For every line the require pattern accepts, with
    captured condition and message, the record pushed on [requires] has the
    text [require(condition, "message")] rebuilt from both captures, and
    its signature is the truncated hash of the message alone. *)
Theorem require_record (keccak256 : jsstring -> jsstring) l index st mt :
  jsmatch requireRe l = Some mt ->
  exists condition message,
    group 1 mt = Some condition /\ group 2 mt = Some message
    /\ Script1.requires (Script1.onLine keccak256 l index st)
       = Script1.requires st
         ++ [mkEntry (index + 1)
               (js "require(" ++ condition ++ js ", " ++ dquote :: message
                   ++ dquote :: js ")")
               (slice0 10 (keccak256 message))].
Proof.
  intros H. pose proof H as H'.
  apply RunFacts.require_captures in H' as [g0 [condition [message E]]].
  exists condition, message. subst mt.
  split; [reflexivity|]. split; [reflexivity|].
  rewrite Script1Facts.requires_onLine, H. reflexivity.
Qed.

Lemma require_record_balance :
  jsmatch requireRe requireLine
  = Some [(0, requireLine); (2, js "Insufficient balance");
          (1, js "balance >= amount")]
  /\ Script1.requires
       (Script1.onLine Keccak.keccak256 requireLine 0 (Script1.mkSigs [] [] []))
     = [mkEntry 1
          (js "require(balance >= amount, " ++ dquote
              :: js "Insufficient balance" ++ dquote :: js ")")
          (slice0 10 (Keccak.keccak256 (js "Insufficient balance")))]
  /\ slice0 10 (Keccak.keccak256 (js "Insufficient balance")) = js "0x47533c36".
Proof.
  assert (H : jsmatch requireRe requireLine
              = Some [(0, requireLine); (2, js "Insufficient balance");
                      (1, js "balance >= amount")])
    by (vm_compute; reflexivity).
  split; [exact H|]. split; [|vm_compute; reflexivity].
  destruct (@require_record Keccak.keccak256 requireLine 0
              (Script1.mkSigs [] [] []) _ H)
    as [condition [message [G1 [G2 E]]]].
  rewrite E. cbn in G1, G2. inversion G1; inversion G2; subst.
  reflexivity.
Defined.

(** C4, as stated, fails: the text of the require record is the rebuilt
    statement, not the bare message. *)
Lemma require_text_is_not_the_message :
  map text (Script1.requires
              (Script1.onLine Keccak.keccak256 requireLine 0
                 (Script1.mkSigs [] [] [])))
  <> [js "Insufficient balance"].
Proof. vm_compute. discriminate. Qed.

(** On an indented guard the captured condition runs to the comma before
    the quoted message, and the message is the text between the quotes. *)
Lemma require_record_of_guard (keccak256 : jsstring -> jsstring)
      lead cond ws msg tail index st :
  forallb is_space lead = true ->
  forallb (other_than (ch ",")) cond = true ->
  forallb is_space ws = true ->
  forallb (other_than dquote) msg = true ->
  Script1.requires
    (Script1.onLine keccak256
       (lead ++ js "require(" ++ cond ++ ch "," :: ws ++ dquote :: msg
             ++ dquote :: js ");" ++ tail) index st)
  = Script1.requires st
    ++ [mkEntry (index + 1)
          (js "require(" ++ cond ++ js ", " ++ dquote :: msg
              ++ dquote :: js ")")
          (slice0 10 (keccak256 msg))].
Proof.
  intros Hl Hc Hw Hm.
  destruct (@LineFacts.require_shape lead cond ws msg tail Hl Hc Hw Hm)
    as [whole E].
  rewrite Script1Facts.requires_onLine, E. reflexivity.
Qed.

(** C3, as stated, fails: one line yields a function record and a require
    record. *)
Lemma one_line_two_kinds :
  let st := Script1.onLine Keccak.keccak256 twoKindsLine 0
              (Script1.mkSigs [] [] []) in
  map text (Script1.functions st) = [js "f()"]
  /\ map text (Script1.requires st)
     = [js "require(x > 0, " ++ dquote :: js "bad" ++ dquote :: js ")"]
  /\ ~ (length (Script1.functions st) + length (Script1.errors st)
        + length (Script1.requires st) <= 1).
Proof. vm_compute. repeat split. lia. Qed.

(* ------------------------------------------------------------------ *)
(** *** Digest format *)

(** C7.  Every record of every kind carries the hash of its canonical text
    cut by [getKeccak256] to its first ten characters: for a function, error
    or getter record the text hashed is the text of the record, for a require
    record it is the message captured on the record's line.  When the hash
    call returns [0x] followed by 64 lowercase hex digits, every signature is
    [0x] followed by exactly 8 lowercase hex digits. *)
Theorem signatures_are_selectors (keccak256 : jsstring -> result jsstring)
        source :
  let lines := split 10%N source in
  (forall st,
      Script1Exn.calculateSignatures keccak256 source = Ok st ->
      digests1 keccak256 lines st)
  /\ (forall st,
        Script2Exn.calculateSignatures keccak256 source = Ok st ->
        digests2 keccak256 lines st)
  /\ ((forall t h, keccak256 t = Ok h -> is_hex_of 64 h = true) ->
      (forall st,
          Script1Exn.calculateSignatures keccak256 source = Ok st ->
          Forall (fun e => is_hex_of 8 (signature e) = true)
            (Script1.functions st ++ Script1.errors st
               ++ Script1.requires st))
      /\ (forall st,
            Script2Exn.calculateSignatures keccak256 source = Ok st ->
            Forall (fun e => is_hex_of 8 (signature e) = true)
              (Script2.functions st ++ Script2.errors st
                 ++ Script2.requires st)
            /\ Forall (fun g => is_hex_of 8 (getter_signature g) = true)
                 (Script2.getters st))).
Proof.
  intros lines.
  assert (D1 : forall st,
             Script1Exn.calculateSignatures keccak256 source = Ok st ->
             digests1 keccak256 lines st).
  { intros st E.
    apply (@DigestFacts.forEachM1_digests keccak256 lines lines [] _ st
             eq_refl E).
    repeat split; constructor. }
  assert (D2 : forall st,
             Script2Exn.calculateSignatures keccak256 source = Ok st ->
             digests2 keccak256 lines st).
  { intros st E.
    apply (@DigestFacts.forEachM2_digests keccak256 lines lines [] _ st
             eq_refl E).
    repeat split; constructor. }
  split; [exact D1|]. split; [exact D2|]. intros Hk.
  assert (He : forall l, Forall (entry_digest keccak256) l ->
                 Forall (fun e => is_hex_of 8 (signature e) = true) l).
  { intros l. apply Forall_impl. intros e.
    apply (DigestFacts.digest_hex Hk). }
  assert (Hr : forall l, Forall (require_of keccak256 lines) l ->
                 Forall (fun e => is_hex_of 8 (signature e) = true) l).
  { intros l. apply Forall_impl. intros e [l0 [mt [_ [_ [_ [_ D]]]]]].
    apply (DigestFacts.digest_hex Hk D). }
  split.
  - intros st E. destruct (D1 st E) as [Gf [Ge Gr]].
    repeat (apply Forall_app; split); auto.
  - intros st E. destruct (D2 st E) as [Gf [Ge [Gr Gg]]]. split.
    + repeat (apply Forall_app; split); auto.
    + revert Gg. apply Forall_impl. intros g.
      apply (DigestFacts.digest_hex Hk).
Qed.

Lemma signatures_are_selectors_sample :
  (forall t h, sampleKeccak256 t = Ok h -> is_hex_of 64 h = true)
  /\ (exists st,
        Script2Exn.calculateSignatures sampleKeccak256 sampleSource = Ok st
        /\ map signature
             (Script2.functions st ++ Script2.errors st ++ Script2.requires st)
           = [js "0xa9059cbb"; js "0xcf479181"; js "0x47533c36"]
        /\ digests2 sampleKeccak256 (split 10%N sampleSource) st
        /\ Forall (fun e => is_hex_of 8 (signature e) = true)
             (Script2.functions st ++ Script2.errors st
                ++ Script2.requires st)).
Proof.
  assert (Hk : forall t h, sampleKeccak256 t = Ok h -> is_hex_of 64 h = true).
  { intros t h. unfold sampleKeccak256.
    destruct (odd_hex_literal t); [discriminate|].
    intros E. inversion E. apply KeccakFacts.keccak256_format. }
  split; [exact Hk|].
  assert (X : exists st,
             Script2Exn.calculateSignatures sampleKeccak256 sampleSource
             = Ok st
             /\ map signature
                  (Script2.functions st ++ Script2.errors st
                     ++ Script2.requires st)
                = [js "0xa9059cbb"; js "0xcf479181"; js "0x47533c36"])
    by (vm_compute; eexists; split; reflexivity).
  destruct X as [st [E S]].
  exists st. split; [exact E|]. split; [exact S|].
  destruct (signatures_are_selectors sampleKeccak256 sampleSource)
    as [_ [D2 H]].
  split; [exact (D2 st E)|].
  exact (proj1 (proj2 (H Hk) st E)).
Defined.

(* ------------------------------------------------------------------ *)
(** *** Getters of the second script *)

Module PublicFacts.
Import JsFacts ReFacts LineFacts RunFacts.




(** A match somewhere makes the search succeed. *)
Lemma search_finds r pre : forall p post s,
  m (Group 0 r) Some (mkState (lastp p pre) post []) = Some s ->
  exists cs, search r p (pre ++ post) = Some cs.
Proof.
  induction pre as [|c pre IH]; intros p post s H.
  - exists (caps s). now apply search_here.
  - cbn [app search].
    destruct (m (Group 0 r) Some (mkState p (c :: pre ++ post) [])) as [s0|];
      [now exists (caps s0)|].
    apply (IH (Some c) post s). exact H.
Qed.


End PublicFacts.

(* ================================================================== *)
(** ** What a match of the canonical-form pattern looks like *)
(* ================================================================== *)

Module CanonShape.
Import JsFacts ReFacts LineFacts RunFacts.

Lemma run_opt_inv g r s s' :
  run (Opt g r) s s' -> s' = s \/ run r (clear (groups_of r) s) s'.
Proof. inversion 1; subst; auto. Qed.

Lemma run_eol_inv s s' : run Eol s s' -> s' = s /\ rest s = [].
Proof. inversion 1; subst; auto. Qed.

Lemma clear_rest gs s : rest (clear gs s) = rest s.
Proof. reflexivity. Qed.

Lemma set_cap_caps_eq n from a s :
  from = a ++ rest s -> caps (set_cap n from s) = (n, a) :: caps s.
Proof. intros ->. apply set_cap_caps. Qed.

Lemma canon_run p post s' :
  run canonRe (mkState p post []) s' ->
  exists c w mid arr,
    post = (c :: w) ++ mid ++ arr
    /\ forallb is_word (c :: w) = true
    /\ name_part mid
    /\ ((arr = [] /\ lookup 3 (caps s') = None)
        \/ (arr = js "[]" /\ lookup 3 (caps s') = Some (js "[]")))
    /\ lookup 1 (caps s') = Some (c :: w).
Proof.
  unfold canonRe, w_plus, s_plus. intros R.
  apply run_seq_inv in R as [s1 [R1 R]].
  apply run_group_inv in R1 as [sa [Ra E1]].
  apply run_plus_class_inv in Ra as [c [w [Ea [Hw Ca]]]].
  cbn [rest caps] in Ea, Ca.
  assert (C1 : caps s1 = [(1, c :: w)]).
  { rewrite E1. cbn [rest]. rewrite (set_cap_caps_eq 1 (c :: w) sa Ea), Ca.
    reflexivity. }
  assert (T1 : rest s1 = rest sa) by (rewrite E1; reflexivity).
  clear E1.
  apply run_seq_inv in R as [s2 [R2 R]].
  assert (M : exists mid, rest s1 = mid ++ rest s2 /\ name_part mid
              /\ lookup 1 (caps s2) = Some (c :: w)
              /\ lookup 3 (caps s2) = None
              /\ lookup 1 (caps (clear [3] s2)) = Some (c :: w)).
  { apply run_opt_inv in R2 as [->|R2].
    - exists []. unfold clear. cbn [caps]. rewrite C1.
      repeat split; try reflexivity. now left.
    - cbn [groups_of Plus app] in R2.
      apply run_group_inv in R2 as [sb [Rb E2]].
      apply run_seq_inv in Rb as [sc [Rc Rb]].
      apply run_plus_class_inv in Rc as [cs [ws [Es [Hs Cc]]]].
      apply run_plus_class_inv in Rb as [c2 [w2 [E2' [H2 Cb]]]].
      rewrite clear_rest in Es, E2.
      assert (Cs2 : caps s2 = [(2, (cs :: ws) ++ (c2 :: w2)); (1, c :: w)]).
      { rewrite E2.
        rewrite (set_cap_caps_eq 2 ((cs :: ws) ++ (c2 :: w2)) sb)
          by (rewrite Es, E2'; now rewrite <- app_assoc).
        rewrite Cb, Cc. unfold clear. cbn [caps]. rewrite C1. reflexivity. }
      exists ((cs :: ws) ++ (c2 :: w2)).
      assert (T2 : rest s2 = rest sb) by (rewrite E2; reflexivity).
      unfold clear. cbn [caps]. rewrite Cs2, T2.
      repeat split; try reflexivity.
      + rewrite Es, E2'. now rewrite <- app_assoc.
      + right. now exists cs, ws, c2, w2. }
  destruct M as [mid [Em [Hm [L1 [L3 Lc1]]]]].
  apply run_seq_inv in R as [s3 [R3 R]].
  apply run_eol_inv in R as [-> Ee].
  exists c, w, mid.
  apply run_opt_inv in R3 as [->|R3].
  - exists []. repeat split; try assumption.
    + rewrite Ea, <- T1, Em, Ee. reflexivity.
    + now left.
  - cbn [groups_of app] in R3.
    apply run_group_inv in R3 as [sd [Rd E3]].
    apply run_seq_inv in Rd as [se [Re Rd]].
    apply run_chr_inv in Re as [Ee1 Ce]. apply run_chr_inv in Rd as [Ed Cd].
    rewrite clear_rest in Ee1, E3.
    assert (T3 : rest s3 = rest sd) by (rewrite E3; reflexivity).
    assert (Es3 : rest s2 = js "[]" ++ rest sd)
      by (rewrite Ee1, Ed; reflexivity).
    assert (C3 : caps s3 = (3, js "[]") :: caps (clear [3] s2)).
    { rewrite E3, (set_cap_caps_eq 3 (js "[]") sd Es3), Cd, Ce. reflexivity. }
    exists (js "[]").
    repeat split; try assumption.
    + rewrite Ea, <- T1, Em, Es3, <- T3, Ee. reflexivity.
    + right. split; [reflexivity|]. rewrite C3. reflexivity.
    + rewrite C3. cbn [lookup Nat.eqb]. exact Lc1.
Qed.

(** The pattern at a position where a word runs to the end. *)
Lemma canon_word_at p c1 w1 :
  forallb is_word (c1 :: w1) = true ->
  m (Group 0 canonRe) Some (mkState p (c1 :: w1) [])
  = Some (mkState (lastp p (c1 :: w1)) [] [(0, c1 :: w1); (1, c1 :: w1)]).
Proof.
  intros H1. unfold canonRe, w_plus.
  rewrite m_group, m_seq, m_group. cbn [rest].
  apply plus_class_greedy_end; [assumption|].
  rewrite set_cap_all, m_seq, m_opt_skipped by reflexivity.
  now rewrite CanonFacts.canon_tail, set_cap_all.
Qed.

(** The pattern at a position where a word and [[]] run to the end. *)
Lemma canon_array_at p c1 w1 :
  forallb is_word (c1 :: w1) = true ->
  exists whole,
    m (Group 0 canonRe) Some (mkState p (c1 :: w1 ++ js "[]") [])
    = Some (mkState (Some (ch "]")) []
              [(0, whole); (3, js "[]"); (1, c1 :: w1)]).
Proof.
  intros H1. eexists. unfold canonRe, w_plus.
  rewrite m_group, m_seq, m_group. cbn [rest].
  apply plus_class_greedy; [assumption|reflexivity|].
  rewrite set_cap_cons, m_seq, m_opt_skipped by reflexivity.
  reflexivity.
Qed.

Lemma word_end c w :
  forallb is_word (c :: w) = true ->
  exists x d, c :: w = x ++ [d] /\ is_word d = true.
Proof.
  intros H. destruct (@exists_last _ (c :: w)) as [x [d E]]; [discriminate|].
  exists x, d. split; [exact E|]. rewrite E, forallb_app in H.
  apply andb_true_iff in H as [_ H]. now apply forallb_head in H.
Qed.

Lemma core_end c w mid :
  forallb is_word (c :: w) = true -> name_part mid ->
  exists x d, (c :: w) ++ mid = x ++ [d] /\ is_word d = true.
Proof.
  intros Hw [->|[cs [ws [c2 [w2 [-> [Hs H2]]]]]]].
  - rewrite app_nil_r. now apply word_end.
  - destruct (word_end _ _ H2) as [x [d [E Hd]]].
    exists ((c :: w) ++ (cs :: ws) ++ x), d. split; [|exact Hd].
    rewrite E. now rewrite <- !app_assoc.
Qed.

Lemma ends_word y d :
  is_word d = true -> ends_with_type (y ++ [d]) = true.
Proof. intros H. unfold ends_with_type. rewrite rev_unit, H. reflexivity. Qed.

Lemma ends_array y d :
  is_word d = true -> ends_with_type (y ++ [d] ++ js "[]") = true.
Proof.
  intros H. unfold ends_with_type.
  change (y ++ [d] ++ js "[]") with (y ++ [d; ch "["; ch "]"]).
  rewrite rev_app_distr. cbn [rev app]. rewrite H.
  apply orb_true_r.
Qed.

(** The pattern matches exactly the texts that end with a type. *)
Lemma canon_matches_iff t : matches canonRe t = ends_with_type t.
Proof.
  apply eq_true_iff_eq. unfold matches, jsmatch. split.
  - destruct (search canonRe None t) as [cs|] eqn:E; [intros _|discriminate].
    apply search_sound in E as [pre [post [s' [-> [R _]]]]].
    apply canon_run in R as [c [w [mid [arr [-> [Hw [Hm [A _]]]]]]]].
    destruct (core_end _ _ Hw Hm) as [x [d [E Hd]]].
    replace (pre ++ (c :: w) ++ mid ++ arr)
      with (pre ++ ((c :: w) ++ mid) ++ arr) by now rewrite <- app_assoc.
    rewrite E. destruct A as [[-> _]|[-> _]].
    + rewrite app_nil_r, app_assoc. now apply ends_word.
    + rewrite <- app_assoc, app_assoc. now apply ends_array.
  - unfold ends_with_type. destruct (rev t) as [|c r] eqn:E; [discriminate|].
    assert (Et : t = rev r ++ [c])
      by (rewrite <- (rev_involutive t), E; reflexivity).
    destruct (is_word c) eqn:Hc; cbn [orb].
    + intros _.
      destruct (@PublicFacts.search_finds canonRe (rev r) None [c]
                  (mkState (lastp (lastp None (rev r)) [c]) []
                     [(0, [c]); (1, [c])])) as [cs Es].
      * apply canon_word_at. cbn. now rewrite Hc.
      * rewrite Et, Es. reflexivity.
    + destruct (N.eqb_spec c (ch "]")) as [->|]; [|discriminate].
      destruct r as [|b [|c2 r]]; try discriminate. cbn [andb].
      destruct (N.eqb_spec b (ch "[")) as [->|]; [|discriminate].
      cbn [andb]. intros H2.
      destruct (@canon_array_at (lastp None (rev r)) c2 []) as [whole Ew];
        [cbn; now rewrite H2|].
      destruct (@PublicFacts.search_finds canonRe (rev r) None
                  (c2 :: js "[]") _ Ew) as [cs Es].
      assert (Et' : t = rev r ++ c2 :: js "[]").
      { rewrite Et. cbn [rev]. now rewrite <- !app_assoc. }
      rewrite Et', Es. reflexivity.
Qed.

End CanonShape.

Module CanonGroups.
Import JsFacts ReFacts RunFacts CanonShape.

Lemma last_is_word y d a :
  is_word d = true -> is_word a = false -> last_is a (y ++ [d]) = false.
Proof.
  intros Hd Ha. unfold last_is. rewrite rev_unit.
  destruct (N.eqb_spec d a); [subst; congruence|reflexivity].
Qed.

(** The groups of a match: a word, and [[]] exactly when the text ends
    with a closing bracket. *)
Lemma canon_groups t mt :
  jsmatch canonRe t = Some mt ->
  exists c w,
    forallb is_word (c :: w) = true
    /\ cap 1 mt = c :: w
    /\ group_or_empty 3 mt = (if last_is (ch "]") t then js "[]" else []).
Proof.
  unfold jsmatch. intros H.
  apply search_sound in H as [pre [post [s' [-> [R ->]]]]].
  apply canon_run in R as [c [w [mid [arr [-> [Hw [Hm [A L1]]]]]]]].
  exists c, w. split; [assumption|].
  unfold cap, group, group_or_empty. cbn [lookup Nat.eqb]. rewrite L1.
  split; [reflexivity|].
  destruct (core_end _ _ Hw Hm) as [x [d [E Hd]]].
  replace (pre ++ (c :: w) ++ mid ++ arr)
    with (pre ++ ((c :: w) ++ mid) ++ arr) by now rewrite <- app_assoc.
  rewrite E. destruct A as [[-> ->]|[-> ->]].
  - rewrite app_nil_r, app_assoc, last_is_word by (assumption || reflexivity).
    reflexivity.
  - unfold last_is.
    change (pre ++ (x ++ [d]) ++ js "[]")
      with (pre ++ (x ++ [d]) ++ [ch "["; ch "]"]).
    rewrite !rev_app_distr. reflexivity.
Qed.

End CanonGroups.

(* ------------------------------------------------------------------ *)
(** *** More on the canonical type of a fragment *)

(** The token of the first script is empty, or a word, or a word followed
    by [[]]: it holds no blank, comma or parenthesis. *)
Theorem canonicalType_is_word_or_array input :
  Script1.canonicalType input = []
  \/ exists c w,
       forallb is_word (c :: w) = true
       /\ (Script1.canonicalType input = c :: w
           \/ Script1.canonicalType input = (c :: w) ++ js "[]").
Proof.
  unfold Script1.canonicalType.
  destruct (jsmatch canonRe (trim input)) as [mt|] eqn:E; [right|now left].
  apply CanonGroups.canon_groups in E as [c [w [Hw [E1 E3]]]].
  exists c, w. split; [assumption|]. rewrite E1, E3.
  destruct (last_is (ch "]") (trim input)); [now right|left].
  apply app_nil_r.
Qed.

(** A fragment has no type exactly when, once trimmed, it ends neither with
    a word character nor with a word character followed by [[]]: then the
    first script returns the empty token and the second throws. *)
Theorem no_type_iff input :
  (Script1.canonicalType input = [] <-> ends_with_type (trim input) = false)
  /\ (Script2.canonicalType input = Raise TypeError
      <-> ends_with_type (trim input) = false).
Proof.
  rewrite <- CanonShape.canon_matches_iff.
  unfold Script1.canonicalType, Script2.canonicalType, matches.
  destruct (jsmatch canonRe (trim input)) as [mt|] eqn:E.
  - apply CanonGroups.canon_groups in E as [c [w [Hw [E1 E3]]]].
    rewrite E1. split; split; discriminate.
  - split; split; reflexivity.
Qed.

(** When the second script finds a type, it is a non-empty word, and the
    first script returns the same word, followed by [[]] exactly when the
    trimmed fragment ends with a closing bracket. *)
Theorem canonicalType_scripts_agree_up_to_array input ty :
  Script2.canonicalType input = Ok ty ->
  ty <> [] /\ forallb is_word ty = true
  /\ Script1.canonicalType input
     = ty ++ (if last_is (ch "]") (trim input) then js "[]" else []).
Proof.
  unfold Script1.canonicalType, Script2.canonicalType.
  destruct (jsmatch canonRe (trim input)) as [mt|] eqn:E; [|discriminate].
  apply CanonGroups.canon_groups in E as [c [w [Hw [E1 E3]]]].
  rewrite E1, E3. intros H. inversion H; subst.
  split; [discriminate|]. split; [assumption|reflexivity].
Qed.

Lemma canonicalType_scripts_agree_up_to_array_witness :
  Script2.canonicalType (js " uint256[] ") = Ok (js "uint256")
  /\ Script1.canonicalType (js " uint256[] ") = js "uint256[]".
Proof.
  assert (H : Script2.canonicalType (js " uint256[] ") = Ok (js "uint256"))
    by reflexivity.
  split; [exact H|].
  destruct (canonicalType_scripts_agree_up_to_array _ H) as [_ [_ E]].
  rewrite E. reflexivity.
Defined.

(** For an array type without a name, whatever the blanks around it, the
    first script returns the type with [[]] and the second the bare type. *)
Theorem canonicalType_unnamed_array lead ty trail :
  forallb is_space lead = true -> forallb is_space trail = true ->
  ty <> [] -> forallb is_word ty = true ->
  Script1.canonicalType (lead ++ ty ++ js "[]" ++ trail) = ty ++ js "[]"
  /\ Script2.canonicalType (lead ++ ty ++ js "[]" ++ trail) = Ok ty.
Proof.
  intros Hl Ht Hty Hw. destruct ty as [|c1 w1]; [congruence|].
  assert (T : trim (lead ++ (c1 :: w1) ++ js "[]" ++ trail)
              = c1 :: w1 ++ js "[]").
  { replace (lead ++ (c1 :: w1) ++ js "[]" ++ trail)
      with (lead ++ (c1 :: w1 ++ js "[]") ++ trail)
      by (cbn [app]; now rewrite <- !app_assoc).
    apply JsFacts.trim_framed; try assumption.
    - apply JsFacts.word_not_space. now apply JsFacts.forallb_head in Hw.
    - intros m' d E.
      change (w1 ++ js "[]") with (w1 ++ [ch "["] ++ [ch "]"]) in E.
      rewrite app_assoc in E. apply app_inj_tail in E as [_ <-].
      reflexivity. }
  destruct (@CanonShape.canon_array_at None c1 w1 Hw) as [whole E].
  apply ReFacts.search_here in E. cbn [caps] in E.
  unfold Script1.canonicalType, Script2.canonicalType, jsmatch.
  rewrite T, E. split; reflexivity.
Qed.

Lemma canonicalType_unnamed_array_witness :
  forallb is_space (js " ") = true /\ forallb is_space [] = true
  /\ js "address" <> [] /\ forallb is_word (js "address") = true
  /\ Script1.canonicalType (js " " ++ js "address" ++ js "[]" ++ [])
     = js "address" ++ js "[]"
  /\ Script2.canonicalType (js " " ++ js "address" ++ js "[]" ++ [])
     = Ok (js "address").
Proof.
  split; [reflexivity|]. split; [reflexivity|]. split; [discriminate|].
  split; [reflexivity|].
  apply canonicalType_unnamed_array; try reflexivity. discriminate.
Defined.

(* ================================================================== *)
(** ** Lazy quantifiers and the leftmost match *)
(* ================================================================== *)

Module LazyFacts.
Import JsFacts ReFacts LineFacts RunFacts.

(** A lazy [p*?] stops at the first position its continuation accepts:
    the continuation fails at every earlier position. *)
Lemma star_lazy_class_inv p k : forall fuel s res,
  star_loop (m (Class p)) false [] k fuel s = Some res ->
  exists w t,
    rest s = w ++ t /\ forallb p w = true
    /\ k (mkState (lastp (prev s) w) t (caps s)) = Some res
    /\ forall w1 c w2, w = w1 ++ c :: w2 ->
         k (mkState (lastp (prev s) w1) (c :: w2 ++ t) (caps s)) = None.
Proof.
  induction fuel as [|fuel IH]; intros [pv r cs] res H; cbn [star_loop] in H.
  - exists [], r. cbn [rest prev caps lastp app]. repeat split; try assumption.
    intros w1 c w2 E. now destruct w1.
  - destruct (k (mkState pv r cs)) as [s0|] eqn:K0; cbn [orelse] in H.
    + exists [], r. cbn [rest prev caps lastp app].
      repeat split; try congruence. intros w1 c w2 E. now destruct w1.
    + rewrite clear_nil in H. cbn [m rest] in H.
      destruct r as [|d tl]; [discriminate|].
      destruct (p d) eqn:Hd; [|discriminate].
      unfold progress, advance in H. cbn [rest caps] in H.
      rewrite lt_cons in H. apply IH in H as [w [t [E [Hw [Hk Hno]]]]].
      cbn [rest prev caps] in *. subst tl.
      exists (d :: w), t. cbn [lastp app forallb]. rewrite Hd.
      repeat split; try assumption.
      intros w1 c w2 E. destruct w1 as [|d' w1].
      * cbn [app] in E. inversion E; subst. exact K0.
      * cbn [app] in E. inversion E; subst. cbn [lastp]. now apply Hno.
Qed.

(** A successful search: the match at the first position where the
    pattern can match. *)
Lemma search_inv r : forall input p cs,
  search r p input = Some cs ->
  exists pre post s,
    input = pre ++ post
    /\ m (Group 0 r) Some (mkState (lastp p pre) post []) = Some s
    /\ cs = caps s
    /\ forall l1 c l2, pre = l1 ++ c :: l2 ->
         m (Group 0 r) Some (mkState (lastp p l1) (c :: l2 ++ post) []) = None.
Proof.
  induction input as [|c input IH]; intros p cs H; cbn [search] in H.
  - destruct (m (Group 0 r) Some (mkState p [] [])) as [s|] eqn:E;
      [|discriminate].
    inversion H; subst. exists [], [], s. repeat split; try assumption.
    intros l1 c l2 E'. now destruct l1.
  - destruct (m (Group 0 r) Some (mkState p (c :: input) [])) as [s|] eqn:E.
    + inversion H; subst. exists [], (c :: input), s.
      repeat split; try assumption. intros l1 c' l2 E'. now destruct l1.
    + apply IH in H as [pre [post [s [E1 [E2 [E3 Hno]]]]]].
      exists (c :: pre), post, s. subst input. repeat split; try assumption.
      intros l1 c' l2 E'. destruct l1 as [|d l1]; cbn [app] in E'.
      * inversion E'; subst. exact E.
      * inversion E'; subst. cbn [lastp]. now apply Hno.
Qed.

Lemma forallb_pointwise {A} (f : A -> bool) l :
  (forall l1 c l2, l = l1 ++ c :: l2 -> f c = true) -> forallb f l = true.
Proof.
  intros H. apply forallb_forall. intros x Hx.
  apply in_split in Hx as [l1 [l2 E]]. eauto.
Qed.

Lemma set_cap_mk n from p r cs :
  set_cap n from (mkState p r cs)
  = mkState p r ((n, firstn (length from - length r) from) :: cs).
Proof. reflexivity. Qed.

(** A line gives a function record only if it holds the word [function],
    blanks, a name made of word characters, optional blanks and a
    parenthesised parameter text; the captured parameter text ends at the
    first closing parenthesis, so it never holds one. *)
Lemma function_match l mt :
  jsmatch functionRe l = Some mt ->
  exists pre ws1 name ws2 params post,
    l = pre ++ js "function" ++ ws1 ++ name ++ ws2
            ++ ch "(" :: params ++ ch ")" :: post
    /\ ws1 <> [] /\ forallb is_space ws1 = true
    /\ name <> [] /\ forallb is_word name = true
    /\ forallb is_space ws2 = true
    /\ forallb (other_than (ch ")")) params = true
    /\ group 1 mt = Some name /\ group 2 mt = Some params.
Proof.
  unfold jsmatch. intros H.
  apply search_inv in H as [pre [post [s [-> [H [-> _]]]]]].
  rewrite m_group in H. unfold functionRe, s_plus, w_plus, s_star in H.
  rewrite m_seq in H. apply m_sound in H as [s1 [R1 H]].
  apply run_lit_inv in R1 as [E1 C1].
  rewrite m_seq in H. apply m_sound in H as [s2 [R2 H]].
  apply run_plus_class_inv in R2 as [cs [ws [E2 [Hs C2]]]].
  rewrite m_seq in H. apply m_sound in H as [s3 [R3 H]].
  apply run_group_inv in R3 as [sa [Ra E3]].
  apply run_plus_class_inv in Ra as [c [w [Ea [Hw Ca]]]].
  rewrite m_seq in H. apply m_sound in H as [s4 [R4 H]].
  apply run_star_class_inv in R4 as [ws2 [E4 [Hs2 C4]]].
  rewrite m_seq in H. apply m_sound in H as [s5 [R5 H]].
  apply run_chr_inv in R5 as [E5 C5].
  rewrite m_seq, m_group in H. unfold dot_lazy in H. rewrite m_star in H.
  cbn [groups_of] in H.
  apply star_lazy_class_inv in H as [params [t [Ep [Hp [Hk Hno]]]]].
  rewrite set_cap_mk in Hk.
  apply m_sound in Hk as [s6 [R6 Hk]].
  apply run_seq_inv in R6 as [s6a [R6a R6b]].
  apply run_chr_inv in R6a as [E6 C6]. cbn [rest caps] in E6, C6.
  apply run_star_class_inv in R6b as [ws3 [E7 [Hs3 C7]]].
  inversion Hk; subst s; clear Hk.
  assert (C3 : caps s3 = [(1, c :: w)]).
  { rewrite E3, (CanonShape.set_cap_caps_eq 1 (c :: w) sa Ea), Ca, C2, C1.
    reflexivity. }
  assert (T3 : rest s3 = rest sa) by (rewrite E3; reflexivity).
  exists pre, (cs :: ws), (c :: w), ws2, params, (ws3 ++ rest s6).
  split.
  { cbn [rest] in E1. rewrite E1, E2, Ea, <- T3, E4, E5, Ep, E6, E7.
    reflexivity. }
  split; [discriminate|]. split; [assumption|]. split; [discriminate|].
  split; [assumption|]. split; [assumption|]. split.
  { apply forallb_pointwise. intros l1 d l2 E. unfold other_than.
    rewrite (forallb_split is_dot l1 d l2) by (rewrite <- E; exact Hp).
    cbn [andb]. apply negb_true_iff.
    destruct (N.eqb_spec d (ch ")")) as [->|]; [exfalso|reflexivity].
    specialize (Hno l1 _ l2 E). rewrite set_cap_mk, m_seq, chr_match in Hno.
    destruct (@star_class_accepts is_space true
                (fun s' => Some (set_cap 0 (rest (mkState (lastp None pre) post [])) s'))
                (fun _ => True)
                (mkState (Some (ch ")")) (l2 ++ t)
                   ((2, firstn (length (rest s5) - length (ch ")" :: l2 ++ t))
                          (rest s5)) :: caps s5)))
      as [res [E' _]]; [intros; eexists; split; [reflexivity|exact I]|].
    rewrite E' in Hno. discriminate. }
  unfold group, set_cap. cbn [caps lookup Nat.eqb].
  rewrite C7, C6. cbn [lookup Nat.eqb].
  rewrite Ep, firstn_app_diff, C5, C4, C3. split; reflexivity.
Qed.

End LazyFacts.

(* ================================================================== *)
(** ** The alphabet of canonical texts *)
(* ================================================================== *)

Module AlphabetFacts.
Import JsFacts ReFacts LineFacts RunFacts.

Lemma word_sig l : forallb is_word l = true -> forallb is_sig_char l = true.
Proof.
  apply forallb_weaken. intros c H. unfold is_sig_char. now rewrite H.
Qed.

Lemma join_sig l :
  Forall (fun t => forallb is_sig_char t = true) l ->
  forallb is_sig_char (join (js ",") l) = true.
Proof.
  induction 1 as [|t l Ht Hl IH]; [reflexivity|].
  destruct l as [|t' l]; [exact Ht|].
  change (join (js ",") (t :: t' :: l))
    with (t ++ js "," ++ join (js ",") (t' :: l)).
  rewrite !forallb_app, Ht, IH. reflexivity.
Qed.

Lemma form_sig name types :
  forallb is_word name = true ->
  Forall (fun t => forallb is_sig_char t = true) types ->
  forallb is_sig_char (name ++ js "(" ++ join (js ",") types ++ js ")") = true.
Proof.
  intros Hn Ht. rewrite !forallb_app, word_sig, join_sig by assumption.
  reflexivity.
Qed.

Lemma canonicalType1_sig input :
  forallb is_sig_char (Script1.canonicalType input) = true.
Proof.
  unfold Script1.canonicalType.
  destruct (jsmatch canonRe (trim input)) as [mt|] eqn:E; [|reflexivity].
  apply CanonGroups.canon_groups in E as [c [w [Hw [-> ->]]]].
  rewrite forallb_app, word_sig by assumption.
  now destruct (last_is (ch "]") (trim input)).
Qed.

Lemma getCanonicalForm1_sig name inputs :
  forallb is_word name = true ->
  forallb is_sig_char (Script1.getCanonicalForm name inputs) = true.
Proof.
  intros Hn. unfold Script1.getCanonicalForm. apply form_sig; [assumption|].
  apply Forall_forall. intros t Ht. apply in_map_iff in Ht as [i [<- _]].
  apply canonicalType1_sig.
Qed.

Lemma mapM_ok {A B} (f : A -> result B) l : forall bs,
  mapM f l = Ok bs -> Forall2 (fun a b => f a = Ok b) l bs.
Proof.
  induction l as [|a l IH]; intros bs H; cbn [mapM] in H.
  - inversion H. constructor.
  - destruct (f a) as [b|] eqn:E; [|discriminate]. cbn [bind] in H.
    destruct (mapM f l) as [bs'|]; [|discriminate]. cbn [bind] in H.
    inversion H; subst. constructor; auto.
Qed.

Lemma getCanonicalForm2_sig name inputs t :
  forallb is_word name = true ->
  Script2.getCanonicalForm name inputs = Ok t ->
  forallb is_sig_char t = true.
Proof.
  intros Hn. unfold Script2.getCanonicalForm.
  destruct (mapM Script2.canonicalType inputs) as [types|] eqn:E;
    [|discriminate].
  cbn [bind]. intros H. inversion H; subst. apply form_sig; [assumption|].
  apply mapM_ok in E. clear H. induction E as [|i ty ins tys Hi _ IH];
    constructor; [|exact IH].
  unfold Script2.canonicalType in Hi.
  destruct (jsmatch canonRe (trim i)) as [mt|] eqn:Em; [|discriminate].
  apply CanonGroups.canon_groups in Em as [c [w [Hw [E1 _]]]].
  inversion Hi; subst. rewrite E1. now apply word_sig.
Qed.

(** A match of the error pattern captures a non-empty word and the
    parameter text. *)
Lemma error_captures l mt :
  jsmatch errorRe l = Some mt ->
  exists g0 c w params,
    mt = [(0, g0); (2, params); (1, c :: w)]
    /\ forallb is_word (c :: w) = true.
Proof.
  unfold jsmatch. intros H.
  apply search_sound in H as [pre [post [s' [_ [R E]]]]].
  unfold errorRe, w_plus, s_plus, s_star, dot_lazy in R.
  apply run_seq_inv in R as [sa [Ra R]]. apply run_lit_inv in Ra as [Ea Ca].
  apply run_seq_inv in R as [sb [Rb R]].
  apply run_plus_class_inv in Rb as [cs [ws [Es [Hs Cs]]]].
  apply run_seq_inv in R as [sc [Rc R]].
  apply run_group_inv in Rc as [sc' [Rc Ec]].
  apply run_plus_class_inv in Rc as [c [w [E1 [H1 C1]]]].
  apply run_seq_inv in R as [sd [Rd R]].
  apply run_star_class_inv in Rd as [ws' [Es' [Hs' Cs']]].
  apply run_seq_inv in R as [se [Re R]].
  apply run_chr_inv in Re as [Ee Ce].
  apply run_seq_inv in R as [sf [Rf R]].
  apply run_group_inv in Rf as [sf' [Rf Ef]].
  apply run_star_class_inv in Rf as [params [E2 [H2 C2]]].
  apply run_lit_inv in R as [Eg Cg].
  exists (firstn (length post - length (rest s')) post), c, w, params.
  split; [|assumption].
  rewrite E. f_equal. rewrite Cg, Ef, E2, set_cap_caps, C2, Ce, Cs'.
  rewrite Ec, E1, set_cap_caps, C1, Cs, Ca. reflexivity.
Qed.

Section WithHash.
Variable keccak256 : jsstring -> jsstring.

Lemma onLine1_texts l index st :
  Forall text_ok (Script1.functions st) /\ Forall text_ok (Script1.errors st) ->
  Forall text_ok (Script1.functions (Script1.onLine keccak256 l index st))
  /\ Forall text_ok (Script1.errors (Script1.onLine keccak256 l index st)).
Proof.
  intros [Hf He].
  rewrite Script1Facts.functions_onLine, Script1Facts.errors_onLine.
  split; apply Forall_app; split; try assumption.
  - destruct (jsmatch functionRe l) as [mt|] eqn:E; [|constructor].
    apply function_captures in E as [g0 [c [w [params [-> Hw]]]]].
    constructor; [|constructor]. unfold text_ok. cbn [text].
    now apply getCanonicalForm1_sig.
  - destruct (jsmatch errorRe l) as [mt|] eqn:E; [|constructor].
    apply error_captures in E as [g0 [c [w [params [-> Hw]]]]].
    constructor; [|constructor]. unfold text_ok. cbn [text].
    now apply getCanonicalForm1_sig.
Qed.

Lemma forEach1_texts lines : forall index st,
  Forall text_ok (Script1.functions st) /\ Forall text_ok (Script1.errors st) ->
  Forall text_ok
    (Script1.functions (forEach (Script1.onLine keccak256) lines index st))
  /\ Forall text_ok
       (Script1.errors (forEach (Script1.onLine keccak256) lines index st)).
Proof.
  induction lines as [|l lines IH]; intros index st H; [exact H|].
  cbn [forEach]. now apply IH, onLine1_texts.
Qed.

Lemma matchFunction2_texts l index st st' :
  Script2.matchFunction keccak256 l index st = Ok st' ->
  texts2 st -> texts2 st'.
Proof.
  unfold Script2.matchFunction. intros H [Hf [He Hg]].
  destruct (jsmatch functionRe l) as [mt|] eqn:E;
    [|inversion H; subst; now repeat split].
  apply function_captures in E as [g0 [c [w [params [-> Hw]]]]].
  destruct (Script2.getCanonicalForm _ _) as [t|] eqn:Et; [|discriminate].
  cbn [bind] in H. inversion H; subst. repeat split; try assumption.
  cbn [Script2.functions]. apply Forall_app; split; [assumption|].
  constructor; [|constructor]. unfold text_ok. cbn [text].
  eapply getCanonicalForm2_sig; [|exact Et]. exact Hw.
Qed.

Lemma matchError2_texts l index st st' :
  Script2.matchError keccak256 l index st = Ok st' ->
  texts2 st -> texts2 st'.
Proof.
  unfold Script2.matchError. intros H [Hf [He Hg]].
  destruct (jsmatch errorRe l) as [mt|] eqn:E;
    [|inversion H; subst; now repeat split].
  apply error_captures in E as [g0 [c [w [params [-> Hw]]]]].
  destruct (Script2.getCanonicalForm _ _) as [t|] eqn:Et; [|discriminate].
  cbn [bind] in H. inversion H; subst. repeat split; try assumption.
  cbn [Script2.errors]. apply Forall_app; split; [assumption|].
  constructor; [|constructor]. unfold text_ok. cbn [text].
  eapply getCanonicalForm2_sig; [|exact Et]. exact Hw.
Qed.

Lemma matchRequire2_texts l index st :
  texts2 st -> texts2 (Script2.matchRequire keccak256 l index st).
Proof.
  unfold Script2.matchRequire, texts2.
  destruct (jsmatch requireRe l); auto.
Qed.

Lemma matchPublicVar2_texts l st st' :
  Script2.matchPublicVar keccak256 l st = Ok st' ->
  texts2 st -> texts2 st'.
Proof.
  unfold Script2.matchPublicVar. intros H [Hf [He Hg]].
  destruct (jsmatch publicRe l) as [pm|];
    [|inversion H; subst; now repeat split].
  destruct (jsmatch varRe l) as [vm|] eqn:E;
    [|inversion H; subst; now repeat split].
  apply var_captures in E as [g0 [g3 [c1 [w1 [c2 [w2 [-> [H1 H2]]]]]]]].
  destruct (Script2.getCanonicalForm _ _) as [t|] eqn:Et; [|discriminate].
  cbn [bind] in H. inversion H; subst. repeat split; try assumption.
  cbn [Script2.getters]. apply Forall_app; split; [assumption|].
  constructor; [|constructor]. unfold getter_ok. cbn [getter_text].
  eapply getCanonicalForm2_sig; [|exact Et]. exact H2.
Qed.

Lemma onLine2_texts l index st st' :
  Script2.onLine keccak256 l index st = Ok st' -> texts2 st -> texts2 st'.
Proof.
  unfold Script2.onLine. intros H G.
  destruct (Script2.matchFunction keccak256 l index st) as [s1|] eqn:E1;
    [|discriminate].
  cbn [bind] in H.
  destruct (Script2.matchError keccak256 l index s1) as [s2|] eqn:E2;
    [|discriminate].
  cbn [bind] in H.
  eapply matchPublicVar2_texts; [exact H|].
  apply matchRequire2_texts.
  eapply matchError2_texts; [exact E2|].
  eapply matchFunction2_texts; [exact E1|exact G].
Qed.

Lemma forEach2_texts lines : forall index st st',
  forEachM (Script2.onLine keccak256) lines index st = Ok st' ->
  texts2 st -> texts2 st'.
Proof.
  induction lines as [|l lines IH]; intros index st st' H G.
  - inversion H; subst; exact G.
  - cbn [forEachM] in H.
    destruct (Script2.onLine keccak256 l index st) as [s1|] eqn:E;
      [|discriminate].
    cbn [bind] in H. eapply IH; [exact H|]. eapply onLine2_texts; eauto.
Qed.

End WithHash.
End AlphabetFacts.

(** The canonical text of every function and error record of both scripts,
    and of every getter record, holds only word characters, parentheses,
    commas and brackets: no blank, no parameter name separator, no storage
    qualifier punctuation. *)
Theorem canonical_texts_alphabet (keccak256 : jsstring -> jsstring) source t :
  In t (map text
          (Script1.functions (Script1.calculateSignatures keccak256 source)
           ++ Script1.errors (Script1.calculateSignatures keccak256 source)))
  \/ (exists st2,
        Script2.calculateSignatures keccak256 source = Ok st2
        /\ (In t (map text (Script2.functions st2 ++ Script2.errors st2))
            \/ In t (map getter_text (Script2.getters st2)))) ->
  forallb is_sig_char t = true.
Proof.
  intros [H|[st2 [E H]]].
  - destruct (@AlphabetFacts.forEach1_texts keccak256 (split 10%N source) 0
                (Script1.mkSigs [] [] [])) as [Hf He];
      [split; constructor|].
    apply in_map_iff in H as [e [<- H]]. apply in_app_iff in H.
    rewrite Forall_forall in Hf, He. destruct H; [now apply Hf|now apply He].
  - destruct (@AlphabetFacts.forEach2_texts keccak256 (split 10%N source) 0
                (Script2.mkSigs [] [] [] []) st2 E) as [Hf [He Hg]];
      [repeat split; constructor|].
    rewrite Forall_forall in Hf, He, Hg. destruct H as [H|H].
    + apply in_map_iff in H as [e [<- H]]. apply in_app_iff in H.
      destruct H; [now apply Hf|now apply He].
    + apply in_map_iff in H as [g [<- H]]. now apply Hg.
Qed.

Lemma canonical_texts_alphabet_witness :
  In (js "transfer(address,uint256)")
     (map text
        (Script1.functions (Script1.calculateSignatures Keccak.keccak256 sampleSource)
         ++ Script1.errors (Script1.calculateSignatures Keccak.keccak256 sampleSource)))
  /\ forallb is_sig_char (js "transfer(address,uint256)") = true.
Proof.
  assert (H : In (js "transfer(address,uint256)")
                (map text
                   (Script1.functions (Script1.calculateSignatures Keccak.keccak256 sampleSource)
                    ++ Script1.errors (Script1.calculateSignatures Keccak.keccak256 sampleSource))))
    by (vm_compute; left; reflexivity).
  split; [exact H|].
  apply (@canonical_texts_alphabet Keccak.keccak256 sampleSource).
  left. exact H.
Defined.

(* ================================================================== *)
(** ** Order of the records *)
(* ================================================================== *)

Module OrderFacts.

Lemma positions_bounds {A} (f : A -> bool) l : forall from,
  Forall (fun i => from <= i < from + length l) (positions f l from).
Proof.
  induction l as [|a l IH]; intros from; cbn [positions]; [constructor|].
  assert (T : Forall (fun i => from <= i < from + length (a :: l))
                (positions f l (S from))).
  { eapply Forall_impl; [|apply IH]. cbn [length]. intros i Hi. lia. }
  destruct (f a); [constructor; [cbn [length]; lia|exact T]|exact T].
Qed.

Lemma positions_sorted {A} (f : A -> bool) l : forall from,
  StronglySorted lt (positions f l from).
Proof.
  induction l as [|a l IH]; intros from; cbn [positions]; [constructor|].
  destruct (f a); [|apply IH]. constructor; [apply IH|].
  pose proof (positions_bounds f l (S from)) as B.
  eapply Forall_impl; [|exact B]. cbv beta. intros i Hi. lia.
Qed.

Lemma map_S_sorted l : StronglySorted lt l -> StronglySorted lt (map S l).
Proof.
  induction 1 as [|a l Hs IH Ha]; cbn [map]; constructor; [exact IH|].
  apply Forall_map. eapply Forall_impl; [|exact Ha]. intros i Hi. lia.
Qed.

Section WithHash.
Variable keccak256 : jsstring -> jsstring.

Lemma functions_lines source :
  map line (Script1.functions (Script1.calculateSignatures keccak256 source))
  = map S (positions (matches functionRe) (split 10%N source) 0).
Proof.
  unfold Script1.calculateSignatures.
  rewrite (Script1Facts.forEach_lines keccak256 Script1.functions functionRe);
    [reflexivity|].
  intros l i s. rewrite Script1Facts.functions_onLine, map_app.
  unfold matches. destruct (jsmatch functionRe l); cbn [map line];
    now rewrite ?Nat.add_1_r.
Qed.

Lemma errors_lines source :
  map line (Script1.errors (Script1.calculateSignatures keccak256 source))
  = map S (positions (matches errorRe) (split 10%N source) 0).
Proof.
  unfold Script1.calculateSignatures.
  rewrite (Script1Facts.forEach_lines keccak256 Script1.errors errorRe);
    [reflexivity|].
  intros l i s. rewrite Script1Facts.errors_onLine, map_app.
  unfold matches. destruct (jsmatch errorRe l); cbn [map line];
    now rewrite ?Nat.add_1_r.
Qed.

Lemma requires_lines source :
  map line (Script1.requires (Script1.calculateSignatures keccak256 source))
  = map S (positions (matches requireRe) (split 10%N source) 0).
Proof.
  unfold Script1.calculateSignatures.
  rewrite (Script1Facts.forEach_lines keccak256 Script1.requires requireRe);
    [reflexivity|].
  intros l i s. rewrite Script1Facts.requires_onLine, map_app.
  unfold matches. destruct (jsmatch requireRe l); cbn [map line];
    now rewrite ?Nat.add_1_r.
Qed.

Lemma sorted_of_positions {A} (f : A -> bool) l (recs : list entry) :
  map line recs = map S (positions f l 0) ->
  StronglySorted lt (map line recs)
  /\ Forall (fun e => 1 <= line e <= length l) recs.
Proof.
  intros E. split.
  - rewrite E. apply map_S_sorted, positions_sorted.
  - apply Forall_forall. intros e He.
    assert (Hi : In (line e) (map line recs)) by now apply in_map.
    rewrite E in Hi. apply in_map_iff in Hi as [i [Ei Hi]].
    pose proof (positions_bounds f l 0) as B. rewrite Forall_forall in B.
    apply B in Hi. lia.
Qed.

End WithHash.
End OrderFacts.

(** In each list of the first script the records are in strictly
    increasing line order, so no two records of one kind carry the same
    line, and every line number lies between 1 and the number of lines of
    the source. *)
Theorem lines_strictly_increasing (keccak256 : jsstring -> jsstring) source :
  let st := Script1.calculateSignatures keccak256 source in
  let n := length (split 10%N source) in
  in_line_order n (Script1.functions st)
  /\ in_line_order n (Script1.errors st)
  /\ in_line_order n (Script1.requires st).
Proof.
  intros st n. unfold in_line_order. split; [|split].
  - apply OrderFacts.sorted_of_positions with (f := matches functionRe).
    apply OrderFacts.functions_lines.
  - apply OrderFacts.sorted_of_positions with (f := matches errorRe).
    apply OrderFacts.errors_lines.
  - apply OrderFacts.sorted_of_positions with (f := matches requireRe).
    apply OrderFacts.requires_lines.
Qed.

(* ================================================================== *)
(** ** Sources put together *)
(* ================================================================== *)

Module ConcatFacts.

Lemma split_not_nil sep s : split sep s <> [].
Proof.
  destruct s as [|c s]; cbn [split]; [discriminate|].
  destruct (c =? sep)%N; [discriminate|].
  destruct (split sep s); discriminate.
Qed.

(** Splitting a text that holds a separator between two parts. *)
Lemma split_app sep a b :
  split sep (a ++ sep :: b) = split sep a ++ split sep b.
Proof.
  induction a as [|c a IH]; cbn [app split].
  - now rewrite N.eqb_refl.
  - rewrite IH. destruct (c =? sep)%N; [reflexivity|].
    pose proof (split_not_nil sep a) as Hn.
    destruct (split sep a) as [|h t]; [congruence|reflexivity].
Qed.

Lemma collect_app rule l1 : forall l2 i,
  collect rule (l1 ++ l2) i
  = collect rule l1 i ++ collect rule l2 (i + length l1).
Proof.
  induction l1 as [|l l1 IH]; intros l2 i; cbn [app collect length].
  - now rewrite Nat.add_0_r.
  - rewrite IH, <- app_assoc. do 3 f_equal. lia.
Qed.

Lemma collect_shift rule k :
  (forall l i, rule l (i + k) = map (shift k) (rule l i)) ->
  forall ls i, collect rule ls (i + k) = map (shift k) (collect rule ls i).
Proof.
  intros H. induction ls as [|l ls IH]; intros i; cbn [collect]; [reflexivity|].
  rewrite map_app, H. f_equal. apply (IH (S i)).
Qed.

Section WithHash.
Variable keccak256 : jsstring -> jsstring.

Lemma forEach_collect (proj : Script1.sigs -> list entry) rule :
  (forall l i st,
      proj (Script1.onLine keccak256 l i st) = proj st ++ rule l i) ->
  forall ls i st,
    proj (forEach (Script1.onLine keccak256) ls i st)
    = proj st ++ collect rule ls i.
Proof.
  intros H. induction ls as [|l ls IH]; intros i st; cbn [forEach collect].
  - now rewrite app_nil_r.
  - now rewrite IH, H, <- app_assoc.
Qed.

Lemma functions_collect source :
  Script1.functions (Script1.calculateSignatures keccak256 source)
  = collect (functionRule keccak256) (split 10%N source) 0.
Proof.
  unfold Script1.calculateSignatures.
  rewrite (forEach_collect Script1.functions (functionRule keccak256));
    [reflexivity|].
  intros. apply Script1Facts.functions_onLine.
Qed.

Lemma errors_collect source :
  Script1.errors (Script1.calculateSignatures keccak256 source)
  = collect (errorRule keccak256) (split 10%N source) 0.
Proof.
  unfold Script1.calculateSignatures.
  rewrite (forEach_collect Script1.errors (errorRule keccak256));
    [reflexivity|].
  intros. apply Script1Facts.errors_onLine.
Qed.

Lemma requires_collect source :
  Script1.requires (Script1.calculateSignatures keccak256 source)
  = collect (requireRule keccak256) (split 10%N source) 0.
Proof.
  unfold Script1.calculateSignatures.
  rewrite (forEach_collect Script1.requires (requireRule keccak256));
    [reflexivity|].
  intros. apply Script1Facts.requires_onLine.
Qed.

Lemma functionRule_shift k l i :
  functionRule keccak256 l (i + k) = map (shift k) (functionRule keccak256 l i).
Proof.
  unfold functionRule. destruct (jsmatch functionRe l); [|reflexivity].
  cbv zeta. cbn [map shift line text signature].
  now replace (i + k + 1) with (i + 1 + k) by lia.
Qed.

Lemma errorRule_shift k l i :
  errorRule keccak256 l (i + k) = map (shift k) (errorRule keccak256 l i).
Proof.
  unfold errorRule. destruct (jsmatch errorRe l); [|reflexivity].
  cbv zeta. cbn [map shift line text signature].
  now replace (i + k + 1) with (i + 1 + k) by lia.
Qed.

Lemma requireRule_shift k l i :
  requireRule keccak256 l (i + k) = map (shift k) (requireRule keccak256 l i).
Proof.
  unfold requireRule. destruct (jsmatch requireRe l); [|reflexivity].
  cbv zeta. cbn [map shift line text signature].
  now replace (i + k + 1) with (i + 1 + k) by lia.
Qed.

Lemma collect_concat rule s1 s2 :
  (forall k l i, rule l (i + k) = map (shift k) (rule l i)) ->
  collect rule (split 10%N (s1 ++ 10%N :: s2)) 0
  = collect rule (split 10%N s1) 0
    ++ map (shift (length (split 10%N s1))) (collect rule (split 10%N s2) 0).
Proof.
  intros H. rewrite split_app, collect_app. f_equal.
  apply collect_shift. apply H.
Qed.

End WithHash.
End ConcatFacts.

(** No state is carried from one line to the next: the records of two
    sources joined by a newline are the records of the first, followed by
    the records of the second with their line numbers moved down by the
    number of lines of the first. *)
Theorem calculateSignatures_concat (keccak256 : jsstring -> jsstring) s1 s2 :
  let a := Script1.calculateSignatures keccak256 s1 in
  let b := Script1.calculateSignatures keccak256 s2 in
  let c := Script1.calculateSignatures keccak256 (s1 ++ 10%N :: s2) in
  let n := length (split 10%N s1) in
  Script1.functions c
    = Script1.functions a ++ map (shift n) (Script1.functions b)
  /\ Script1.errors c = Script1.errors a ++ map (shift n) (Script1.errors b)
  /\ Script1.requires c
    = Script1.requires a ++ map (shift n) (Script1.requires b).
Proof.
  cbv zeta. rewrite !ConcatFacts.functions_collect, !ConcatFacts.errors_collect,
    !ConcatFacts.requires_collect.
  repeat split; apply ConcatFacts.collect_concat; intros k l i.
  - apply ConcatFacts.functionRule_shift.
  - apply ConcatFacts.errorRule_shift.
  - apply ConcatFacts.requireRule_shift.
Qed.

(* ================================================================== *)
(** ** When the second script throws *)
(* ================================================================== *)

Module ThrowFacts.
Import RunFacts.

Lemma canonicalType2_result input :
  Script2.canonicalType input
  = if untyped input then Raise TypeError
    else Ok (cap 1 (match jsmatch canonRe (trim input) with
                    | Some mt => mt
                    | None => []
                    end)).
Proof.
  unfold untyped. rewrite <- CanonShape.canon_matches_iff.
  unfold Script2.canonicalType, matches.
  now destruct (jsmatch canonRe (trim input)).
Qed.

Lemma mapM_canonicalType inputs :
  if existsb untyped inputs
  then mapM Script2.canonicalType inputs = Raise TypeError
  else exists types, mapM Script2.canonicalType inputs = Ok types.
Proof.
  induction inputs as [|i inputs IH]; cbn [existsb mapM]; [now eexists|].
  rewrite canonicalType2_result. destruct (untyped i); cbn [orb bind].
  - reflexivity.
  - destruct (existsb untyped inputs).
    + now rewrite IH.
    + destruct IH as [types ->]. now eexists.
Qed.

Lemma getCanonicalForm2_result name inputs :
  if existsb untyped inputs
  then Script2.getCanonicalForm name inputs = Raise TypeError
  else exists t, Script2.getCanonicalForm name inputs = Ok t.
Proof.
  unfold Script2.getCanonicalForm.
  pose proof (mapM_canonicalType inputs) as H.
  destruct (existsb untyped inputs).
  - now rewrite H.
  - destruct H as [types ->]. now eexists.
Qed.

Section WithHash.
Variable keccak256 : jsstring -> jsstring.

Lemma matchPublicVar_ok l st :
  exists st', Script2.matchPublicVar keccak256 l st = Ok st'.
Proof.
  unfold Script2.matchPublicVar.
  destruct (jsmatch publicRe l) as [pm|]; [|now eexists].
  destruct (jsmatch varRe l) as [vm|] eqn:E; [|now eexists].
  apply var_captures in E as [g0 [g3 [c1 [w1 [c2 [w2 [-> [H1 H2]]]]]]]].
  unfold Script2.getCanonicalForm. cbn [mapM].
  change (cap 1 [(0, g0); (3, g3); (2, c2 :: w2); (1, c1 :: w1)])
    with (c1 :: w1).
  rewrite canonicalType2_word by assumption. now eexists.
Qed.

(** The callback throws exactly on the lines described by [throwsOn],
    whatever the records made so far. *)
Lemma onLine2_result l index st :
  if throwsOn l
  then Script2.onLine keccak256 l index st = Raise TypeError
  else exists st', Script2.onLine keccak256 l index st = Ok st'.
Proof.
  unfold throwsOn, Script2.onLine, Script2.matchFunction, Script2.matchError.
  destruct (jsmatch functionRe l) as [fm|].
  - pose proof (getCanonicalForm2_result (cap 1 fm)
                  (splitParams (group_or_empty 2 fm))) as Hf.
    destruct (existsb untyped (splitParams (group_or_empty 2 fm)));
      cbn [orb]; [now rewrite Hf|].
    destruct Hf as [t ->]. cbn [bind].
    destruct (jsmatch errorRe l) as [em|].
    + pose proof (getCanonicalForm2_result (cap 1 em)
                    (splitParams (group_or_empty 2 em))) as He.
      destruct (existsb untyped (splitParams (group_or_empty 2 em)));
        [now rewrite He|].
      destruct He as [t' ->]. cbn [bind]. apply matchPublicVar_ok.
    + cbn [bind]. apply matchPublicVar_ok.
  - cbn [bind orb].
    destruct (jsmatch errorRe l) as [em|].
    + pose proof (getCanonicalForm2_result (cap 1 em)
                    (splitParams (group_or_empty 2 em))) as He.
      destruct (existsb untyped (splitParams (group_or_empty 2 em)));
        [now rewrite He|].
      destruct He as [t' ->]. cbn [bind]. apply matchPublicVar_ok.
    + cbn [bind]. apply matchPublicVar_ok.
Qed.

Lemma forEachM_result lines : forall index st,
  if existsb throwsOn lines
  then forEachM (Script2.onLine keccak256) lines index st = Raise TypeError
  else exists st', forEachM (Script2.onLine keccak256) lines index st = Ok st'.
Proof.
  induction lines as [|l lines IH]; intros index st;
    cbn [existsb forEachM]; [now eexists|].
  pose proof (onLine2_result l index st) as H.
  destruct (throwsOn l); cbn [orb]; [now rewrite H|].
  destruct H as [st1 ->]. cbn [bind]. apply IH.
Qed.

End WithHash.
End ThrowFacts.

(* ================================================================== *)
(** ** The hash call that can throw *)
(* ================================================================== *)

Module ExnFacts.
Import RunFacts.

Section Steps.
Variable keccak256 : jsstring -> result jsstring.
Variable St : Type.

(** A step that does nothing. *)
Lemma step_skip : step_spec keccak256 (fun st : St => Ok st) (fun st => Ok st)
                    false [].
Proof. intros st. repeat split. constructor. Qed.

(** Two steps in sequence. *)
Lemma step_bind (f1 g1 f2 g2 : St -> result St) b1 b2 i1 i2 :
  step_spec keccak256 f1 g1 b1 i1 -> step_spec keccak256 f2 g2 b2 i2 ->
  step_spec keccak256 (fun st => bind (f1 st) f2) (fun st => bind (g1 st) g2)
    (b1 || b2) (i1 ++ i2).
Proof.
  intros H1 H2 st. specialize (H1 st).
  destruct (f1 st) as [st1|e]; cbn [bind].
  - destruct H1 as [-> [-> F1]]. cbn [bind orb]. specialize (H2 st1).
    destruct (f2 st1) as [st2|e].
    + destruct H2 as [-> [-> F2]]. repeat split. now apply Forall_app.
    + destruct H2 as [[-> ->]|X]; [left; now split|right].
      apply Exists_app. now right.
  - destruct H1 as [[-> ->]|X]; [left; now split|right].
    apply Exists_app. now left.
Qed.

(** The loop over the lines, from the steps of the callback. *)
Lemma forEachM_step (f g : jsstring -> nat -> St -> result St)
      (throws : jsstring -> bool) (inputs : jsstring -> list jsstring) :
  (forall l i, step_spec keccak256 (f l i) (g l i) (throws l) (inputs l)) ->
  forall lines i,
    step_spec keccak256 (forEachM f lines i) (forEachM g lines i)
      (existsb throws lines) (flat_map inputs lines).
Proof.
  intros H. induction lines as [|l lines IH]; intros i.
  - apply step_skip.
  - apply (step_bind (H l i) (IH (S i))).
Qed.

End Steps.

(** A loop whose callback never throws. *)
Lemma forEachM_pure {A St} (f : A -> nat -> St -> St) lines : forall i st,
  forEachM (fun a i st => Ok (f a i st)) lines i st
  = Ok (forEach f lines i st).
Proof.
  induction lines as [|l lines IH]; intros i st; cbn [forEachM forEach bind];
    [reflexivity|apply IH].
Qed.

Lemma no_throw (b1 b2 : bool) : b1 || (b2 || (false || false)) = b1 || b2.
Proof. now rewrite !orb_false_r. Qed.

(** The canonical form of a getter never throws. *)
Lemma getter_form l mt :
  jsmatch varRe l = Some mt ->
  Script2.getCanonicalForm (cap 2 mt) [cap 1 mt] = Ok (getterText mt).
Proof.
  intros E.
  apply var_captures in E as [g0 [g3 [c1 [w1 [c2 [w2 [-> [H1 H2]]]]]]]].
  unfold Script2.getCanonicalForm, getterText. cbn [mapM].
  change (cap 1 [(0, g0); (3, g3); (2, c2 :: w2); (1, c1 :: w1)])
    with (c1 :: w1).
  rewrite canonicalType2_word by assumption. reflexivity.
Qed.

Section WithHash.
Variable keccak256 : jsstring -> result jsstring.

(** *** The rules of the first script *)

Lemma matchFunction1_step l i :
  step_spec keccak256 (Script1Exn.matchFunction keccak256 l i)
    (fun st => Ok (Script1.matchFunction (returned keccak256) l i st)) false
    match jsmatch functionRe l with
    | Some mt =>
        [Script1.getCanonicalForm (cap 1 mt)
           (splitParams (group_or_empty 2 mt))]
    | None => []
    end.
Proof.
  intros st. unfold Script1Exn.matchFunction, Script1.matchFunction,
    Script1Exn.getKeccak256, Script1.getKeccak256, returned, hashable.
  destruct (jsmatch functionRe l) as [mt|]; cbv zeta.
  - destruct (keccak256 _) as [h|e] eqn:E; cbn [bind].
    + repeat split. constructor; [now exists h|constructor].
    + right. now constructor.
  - repeat split. constructor.
Qed.

Lemma matchError1_step l i :
  step_spec keccak256 (Script1Exn.matchError keccak256 l i)
    (fun st => Ok (Script1.matchError (returned keccak256) l i st)) false
    match jsmatch errorRe l with
    | Some mt =>
        [Script1.getCanonicalForm (cap 1 mt)
           (splitParams (group_or_empty 2 mt))]
    | None => []
    end.
Proof.
  intros st. unfold Script1Exn.matchError, Script1.matchError,
    Script1Exn.getKeccak256, Script1.getKeccak256, returned, hashable.
  destruct (jsmatch errorRe l) as [mt|]; cbv zeta.
  - destruct (keccak256 _) as [h|e] eqn:E; cbn [bind].
    + repeat split. constructor; [now exists h|constructor].
    + right. now constructor.
  - repeat split. constructor.
Qed.

Lemma matchRequire1_step l i :
  step_spec keccak256 (Script1Exn.matchRequire keccak256 l i)
    (fun st => Ok (Script1.matchRequire (returned keccak256) l i st)) false
    match jsmatch requireRe l with
    | Some mt => [cap 2 mt]
    | None => []
    end.
Proof.
  intros st. unfold Script1Exn.matchRequire, Script1.matchRequire,
    Script1Exn.getKeccak256, Script1.getKeccak256, returned, hashable.
  destruct (jsmatch requireRe l) as [mt|]; cbv zeta.
  - destruct (keccak256 _) as [h|e] eqn:E; cbn [bind].
    + repeat split. constructor; [now exists h|constructor].
    + right. now constructor.
  - repeat split. constructor.
Qed.

(** The callback of the first script: it throws only where the hash call
    does, and returns what it returns with the hash read as a function. *)
Lemma onLine1_step l i :
  step_spec keccak256 (Script1Exn.onLine keccak256 l i)
    (fun st => Ok (Script1.onLine (returned keccak256) l i st)) false
    (hashInputs1 l).
Proof.
  exact (step_bind (matchFunction1_step l i)
           (step_bind (matchError1_step l i) (matchRequire1_step l i))).
Qed.

Lemma calculateSignatures1_step source :
  match Script1Exn.calculateSignatures keccak256 source with
  | Ok st =>
      st = Script1.calculateSignatures (returned keccak256) source
      /\ Forall (hashable keccak256) (flat_map hashInputs1 (split 10%N source))
  | Raise e =>
      Exists (fun t => keccak256 t = Raise e)
        (flat_map hashInputs1 (split 10%N source))
  end.
Proof.
  pose proof (@forEachM_step keccak256 _ _ _ _ _ onLine1_step
                (split 10%N source) 0 (Script1.mkSigs [] [] [])) as H.
  unfold Script1Exn.calculateSignatures, Script1.calculateSignatures.
  cbv zeta.
  destruct (forEachM (Script1Exn.onLine keccak256) (split 10%N source) 0
              (Script1.mkSigs [] [] [])) as [st|e].
  - destruct H as [E [_ F]]. rewrite forEachM_pure in E.
    inversion E. now split.
  - destruct H as [[T _]|X]; [|exact X].
    exfalso. clear -T. induction (split 10%N source) as [|l ls IH];
      cbn [existsb orb] in T; [discriminate|auto].
Qed.

(** *** The rules of the second script *)

Lemma form_step name inputs (F : Script2.sigs -> jsstring -> jsstring
                                   -> Script2.sigs) :
  step_spec keccak256
    (fun st =>
       canonicalForm <- Script2.getCanonicalForm name inputs ;;;
       signature <- Script2Exn.getKeccak256 keccak256 canonicalForm ;;;
       Ok (F st canonicalForm signature))
    (fun st =>
       canonicalForm <- Script2.getCanonicalForm name inputs ;;;
       Ok (F st canonicalForm
             (Script2.getKeccak256 (returned keccak256) canonicalForm)))
    (existsb untyped inputs) (formText2 name inputs).
Proof.
  intros st. unfold formText2.
  pose proof (ThrowFacts.getCanonicalForm2_result name inputs) as H.
  destruct (existsb untyped inputs).
  - rewrite H. cbn [bind]. left. now split.
  - destruct H as [t ->]. cbn [bind].
    unfold Script2Exn.getKeccak256, Script2.getKeccak256, returned, hashable.
    destruct (keccak256 t) as [h|e] eqn:E; cbn [bind].
    + repeat split. constructor; [now exists h|constructor].
    + right. now constructor.
Qed.

Lemma matchFunction2_step l i :
  step_spec keccak256 (Script2Exn.matchFunction keccak256 l i)
    (Script2.matchFunction (returned keccak256) l i)
    match jsmatch functionRe l with
    | Some mt => existsb untyped (splitParams (group_or_empty 2 mt))
    | None => false
    end
    match jsmatch functionRe l with
    | Some mt => formText2 (cap 1 mt) (splitParams (group_or_empty 2 mt))
    | None => []
    end.
Proof.
  unfold Script2Exn.matchFunction, Script2.matchFunction.
  destruct (jsmatch functionRe l) as [mt|]; cbv zeta; [|apply step_skip].
  exact (form_step (cap 1 mt) (splitParams (group_or_empty 2 mt))
           (fun st canonicalForm signature =>
              Script2.mkSigs
                (Script2.functions st
                 ++ [mkEntry (i + 1) canonicalForm signature])
                (Script2.errors st) (Script2.requires st)
                (Script2.getters st))).
Qed.

Lemma matchError2_step l i :
  step_spec keccak256 (Script2Exn.matchError keccak256 l i)
    (Script2.matchError (returned keccak256) l i)
    match jsmatch errorRe l with
    | Some mt => existsb untyped (splitParams (group_or_empty 2 mt))
    | None => false
    end
    match jsmatch errorRe l with
    | Some mt => formText2 (cap 1 mt) (splitParams (group_or_empty 2 mt))
    | None => []
    end.
Proof.
  unfold Script2Exn.matchError, Script2.matchError.
  destruct (jsmatch errorRe l) as [mt|]; cbv zeta; [|apply step_skip].
  exact (form_step (cap 1 mt) (splitParams (group_or_empty 2 mt))
           (fun st canonicalForm signature =>
              Script2.mkSigs (Script2.functions st)
                (Script2.errors st
                 ++ [mkEntry (i + 1) canonicalForm signature])
                (Script2.requires st) (Script2.getters st))).
Qed.

Lemma matchRequire2_step l i :
  step_spec keccak256 (Script2Exn.matchRequire keccak256 l i)
    (fun st => Ok (Script2.matchRequire (returned keccak256) l i st)) false
    match jsmatch requireRe l with
    | Some mt => [cap 2 mt]
    | None => []
    end.
Proof.
  intros st. unfold Script2Exn.matchRequire, Script2.matchRequire,
    Script2Exn.getKeccak256, Script2.getKeccak256, returned, hashable.
  destruct (jsmatch requireRe l) as [mt|]; cbv zeta.
  - destruct (keccak256 _) as [h|e] eqn:E; cbn [bind].
    + repeat split. constructor; [now exists h|constructor].
    + right. now constructor.
  - repeat split. constructor.
Qed.

Lemma matchPublicVar2_step l :
  step_spec keccak256 (Script2Exn.matchPublicVar keccak256 l)
    (Script2.matchPublicVar (returned keccak256) l) false
    match jsmatch publicRe l, jsmatch varRe l with
    | Some _, Some mt => formText2 (cap 2 mt) [cap 1 mt]
    | _, _ => []
    end.
Proof.
  unfold Script2Exn.matchPublicVar, Script2.matchPublicVar.
  destruct (jsmatch publicRe l) as [pm|]; [|apply step_skip].
  destruct (jsmatch varRe l) as [mt|] eqn:E; cbv zeta; [|apply step_skip].
  pose proof (form_step (cap 2 mt) [cap 1 mt]
                (fun st canonicalForm signature =>
                   Script2.mkSigs (Script2.functions st) (Script2.errors st)
                     (Script2.requires st)
                     (Script2.getters st
                      ++ [mkGetter canonicalForm signature]))) as H.
  replace (existsb untyped [cap 1 mt]) with false in H; [exact H|].
  pose proof (ThrowFacts.getCanonicalForm2_result (cap 2 mt) [cap 1 mt]) as T.
  destruct (existsb untyped [cap 1 mt]); [|reflexivity].
  rewrite (getter_form _ E) in T. discriminate.
Qed.

(** The callback of the second script: it throws where a canonical form
    throws ([throwsOn]) and where the hash call does. *)
Lemma onLine2_step l i :
  step_spec keccak256 (Script2Exn.onLine keccak256 l i)
    (Script2.onLine (returned keccak256) l i) (throwsOn l) (hashInputs2 l).
Proof.
  pose proof (step_bind (matchFunction2_step l i)
                (step_bind (matchError2_step l i)
                   (step_bind (matchRequire2_step l i)
                      (matchPublicVar2_step l)))) as H.
  rewrite no_throw in H. exact H.
Qed.

Lemma calculateSignatures2_step source :
  match Script2Exn.calculateSignatures keccak256 source with
  | Ok st =>
      Script2.calculateSignatures (returned keccak256) source = Ok st
      /\ existsb throwsOn (split 10%N source) = false
      /\ Forall (hashable keccak256) (flat_map hashInputs2 (split 10%N source))
  | Raise e =>
      (existsb throwsOn (split 10%N source) = true /\ e = TypeError)
      \/ Exists (fun t => keccak256 t = Raise e)
           (flat_map hashInputs2 (split 10%N source))
  end.
Proof.
  exact (@forEachM_step keccak256 _ _ _ _ _ onLine2_step
           (split 10%N source) 0 (Script2.mkSigs [] [] [] [])).
Qed.

End WithHash.
End ExnFacts.

(** The second script abandons a file exactly when one of its lines is
    matched by the function or the error pattern and holds a parameter
    fragment without type, or when the hash call throws on one of the texts
    it is given (the canonical text of a function, error or getter record, or
    a require message); otherwise it returns its four lists.  A file on which
    no canonical form throws is abandoned with the exception of the hash
    call. *)
Theorem second_script_throws_iff (keccak256 : jsstring -> result jsstring)
        source :
  let lines := split 10%N source in
  ((exists e, Script2Exn.calculateSignatures keccak256 source = Raise e)
   <-> existsb throwsOn lines = true
       \/ exists t e, In t (flat_map hashInputs2 lines)
                      /\ keccak256 t = Raise e)
  /\ ((exists st, Script2Exn.calculateSignatures keccak256 source = Ok st)
      <-> existsb throwsOn lines = false
          /\ forall t, In t (flat_map hashInputs2 lines) ->
                       exists h, keccak256 t = Ok h)
  /\ (forall e,
        Script2Exn.calculateSignatures keccak256 source = Raise e ->
        existsb throwsOn lines = false ->
        exists t, In t (flat_map hashInputs2 lines) /\ keccak256 t = Raise e).
Proof.
  intros lines. subst lines.
  pose proof (ExnFacts.calculateSignatures2_step keccak256 source) as H.
  destruct (Script2Exn.calculateSignatures keccak256 source) as [st|e].
  - destruct H as [_ [T F]]. split; [|split].
    + split; [intros [e E]; discriminate|].
      intros [T'|[t [e [Ht E]]]]; [congruence|]. exfalso.
      rewrite Forall_forall in F. destruct (F t Ht) as [h Eh]. congruence.
    + split; [intros _|intros _; now exists st].
      split; [exact T|]. rewrite Forall_forall in F. exact F.
    + intros e E. discriminate.
  - split; [|split].
    + split; [intros _|intros _; now exists e].
      destruct H as [[T _]|X]; [now left|right].
      apply Exists_exists in X as [t [Ht E]]. now exists t, e.
    + split; [intros [st E]; discriminate|]. intros [T F]. exfalso.
      destruct H as [[T' _]|X]; [congruence|].
      apply Exists_exists in X as [t [Ht E]].
      destruct (F t Ht) as [h Eh]. congruence.
    + intros e' E T. inversion E; subst e'.
      destruct H as [[T' _]|X]; [congruence|].
      apply Exists_exists in X as [t [Ht Er]]. now exists t.
Qed.

Lemma second_script_throws_iff_sample :
  Script2Exn.calculateSignatures sampleKeccak256 oddLiteralLine
  = Raise Web3Error
  /\ existsb throwsOn (split 10%N oddLiteralLine) = false
  /\ exists t,
       In t (flat_map hashInputs2 (split 10%N oddLiteralLine))
       /\ sampleKeccak256 t = Raise Web3Error.
Proof.
  assert (H1 : Script2Exn.calculateSignatures sampleKeccak256 oddLiteralLine
               = Raise Web3Error) by (vm_compute; reflexivity).
  assert (H2 : existsb throwsOn (split 10%N oddLiteralLine) = false)
    by (vm_compute; reflexivity).
  split; [exact H1|]. split; [exact H2|].
  exact (proj2 (proj2 (second_script_throws_iff sampleKeccak256
                         oddLiteralLine)) _ H1 H2).
Defined.

(** The first script's analysis of a file throws exactly when the hash call
    throws on one of the texts it is given (the canonical text of a function
    or error record, or a require message), and with that exception; nothing
    else makes it throw. *)
Theorem first_script_throws_iff (keccak256 : jsstring -> result jsstring)
        source :
  let texts := flat_map hashInputs1 (split 10%N source) in
  (forall e,
      Script1Exn.calculateSignatures keccak256 source = Raise e ->
      exists t, In t texts /\ keccak256 t = Raise e)
  /\ ((exists e, Script1Exn.calculateSignatures keccak256 source = Raise e)
      <-> exists t e, In t texts /\ keccak256 t = Raise e)
  /\ ((exists st, Script1Exn.calculateSignatures keccak256 source = Ok st)
      <-> forall t, In t texts -> exists h, keccak256 t = Ok h).
Proof.
  intros texts. subst texts.
  pose proof (ExnFacts.calculateSignatures1_step keccak256 source) as H.
  destruct (Script1Exn.calculateSignatures keccak256 source) as [st|e].
  - destruct H as [_ F]. rewrite Forall_forall in F. split; [|split].
    + intros e E. discriminate.
    + split; [intros [e E]; discriminate|].
      intros [t [e [Ht E]]]. exfalso. destruct (F t Ht) as [h Eh]. congruence.
    + split; [intros _; exact F|intros _; now exists st].
  - apply Exists_exists in H as [t [Ht E]]. split; [|split].
    + intros e' E'. inversion E'; subst e'. now exists t.
    + split; [intros _; now exists t, e|intros _; now exists e].
    + split; [intros [st E']; discriminate|].
      intros F. exfalso. destruct (F t Ht) as [h Eh]. congruence.
Qed.

Lemma first_script_throws_iff_sample :
  Script1Exn.calculateSignatures sampleKeccak256 oddLiteralLine
  = Raise Web3Error
  /\ exists t,
       In t (flat_map hashInputs1 (split 10%N oddLiteralLine))
       /\ sampleKeccak256 t = Raise Web3Error.
Proof.
  assert (H1 : Script1Exn.calculateSignatures sampleKeccak256 oddLiteralLine
               = Raise Web3Error) by (vm_compute; reflexivity).
  split; [exact H1|].
  exact (proj1 (first_script_throws_iff sampleKeccak256 oddLiteralLine) _ H1).
Defined.

(** Whenever the analysis returns, its lists are the ones computed with the
    hash read as the function that gives the returned values; and when the
    hash call returns on every text, the analysis of each script is that
    computation: the first script returns, the second returns or throws the
    [TypeError] of a canonical form. *)
Theorem analysis_when_hash_returns (keccak256 : jsstring -> result jsstring)
        source :
  (forall st,
      Script1Exn.calculateSignatures keccak256 source = Ok st ->
      st = Script1.calculateSignatures (returned keccak256) source)
  /\ (forall st,
        Script2Exn.calculateSignatures keccak256 source = Ok st ->
        Script2.calculateSignatures (returned keccak256) source = Ok st)
  /\ ((forall t, exists h, keccak256 t = Ok h) ->
      Script1Exn.calculateSignatures keccak256 source
      = Ok (Script1.calculateSignatures (returned keccak256) source)
      /\ Script2Exn.calculateSignatures keccak256 source
         = Script2.calculateSignatures (returned keccak256) source).
Proof.
  pose proof (ExnFacts.calculateSignatures1_step keccak256 source) as H1.
  pose proof (ExnFacts.calculateSignatures2_step keccak256 source) as H2.
  split; [|split].
  - intros st E. rewrite E in H1. apply H1.
  - intros st E. rewrite E in H2. apply H2.
  - intros Hk. split.
    + destruct (Script1Exn.calculateSignatures keccak256 source) as [st|e].
      * destruct H1 as [-> _]. reflexivity.
      * exfalso. apply Exists_exists in H1 as [t [_ E]].
        destruct (Hk t) as [h Eh]. congruence.
    + destruct (Script2Exn.calculateSignatures keccak256 source) as [st|e].
      * destruct H2 as [-> _]. reflexivity.
      * destruct H2 as [[T ->]|X].
        -- pose proof (ThrowFacts.forEachM_result (returned keccak256)
                         (split 10%N source) 0 (Script2.mkSigs [] [] [] []))
             as R.
           rewrite T in R. symmetry. exact R.
        -- exfalso. apply Exists_exists in X as [t [_ E]].
           destruct (Hk t) as [h Eh]. congruence.
Qed.

Lemma analysis_when_hash_returns_sample :
  (exists st,
      Script1Exn.calculateSignatures sampleKeccak256 sampleSource = Ok st
      /\ st = Script1.calculateSignatures (returned sampleKeccak256)
                sampleSource)
  /\ (forall t, exists h, (fun t => Ok (Keccak.keccak256 t)) t = Ok h)
  /\ Script2Exn.calculateSignatures (fun t => Ok (Keccak.keccak256 t))
       lostGetterLine
     = Script2.calculateSignatures
         (returned (fun t => Ok (Keccak.keccak256 t))) lostGetterLine.
Proof.
  assert (X : exists st,
             Script1Exn.calculateSignatures sampleKeccak256 sampleSource
             = Ok st)
    by (vm_compute; eexists; reflexivity).
  assert (T : forall t, exists h, (fun t => Ok (Keccak.keccak256 t)) t = Ok h)
    by (intros t; eexists; reflexivity).
  split; [|split; [exact T|]].
  - destruct X as [st E]. exists st. split; [exact E|].
    exact (proj1 (analysis_when_hash_returns sampleKeccak256 sampleSource)
             st E).
  - exact (proj2 (proj2 (proj2 (analysis_when_hash_returns
                                  (fun t => Ok (Keccak.keccak256 t))
                                  lostGetterLine)) T)).
Defined.

(* ================================================================== *)
(** ** The record of a function declaration *)
(* ================================================================== *)

Module ParamFacts.
Import JsFacts LineFacts.

Lemma split_whole p :
  forallb no_comma p = true -> split (ch ",") p = [p].
Proof.
  induction p as [|c p IH]; cbn [split forallb]; [reflexivity|].
  intros H. apply andb_true_iff in H as [Hc Hp]. unfold no_comma in Hc.
  apply negb_true_iff in Hc. rewrite Hc, (IH Hp). reflexivity.
Qed.

(** Joining fragments with commas and splitting again gives them back, when
    no fragment is empty or holds a comma. *)
Lemma splitParams_join ps :
  Forall (fun p => p <> [] /\ forallb no_comma p = true) ps ->
  splitParams (join (js ",") ps) = ps.
Proof.
  unfold splitParams. induction 1 as [|p ps [Hn Hp] Hps IH]; [reflexivity|].
  destruct ps as [|q ps].
  - cbn [join]. rewrite split_whole by assumption.
    destruct p; [congruence|reflexivity].
  - change (join (js ",") (p :: q :: ps))
      with (p ++ ch "," :: join (js ",") (q :: ps)).
    rewrite ConcatFacts.split_app, split_whole, filter_app by assumption.
    rewrite IH. destruct p; [congruence|reflexivity].
Qed.

Lemma space_no_comma c : is_space c = true -> no_comma c = true.
Proof.
  intros H. unfold no_comma. apply negb_true_iff.
  destruct (N.eqb_spec c (ch ",")) as [->|]; [discriminate|reflexivity].
Qed.

Lemma word_no_comma c : is_word c = true -> no_comma c = true.
Proof.
  intros H. unfold no_comma. apply negb_true_iff.
  destruct (N.eqb_spec c (ch ",")) as [->|]; [discriminate|reflexivity].
Qed.

Lemma spaces_no_comma l : forallb is_space l = true -> forallb no_comma l = true.
Proof. apply forallb_weaken, space_no_comma. Qed.

Lemma words_no_comma l : forallb is_word l = true -> forallb no_comma l = true.
Proof. apply forallb_weaken, word_no_comma. Qed.

(** The first script on an array type without a name. *)
Lemma canonicalType1_array lead ty trail :
  forallb is_space lead = true -> forallb is_space trail = true ->
  ty <> [] -> forallb is_word ty = true ->
  Script1.canonicalType (lead ++ ty ++ js "[]" ++ trail) = ty ++ js "[]".
Proof.
  intros Hl Ht Hty Hw. destruct ty as [|c1 w1]; [congruence|].
  assert (T : trim (lead ++ (c1 :: w1) ++ js "[]" ++ trail)
              = c1 :: w1 ++ js "[]").
  { replace (lead ++ (c1 :: w1) ++ js "[]" ++ trail)
      with (lead ++ (c1 :: w1 ++ js "[]") ++ trail)
      by (cbn [app]; now rewrite <- !app_assoc).
    apply trim_framed; try assumption.
    - apply word_not_space. now apply forallb_head in Hw.
    - intros m' d E.
      change (w1 ++ js "[]") with (w1 ++ [ch "["] ++ [ch "]"]) in E.
      rewrite app_assoc in E. apply app_inj_tail in E as [_ <-].
      reflexivity. }
  destruct (@CanonShape.canon_array_at None c1 w1 Hw) as [whole E].
  apply ReFacts.search_here in E. cbn [caps] in E.
  unfold Script1.canonicalType, jsmatch. rewrite T, E. reflexivity.
Qed.

(** A parameter is not empty, holds no comma, and its type token in the
    first script is its type. *)
Lemma parameter_plain p ty :
  parameter p ty -> p <> [] /\ forallb no_comma p = true.
Proof.
  intros H. split.
  - destruct H as [lead ty trail _ _ Hty _
                  |lead ty sep name trail _ _ Hty _ _ _ _ _
                  |lead ty trail _ _ Hty _];
      destruct lead, ty; try congruence; discriminate.
  - destruct H; rewrite !forallb_app;
      repeat (apply andb_true_iff; split);
      try (now apply spaces_no_comma); try (now apply words_no_comma);
      reflexivity.
Qed.

Lemma parameter_type p ty :
  parameter p ty -> Script1.canonicalType p = ty.
Proof.
  intros [lead ty' trail Hl Ht Hty Hw
         |lead ty' sep name trail Hl Ht Hty Hw Hs Hsp Hn Hnw
         |lead ty' trail Hl Ht Hty Hw].
  - apply (@canonicalType_of_type_and_name lead ty' [] [] trail);
      try assumption; reflexivity.
  - apply canonicalType_of_type_and_name; try assumption.
    split; intros; congruence.
  - now apply canonicalType1_array.
Qed.

Lemma parameters_types ps types :
  Forall2 parameter ps types -> map Script1.canonicalType ps = types.
Proof.
  induction 1 as [|p ty ps types H _ IH]; cbn [map]; [reflexivity|].
  now rewrite (parameter_type H), IH.
Qed.

Lemma parameters_plain ps types :
  Forall2 parameter ps types ->
  Forall (fun p => p <> [] /\ forallb no_comma p = true) ps.
Proof.
  induction 1 as [|p ty ps types H _ IH]; constructor; [|exact IH].
  now apply parameter_plain with ty.
Qed.

End ParamFacts.

(** C6 (amended).  For every line the function pattern accepts, with the
    captured name and parameter text: when the parameter text is a
    comma-separated list of parameters, each one a type word, a type word
    followed by blanks and a name, or a type word directly followed by
    [[]], with any blanks around it, the function rule pushes one record on
    [functions] with the number of the line, the text [name(t1,...,tn)],
    where [ti] is the type of the i-th parameter in declaration order, and
    the first ten characters of the hash of that text; an empty parameter
    text gives [name()]. *)
Theorem function_record (keccak256 : jsstring -> result jsstring)
        l index st mt :
  jsmatch functionRe l = Some mt ->
  exists name params,
    group 1 mt = Some name /\ group 2 mt = Some params
    /\ name <> [] /\ forallb is_word name = true
    /\ (forall ps types h,
          params = join (js ",") ps ->
          Forall2 parameter ps types ->
          keccak256 (name ++ js "(" ++ join (js ",") types ++ js ")") = Ok h ->
          Script1Exn.matchFunction keccak256 l index st
          = Ok (Script1.mkSigs
                  (Script1.functions st
                   ++ [mkEntry (index + 1)
                         (name ++ js "(" ++ join (js ",") types ++ js ")")
                         (slice0 10 h)])
                  (Script1.errors st) (Script1.requires st)))
    /\ (forall h,
          params = [] ->
          keccak256 (name ++ js "()") = Ok h ->
          Script1Exn.matchFunction keccak256 l index st
          = Ok (Script1.mkSigs
                  (Script1.functions st
                   ++ [mkEntry (index + 1) (name ++ js "()") (slice0 10 h)])
                  (Script1.errors st) (Script1.requires st))).
Proof.
  intros H. pose proof H as H'.
  apply RunFacts.function_captures in H' as [g0 [c [w [params [E Hw]]]]].
  exists (c :: w), params. subst mt.
  split; [reflexivity|]. split; [reflexivity|]. split; [discriminate|].
  split; [assumption|].
  assert (R : forall ps types h,
             params = join (js ",") ps ->
             Forall2 parameter ps types ->
             keccak256 ((c :: w) ++ js "(" ++ join (js ",") types ++ js ")")
             = Ok h ->
             Script1Exn.matchFunction keccak256 l index st
             = Ok (Script1.mkSigs
                     (Script1.functions st
                      ++ [mkEntry (index + 1)
                            ((c :: w) ++ js "(" ++ join (js ",") types
                               ++ js ")")
                            (slice0 10 h)])
                     (Script1.errors st) (Script1.requires st))).
  { intros ps types h Ep Hps Hh.
    unfold Script1Exn.matchFunction. rewrite H. cbv zeta.
    change (cap 1 [(0, g0); (2, params); (1, c :: w)]) with (c :: w).
    change (group_or_empty 2 [(0, g0); (2, params); (1, c :: w)]) with params.
    rewrite Ep, (ParamFacts.splitParams_join (ParamFacts.parameters_plain Hps)).
    unfold Script1.getCanonicalForm. cbv zeta.
    rewrite (ParamFacts.parameters_types Hps).
    unfold Script1Exn.getKeccak256. rewrite Hh. reflexivity. }
  split; [exact R|].
  intros h Ep Hh. apply (R [] [] h Ep); [constructor|exact Hh].
Qed.

Lemma function_record_transfer :
  jsmatch functionRe transferLine
  = Some [(0, js "function transfer(address to, uint256 amount) ");
          (2, js "address to, uint256 amount"); (1, js "transfer")]
  /\ Forall2 parameter [js "address to"; js " uint256 amount"]
       [js "address"; js "uint256"]
  /\ sampleKeccak256 (js "transfer(address,uint256)")
     = Ok (Keccak.keccak256 (js "transfer(address,uint256)"))
  /\ Script1Exn.matchFunction sampleKeccak256 transferLine 0
       (Script1.mkSigs [] [] [])
     = Ok (Script1.mkSigs
             [mkEntry 1 (js "transfer(address,uint256)") (js "0xa9059cbb")]
             [] [])
  /\ Script1Exn.matchFunction sampleKeccak256 twoKindsLine 0
       (Script1.mkSigs [] [] [])
     = Ok (Script1.mkSigs [mkEntry 1 (js "f()") (js "0x26121ff0")] [] []).
Proof.
  assert (H : jsmatch functionRe transferLine
              = Some [(0, js "function transfer(address to, uint256 amount) ");
                      (2, js "address to, uint256 amount"); (1, js "transfer")])
    by (vm_compute; reflexivity).
  assert (P : Forall2 parameter [js "address to"; js " uint256 amount"]
                [js "address"; js "uint256"]).
  { constructor; [|constructor; [|constructor]].
    - apply (@param_named [] (js "address") (js " ") (js "to") []);
        try reflexivity; discriminate.
    - apply (@param_named (js " ") (js "uint256") (js " ") (js "amount") []);
        try reflexivity; discriminate. }
  assert (K : sampleKeccak256 (js "transfer(address,uint256)")
              = Ok (Keccak.keccak256 (js "transfer(address,uint256)")))
    by reflexivity.
  split; [exact H|]. split; [exact P|]. split; [exact K|]. split.
  - destruct (@function_record sampleKeccak256 transferLine 0
                (Script1.mkSigs [] [] []) _ H)
      as [name [params [G1 [G2 [_ [_ [R _]]]]]]].
    cbn in G1, G2. inversion G1; inversion G2; subst name params.
    rewrite (R [js "address to"; js " uint256 amount"]
               [js "address"; js "uint256"] _ eq_refl P K).
    vm_compute. reflexivity.
  - assert (H0 : jsmatch functionRe twoKindsLine
                 = Some [(0, js "function f() "); (2, []); (1, js "f")])
      by (vm_compute; reflexivity).
    destruct (@function_record sampleKeccak256 twoKindsLine 0
                (Script1.mkSigs [] [] []) _ H0)
      as [name [params [G1 [G2 [_ [_ [_ R]]]]]]].
    cbn in G1, G2. inversion G1; inversion G2; subst name params.
    rewrite (R _ eq_refl eq_refl). vm_compute. reflexivity.
Defined.

(** C6, as stated, fails.  The parameter text ends at the first closing
    parenthesis, so a parameter of function type hides the ones after it:
    the two parameters of [g] give one type.  And with a storage-location
    keyword the text of the record holds the keyword, not the type. *)
Lemma function_record_not_the_parameter_types :
  map text
    (Script1.functions
       (Script1.calculateSignatures Keccak.keccak256
          (js "function g(function(uint256) external cb, address to) public")))
  = [js "g(uint256)"]
  /\ map text
       (Script1.functions
          (Script1.calculateSignatures Keccak.keccak256
             (js "function f(uint256 calldata x) external")))
     = [js "f(calldata)"]
  /\ Script1Exn.matchFunction sampleKeccak256
       (js "function f(uint256 calldata x) external") 0
       (Script1.mkSigs [] [] [])
     = Ok (Script1.mkSigs
             [mkEntry 1 (js "f(calldata)")
                (slice0 10 (Keccak.keccak256 (js "f(calldata)")))] [] [])
  /\ js "g(uint256)" <> js "g(function(uint256),address)"
  /\ js "f(calldata)" <> js "f(uint256)".
Proof. vm_compute. repeat split; discriminate. Qed.

(* ================================================================== *)
(** ** Getters of the second script *)
(* ================================================================== *)

Module GetterFacts.
Section WithHash.
Variable keccak256 : jsstring -> result jsstring.




End WithHash.
End GetterFacts.




(** A parameter list of the second script gives a canonical form exactly
    when every fragment has a type. *)
Theorem getCanonicalForm2_throws_iff name inputs :
  Script2.getCanonicalForm name inputs = Raise TypeError
  <-> exists input, In input inputs /\ ends_with_type (trim input) = false.
Proof.
  pose proof (ThrowFacts.getCanonicalForm2_result name inputs) as H.
  destruct (existsb untyped inputs) eqn:E.
  - split; [intros _|intros _; exact H].
    apply existsb_exists in E as [i [Hi Hu]]. exists i. split; [exact Hi|].
    unfold untyped in Hu. now apply negb_true_iff in Hu.
  - destruct H as [t Ht]. rewrite Ht. split; [discriminate|].
    intros [i [Hi Hu]]. exfalso.
    assert (existsb untyped inputs = true); [|congruence].
    apply existsb_exists. exists i. split; [exact Hi|].
    unfold untyped. now rewrite Hu.
Qed.

(* ================================================================== *)
(** ** The two scripts side by side *)
(* ================================================================== *)

Module AgreeFacts.
Section WithHash.
Variable keccak256 : jsstring -> jsstring.

Lemma onLine_agree l index a b b' :
  Script2.onLine keccak256 l index b = Ok b' ->
  agree a b -> agree (Script1.onLine keccak256 l index a) b'.
Proof.
  unfold agree. intros H [Hr [Hf He]].
  rewrite Script1Facts.functions_onLine, Script1Facts.errors_onLine,
    Script1Facts.requires_onLine.
  unfold Script2.onLine, Script2.matchFunction, Script2.matchError,
    Script2.matchRequire, Script2.matchPublicVar in H.
  destruct (jsmatch functionRe l) as [fm|];
    [destruct (Script2.getCanonicalForm _ _) as [ft|]; [|discriminate]|];
    cbn [bind] in H;
    (destruct (jsmatch errorRe l) as [em|];
     [destruct (Script2.getCanonicalForm _ _) as [et|]; [|discriminate]|]);
    cbn [bind] in H;
    destruct (jsmatch requireRe l) as [rm|];
    (destruct (jsmatch publicRe l) as [pm|];
     [destruct (jsmatch varRe l) as [vm|];
      [destruct (Script2.getCanonicalForm _ _) as [gt|]; [|discriminate]|]|]);
    cbn [bind] in H; inversion H; subst; clear H;
    cbn [Script2.functions Script2.errors Script2.requires];
    rewrite ?map_app, ?app_nil_r, ?Hr, ?Hf, ?He; repeat split.
Qed.

Lemma forEach_agree lines : forall index a b b',
  forEachM (Script2.onLine keccak256) lines index b = Ok b' ->
  agree a b -> agree (forEach (Script1.onLine keccak256) lines index a) b'.
Proof.
  induction lines as [|l lines IH]; intros index a b b' H G.
  - inversion H; subst; exact G.
  - cbn [forEachM forEach] in *.
    destruct (Script2.onLine keccak256 l index b) as [b1|] eqn:E;
      [|discriminate].
    cbn [bind] in H. eapply IH; [exact H|]. eapply onLine_agree; eauto.
Qed.

End WithHash.
End AgreeFacts.

(** Whenever the second script returns for a source, its require records
    are those of the first script, and its function and error records sit
    on the same lines, in the same order, as those of the first script. *)
Theorem scripts_agree_when_second_returns
        (keccak256 : jsstring -> jsstring) source st2 :
  Script2.calculateSignatures keccak256 source = Ok st2 ->
  agree (Script1.calculateSignatures keccak256 source) st2.
Proof.
  intros H. unfold Script1.calculateSignatures.
  eapply AgreeFacts.forEach_agree; [exact H|]. repeat split.
Qed.

Lemma scripts_agree_when_second_returns_witness :
  (exists st2,
      Script2.calculateSignatures Keccak.keccak256 sampleSource = Ok st2
      /\ agree (Script1.calculateSignatures Keccak.keccak256 sampleSource) st2).
Proof.
  destruct (Script2.calculateSignatures Keccak.keccak256 sampleSource)
    as [st2|] eqn:E; [|vm_compute in E; discriminate].
  exists st2. split; [reflexivity|].
  exact (scripts_agree_when_second_returns Keccak.keccak256 sampleSource E).
Defined.

(* ================================================================== *)
(** ** The report and the traversal *)
(* ================================================================== *)

Module IoFacts.

Lemma write_nil w : write [] w = w.
Proof. destruct w. unfold write. cbn. now rewrite app_nil_r. Qed.

Lemma write_write a b w : write b (write a w) = write (a ++ b) w.
Proof. unfold write. cbn. now rewrite app_assoc. Qed.

Lemma fold_write {A} (g : A -> jsstring) l : forall w,
  fold_left (fun w x => write (g x) w) l w = write (flat_map g l) w.
Proof.
  induction l as [|x l IH]; intros w; cbn [fold_left flat_map].
  - now rewrite write_nil.
  - now rewrite IH, write_write.
Qed.

(** A section written piece by piece is one write of its text. *)
Lemma section_write {A} heading (lineOf : A -> jsstring) l w :
  (if 0 <? length l
   then write nl (fold_left (fun w x => write (lineOf x) w) l
                    (write (heading ++ nl) w))
   else w)
  = write (sectionText heading lineOf l) w.
Proof.
  unfold sectionText. destruct (0 <? length l).
  - rewrite fold_write, !write_write. now rewrite <- !app_assoc.
  - now rewrite write_nil.
Qed.

Section WithEnv.
Variable keccak256 : jsstring -> result jsstring.
Variable directoryPath : jsstring.
Variable path_join : jsstring -> jsstring -> jsstring.
Variable path_relative : jsstring -> jsstring -> jsstring.
Variable path_extname : jsstring -> jsstring.

Lemma calculateSignatures1_write source filePath w :
  Script1Io.calculateSignatures keccak256 directoryPath path_relative
    source filePath w
  = match Script1Exn.calculateSignatures keccak256 source with
    | Ok st =>
        Ok (write (reportText1 (path_relative directoryPath filePath) st) w)
    | Raise e => Raise e
    end.
Proof.
  unfold Script1Io.calculateSignatures.
  destruct (Script1Exn.calculateSignatures keccak256 source) as [st|e];
    [|reflexivity].
  cbn [bind]. unfold Script1Io.writeMarkdown, reportText1.
  cbv zeta. rewrite !section_write, !write_write.
  now rewrite <- !app_assoc.
Qed.

Lemma calculateSignatures2_write source filePath w :
  Script2Io.calculateSignatures keccak256 directoryPath path_relative
    source filePath w
  = match Script2Exn.calculateSignatures keccak256 source with
    | Ok st =>
        Ok (write (reportText2 (path_relative directoryPath filePath) st) w)
    | Raise e => Raise e
    end.
Proof.
  unfold Script2Io.calculateSignatures.
  destruct (Script2Exn.calculateSignatures keccak256 source) as [st|e];
    [|reflexivity].
  cbn [bind]. unfold Script2Io.writeMarkdown, reportText2.
  cbv zeta. rewrite !section_write, !write_write.
  now rewrite <- !app_assoc.
Qed.

End WithEnv.
End IoFacts.

Module WalkFacts.
Import IoFacts.

Lemma dirent_nested_ind (P : dirent -> Prop) :
  (forall n c, P (File n c)) ->
  (forall n, P (Directory n None)) ->
  (forall n items, Forall P items -> P (Directory n (Some items))) ->
  (forall n, P (Special n)) ->
  forall d, P d.
Proof.
  intros HF HD0 HD HS. fix IH 1. intros [n c|n [items|]|n].
  - apply HF.
  - apply HD. induction items as [|x items IHi]; constructor;
      [apply IH|exact IHi].
  - apply HD0.
  - apply HS.
Qed.

Lemma extend_nil w : extend [] [] w = w.
Proof. destruct w. unfold extend. cbn. now rewrite !app_nil_r. Qed.

Lemma extend_extend a m b n w :
  extend b n (extend a m w) = extend (a ++ b) (m ++ n) w.
Proof. unfold extend. cbn. now rewrite !app_assoc. Qed.

Lemma write_extend t w : write t w = extend t [] w.
Proof. unfold write, extend. now rewrite app_nil_r. Qed.

Lemma consoleMsg_extend msg w : consoleMsg msg w = extend [] [msg] w.
Proof. unfold consoleMsg, extend. now rewrite app_nil_r. Qed.

Lemma forOf_app {A} (body : A -> world -> world * settled) l1 l2 w :
  forOf body (l1 ++ l2) w
  = match forOf body l1 w with
    | (w', Fulfilled) => forOf body l2 w'
    | (w', Rejected) => (w', Rejected)
    end.
Proof.
  revert w. induction l1 as [|a l1 IH]; intros w; cbn [app forOf];
    [reflexivity|].
  destruct (body a w) as [w' [|]]; [apply IH|reflexivity].
Qed.

Section WithEnv.
Variable keccak256 : jsstring -> result jsstring.
Variable directoryPath : jsstring.
Variable path_join : jsstring -> jsstring -> jsstring.
Variable path_relative : jsstring -> jsstring -> jsstring.
Variable path_extname : jsstring -> jsstring.

(** The loop over a listing, given the effect of each item. *)
Lemma forOf_extend (body : jsstring -> dirent -> world -> world * settled)
      (fr : jsstring * option jsstring -> jsstring)
      (fc : jsstring * option jsstring -> list jsstring) items :
  Forall (fun item =>
            walkable item = true ->
            forall dir w,
              body dir item w
              = (extend (flat_map fr (solFiles path_join path_extname dir item))
                   (flat_map fc (solFiles path_join path_extname dir item)) w,
                 Fulfilled)) items ->
  forallb walkable items = true ->
  forall dir w,
    forOf (body dir) items w
    = (extend
         (flat_map fr (flat_map (solFiles path_join path_extname dir) items))
         (flat_map fc (flat_map (solFiles path_join path_extname dir) items)) w,
       Fulfilled).
Proof.
  induction 1 as [|x items Hx _ IH]; intros Hw dir w; cbn [forOf flat_map].
  - now rewrite extend_nil.
  - cbn [forallb] in Hw. apply andb_true_iff in Hw as [Hwx Hws].
    rewrite (Hx Hwx), (IH Hws), extend_extend, !flat_map_app. reflexivity.
Qed.

Lemma onItem1_walkable item :
  walkable item = true ->
  forall dir w,
    Script1Io.onItem keccak256 directoryPath path_join path_relative
      path_extname dir item w
    = (extend
         (flat_map (fileReport1 keccak256 directoryPath path_relative)
            (solFiles path_join path_extname dir item))
         (flat_map (fileConsole1 keccak256)
            (solFiles path_join path_extname dir item)) w,
       Fulfilled).
Proof.
  induction item as [n c|n|n items IH|n] using dirent_nested_ind;
    intros Hw dir w; cbn [Script1Io.onItem solFiles].
  - destruct (str_eqb _ _); [|now rewrite extend_nil].
    destruct c as [c|]; cbn [flat_map app].
    + rewrite calculateSignatures1_write.
      unfold fileReport1, fileConsole1. cbn [fst snd].
      destruct (Script1Exn.calculateSignatures keccak256 c) as [st|e].
      * rewrite write_extend. now rewrite app_nil_r.
      * now rewrite consoleMsg_extend.
    + unfold fileReport1, fileConsole1. cbn [fst snd].
      now rewrite consoleMsg_extend.
  - discriminate.
  - cbn [walkable] in Hw. now apply forOf_extend.
  - now rewrite extend_nil.
Qed.

Lemma onItem2_walkable item :
  walkable item = true ->
  forall dir w,
    Script2Io.onItem keccak256 directoryPath path_join path_relative
      path_extname dir item w
    = (extend
         (flat_map (fileReport2 keccak256 directoryPath path_relative)
            (solFiles path_join path_extname dir item))
         (flat_map (fileConsole2 keccak256)
            (solFiles path_join path_extname dir item)) w,
       Fulfilled).
Proof.
  induction item as [n c|n|n items IH|n] using dirent_nested_ind;
    intros Hw dir w; cbn [Script2Io.onItem solFiles].
  - destruct (str_eqb _ _); [|now rewrite extend_nil].
    destruct c as [c|]; cbn [flat_map app].
    + rewrite calculateSignatures2_write.
      unfold fileReport2, fileConsole2. cbn [fst snd].
      destruct (Script2Exn.calculateSignatures keccak256 c) as [st|e].
      * rewrite write_extend. now rewrite app_nil_r.
      * now rewrite consoleMsg_extend.
    + unfold fileReport2, fileConsole2. cbn [fst snd].
      now rewrite consoleMsg_extend.
  - discriminate.
  - cbn [walkable] in Hw. now apply forOf_extend.
  - now rewrite extend_nil.
Qed.

Lemma all_walkable (P : dirent -> Prop) items :
  (forall item, P item) -> Forall P items.
Proof. intros H. apply Forall_forall. auto. Qed.

Lemma onItem1_unwalkable item :
  walkable item = false ->
  forall dir w,
    snd (Script1Io.onItem keccak256 directoryPath path_join path_relative
           path_extname dir item w) = Rejected.
Proof.
  induction item as [n c|n|n items IH|n] using dirent_nested_ind;
    intros Hw dir w; try discriminate; [reflexivity|].
  cbn [Script1Io.onItem walkable] in *.
  generalize (path_join dir n) as d. intros d. revert w.
  induction IH as [|x items Hx _ IHi]; intros w; [discriminate|].
  cbn [forallb forOf] in *. destruct (walkable x) eqn:Wx.
  - rewrite (onItem1_walkable x Wx). now apply IHi.
  - specialize (Hx eq_refl d w).
    destruct (Script1Io.onItem _ _ _ _ _ d x w) as [w' [|]];
      [discriminate|reflexivity].
Qed.

Lemma onItem2_unwalkable item :
  walkable item = false ->
  forall dir w,
    snd (Script2Io.onItem keccak256 directoryPath path_join path_relative
           path_extname dir item w) = Rejected.
Proof.
  induction item as [n c|n|n items IH|n] using dirent_nested_ind;
    intros Hw dir w; try discriminate; [reflexivity|].
  cbn [Script2Io.onItem walkable] in *.
  generalize (path_join dir n) as d. intros d. revert w.
  induction IH as [|x items Hx _ IHi]; intros w; [discriminate|].
  cbn [forallb forOf] in *. destruct (walkable x) eqn:Wx.
  - rewrite (onItem2_walkable x Wx). now apply IHi.
  - specialize (Hx eq_refl d w).
    destruct (Script2Io.onItem _ _ _ _ _ d x w) as [w' [|]];
      [discriminate|reflexivity].
Qed.

Lemma forOf1_walkable items :
  forallb walkable items = true ->
  forall dir w,
    forOf (Script1Io.onItem keccak256 directoryPath path_join path_relative
             path_extname dir) items w
    = (extend
         (flat_map (fileReport1 keccak256 directoryPath path_relative)
            (flat_map (solFiles path_join path_extname dir) items))
         (flat_map (fileConsole1 keccak256)
            (flat_map (solFiles path_join path_extname dir) items)) w,
       Fulfilled).
Proof.
  intros H.
  apply (forOf_extend
           (Script1Io.onItem keccak256 directoryPath path_join path_relative
              path_extname)); [|exact H].
  apply all_walkable. intros item Hi. now apply onItem1_walkable.
Qed.

Lemma forOf2_walkable items :
  forallb walkable items = true ->
  forall dir w,
    forOf (Script2Io.onItem keccak256 directoryPath path_join path_relative
             path_extname dir) items w
    = (extend
         (flat_map (fileReport2 keccak256 directoryPath path_relative)
            (flat_map (solFiles path_join path_extname dir) items))
         (flat_map (fileConsole2 keccak256)
            (flat_map (solFiles path_join path_extname dir) items)) w,
       Fulfilled).
Proof.
  intros H.
  apply (forOf_extend
           (Script2Io.onItem keccak256 directoryPath path_join path_relative
              path_extname)); [|exact H].
  apply all_walkable. intros item Hi. now apply onItem2_walkable.
Qed.

Lemma forOf1_unwalkable items :
  forallb walkable items = false ->
  forall dir w,
    snd (forOf (Script1Io.onItem keccak256 directoryPath path_join
                  path_relative path_extname dir) items w) = Rejected.
Proof.
  induction items as [|x items IH]; intros Hw dir w; [discriminate|].
  cbn [forallb forOf] in *. destruct (walkable x) eqn:Wx.
  - rewrite (onItem1_walkable x Wx). now apply IH.
  - pose proof (onItem1_unwalkable x Wx dir w) as Hx.
    destruct (Script1Io.onItem _ _ _ _ _ dir x w) as [w' [|]];
      [discriminate|reflexivity].
Qed.

Lemma forOf2_unwalkable items :
  forallb walkable items = false ->
  forall dir w,
    snd (forOf (Script2Io.onItem keccak256 directoryPath path_join
                  path_relative path_extname dir) items w) = Rejected.
Proof.
  induction items as [|x items IH]; intros Hw dir w; [discriminate|].
  cbn [forallb forOf] in *. destruct (walkable x) eqn:Wx.
  - rewrite (onItem2_walkable x Wx). now apply IH.
  - pose proof (onItem2_unwalkable x Wx dir w) as Hx.
    destruct (Script2Io.onItem _ _ _ _ _ dir x w) as [w' [|]];
      [discriminate|reflexivity].
Qed.

End WithEnv.
End WalkFacts.

Section Traversal.
Variable keccak256 : jsstring -> result jsstring.
Variable directoryPath : jsstring.
Variable path_join : jsstring -> jsstring -> jsstring.
Variable path_relative : jsstring -> jsstring -> jsstring.
Variable path_extname : jsstring -> jsstring.

(** First script: when every directory can be listed, the traversal is
    fulfilled, and the text written is the reports of the [.sol] files that
    can be read and analysed, depth first in listing order; a [.sol] file
    that cannot be read, or whose analysis throws (the hash call throws on
    one of its texts), adds one console message and nothing to the report. *)
Theorem traversal1_report dir items w :
  forallb walkable items = true ->
  Script1Io.readFilesRecursively keccak256 directoryPath path_join
    path_relative path_extname dir (Some items) w
  = (extend
       (flat_map (fileReport1 keccak256 directoryPath path_relative)
          (flat_map (solFiles path_join path_extname dir) items))
       (flat_map (fileConsole1 keccak256)
          (flat_map (solFiles path_join path_extname dir) items)) w,
     Fulfilled).
Proof.
  intros H. unfold Script1Io.readFilesRecursively.
  now apply WalkFacts.forOf1_walkable.
Qed.

(** Second script: the same, with the getters section in each report; its
    analysis throws when a canonical form or the hash call throws, and the
    file is then treated like an unreadable one: one console message,
    nothing written, the other files unaffected. *)
Theorem traversal2_report dir items w :
  forallb walkable items = true ->
  Script2Io.readFilesRecursively keccak256 directoryPath path_join
    path_relative path_extname dir (Some items) w
  = (extend
       (flat_map (fileReport2 keccak256 directoryPath path_relative)
          (flat_map (solFiles path_join path_extname dir) items))
       (flat_map (fileConsole2 keccak256)
          (flat_map (solFiles path_join path_extname dir) items)) w,
     Fulfilled).
Proof.
  intros H. unfold Script2Io.readFilesRecursively.
  now apply WalkFacts.forOf2_walkable.
Qed.

(** A directory that cannot be listed ends the whole traversal: the
    entries listed after it are never visited, in either script. *)
Theorem unreadable_directory_stops dir pre name post w :
  forallb walkable pre = true ->
  Script1Io.readFilesRecursively keccak256 directoryPath path_join
    path_relative path_extname dir
    (Some (pre ++ Directory name None :: post)) w
  = (fst (Script1Io.readFilesRecursively keccak256 directoryPath path_join
            path_relative path_extname dir (Some pre) w), Rejected)
  /\ Script2Io.readFilesRecursively keccak256 directoryPath path_join
       path_relative path_extname dir
       (Some (pre ++ Directory name None :: post)) w
     = (fst (Script2Io.readFilesRecursively keccak256 directoryPath path_join
               path_relative path_extname dir (Some pre) w), Rejected).
Proof.
  intros H. unfold Script1Io.readFilesRecursively,
    Script2Io.readFilesRecursively.
  rewrite !WalkFacts.forOf_app.
  rewrite (WalkFacts.forOf1_walkable keccak256 directoryPath path_join
             path_relative path_extname pre H).
  rewrite (WalkFacts.forOf2_walkable keccak256 directoryPath path_join
             path_relative path_extname pre H).
  split; reflexivity.
Qed.

(** The traversal is fulfilled exactly when the root and every directory
    below it can be listed; [main] then logs that it finished, and logs an
    error otherwise. *)
Theorem traversal_settles dir root w :
  snd (Script1Io.readFilesRecursively keccak256 directoryPath path_join
         path_relative path_extname dir root w)
  = (if listable root then Fulfilled else Rejected)
  /\ snd (Script2Io.readFilesRecursively keccak256 directoryPath path_join
            path_relative path_extname dir root w)
     = (if listable root then Fulfilled else Rejected)
  /\ Script1Io.main keccak256 directoryPath path_join path_relative
       path_extname root w
     = consoleMsg (if listable root
                   then js "Finished processing all files."
                   else js "Error:")
         (fst (Script1Io.readFilesRecursively keccak256 directoryPath
                 path_join path_relative path_extname directoryPath root w))
  /\ Script2Io.main keccak256 directoryPath path_join path_relative
       path_extname root w
     = consoleMsg (if listable root
                   then js "Finished processing all files."
                   else js "Error during file processing:")
         (fst (Script2Io.readFilesRecursively keccak256 directoryPath
                 path_join path_relative path_extname directoryPath root w)).
Proof.
  assert (S1 : forall d,
             snd (Script1Io.readFilesRecursively keccak256 directoryPath
                    path_join path_relative path_extname d root w)
             = (if listable root then Fulfilled else Rejected)).
  { intros d. destruct root as [items|]; [|reflexivity].
    cbn [listable Script1Io.readFilesRecursively].
    destruct (forallb walkable items) eqn:E.
    - now rewrite WalkFacts.forOf1_walkable.
    - now apply WalkFacts.forOf1_unwalkable. }
  assert (S2 : forall d,
             snd (Script2Io.readFilesRecursively keccak256 directoryPath
                    path_join path_relative path_extname d root w)
             = (if listable root then Fulfilled else Rejected)).
  { intros d. destruct root as [items|]; [|reflexivity].
    cbn [listable Script2Io.readFilesRecursively].
    destruct (forallb walkable items) eqn:E.
    - now rewrite WalkFacts.forOf2_walkable.
    - now apply WalkFacts.forOf2_unwalkable. }
  split; [apply S1|]. split; [apply S2|].
  unfold Script1Io.main, Script2Io.main.
  specialize (S1 directoryPath). specialize (S2 directoryPath).
  destruct (Script1Io.readFilesRecursively _ _ _ _ _ directoryPath root w)
    as [w1 r1].
  destruct (Script2Io.readFilesRecursively _ _ _ _ _ directoryPath root w)
    as [w2 r2].
  cbn [fst snd] in *. subst r1 r2. now destruct (listable root).
Qed.

(** Second script: taking a file that cannot be read, or whose analysis
    throws, out of a listing does not change one character of the
    report. *)
Theorem failed_file_is_isolated dir pre name content post w :
  forallb walkable (pre ++ post) = true ->
  content = None
  \/ (exists source e,
        content = Some source
        /\ Script2Exn.calculateSignatures keccak256 source = Raise e) ->
  stream (fst (Script2Io.readFilesRecursively keccak256 directoryPath
                 path_join path_relative path_extname dir
                 (Some (pre ++ File name content :: post)) w))
  = stream (fst (Script2Io.readFilesRecursively keccak256 directoryPath
                   path_join path_relative path_extname dir
                   (Some (pre ++ post)) w)).
Proof.
  intros H Hc. unfold Script2Io.readFilesRecursively.
  rewrite !WalkFacts.forOf2_walkable; try assumption.
  - cbn [fst extend stream]. f_equal.
    rewrite !flat_map_app. cbn [flat_map solFiles].
    rewrite !flat_map_app. do 2 f_equal.
    destruct (str_eqb _ _); [|reflexivity]. cbn [flat_map app].
    unfold fileReport2. cbn [fst snd].
    destruct Hc as [->|[source [e [-> E]]]]; [reflexivity|]. now rewrite E.
  - rewrite forallb_app in *. cbn [forallb walkable]. exact H.
Qed.

(** First script: the same isolation, for a file that cannot be read or on
    which the hash call throws. *)
Theorem failed_file_is_isolated_first dir pre name content post w :
  forallb walkable (pre ++ post) = true ->
  content = None
  \/ (exists source e,
        content = Some source
        /\ Script1Exn.calculateSignatures keccak256 source = Raise e) ->
  stream (fst (Script1Io.readFilesRecursively keccak256 directoryPath
                 path_join path_relative path_extname dir
                 (Some (pre ++ File name content :: post)) w))
  = stream (fst (Script1Io.readFilesRecursively keccak256 directoryPath
                   path_join path_relative path_extname dir
                   (Some (pre ++ post)) w)).
Proof.
  intros H Hc. unfold Script1Io.readFilesRecursively.
  rewrite !WalkFacts.forOf1_walkable; try assumption.
  - cbn [fst extend stream]. f_equal.
    rewrite !flat_map_app. cbn [flat_map solFiles].
    rewrite !flat_map_app. do 2 f_equal.
    destruct (str_eqb _ _); [|reflexivity]. cbn [flat_map app].
    unfold fileReport1. cbn [fst snd].
    destruct Hc as [->|[source [e [-> E]]]]; [reflexivity|]. now rewrite E.
  - rewrite forallb_app in *. cbn [forallb walkable]. exact H.
Qed.

End Traversal.

(* ------------------------------------------------------------------ *)
(** *** Sample runs of the traversal *)

Lemma traversal1_report_sample :
  forallb walkable sampleTree = true
  /\ console
       (fst (Script1Io.readFilesRecursively sampleKeccak256 (js "contracts")
               sampleJoin sampleRelative sampleExtname (js "contracts")
               (Some sampleTree) (mkWorld [] [])))
     = [js "Error processing file contracts/b.sol:";
        js "Error processing file contracts/e.sol:"]
  /\ snd (Script1Io.readFilesRecursively sampleKeccak256 (js "contracts")
            sampleJoin sampleRelative sampleExtname (js "contracts")
            (Some sampleTree) (mkWorld [] []))
     = Fulfilled.
Proof.
  assert (H : forallb walkable sampleTree = true) by reflexivity.
  split; [exact H|].
  rewrite (@traversal1_report sampleKeccak256 (js "contracts") sampleJoin
             sampleRelative sampleExtname (js "contracts") sampleTree
             (mkWorld [] []) H).
  split; reflexivity.
Defined.

Lemma traversal2_report_sample :
  forallb walkable sampleTree = true
  /\ console
       (fst (Script2Io.readFilesRecursively sampleKeccak256 (js "contracts")
               sampleJoin sampleRelative sampleExtname (js "contracts")
               (Some sampleTree) (mkWorld [] [])))
     = [js "Error processing file contracts/b.sol:";
        js "Error processing file contracts/sub/d.sol:";
        js "Error processing file contracts/e.sol:"]
  /\ snd (Script2Io.readFilesRecursively sampleKeccak256 (js "contracts")
            sampleJoin sampleRelative sampleExtname (js "contracts")
            (Some sampleTree) (mkWorld [] []))
     = Fulfilled.
Proof.
  assert (H : forallb walkable sampleTree = true) by reflexivity.
  split; [exact H|].
  rewrite (@traversal2_report sampleKeccak256 (js "contracts") sampleJoin
             sampleRelative sampleExtname (js "contracts") sampleTree
             (mkWorld [] []) H).
  split; reflexivity.
Defined.

Lemma unreadable_directory_stops_sample :
  forallb walkable [File (js "a.sol") (Some transferLine)] = true
  /\ snd (Script1Io.readFilesRecursively sampleKeccak256 (js "contracts")
            sampleJoin sampleRelative sampleExtname (js "contracts")
            (Some ([File (js "a.sol") (Some transferLine)]
                   ++ Directory (js "locked") None
                   :: [File (js "z.sol") (Some requireLine)]))
            (mkWorld [] []))
     = Rejected
  /\ fst (Script1Io.readFilesRecursively sampleKeccak256 (js "contracts")
            sampleJoin sampleRelative sampleExtname (js "contracts")
            (Some ([File (js "a.sol") (Some transferLine)]
                   ++ Directory (js "locked") None
                   :: [File (js "z.sol") (Some requireLine)]))
            (mkWorld [] []))
     = fst (Script1Io.readFilesRecursively sampleKeccak256 (js "contracts")
              sampleJoin sampleRelative sampleExtname (js "contracts")
              (Some [File (js "a.sol") (Some transferLine)])
              (mkWorld [] [])).
Proof.
  assert (H : forallb walkable [File (js "a.sol") (Some transferLine)] = true)
    by reflexivity.
  split; [exact H|].
  destruct (@unreadable_directory_stops sampleKeccak256 (js "contracts")
              sampleJoin sampleRelative sampleExtname (js "contracts")
              [File (js "a.sol") (Some transferLine)] (js "locked")
              [File (js "z.sol") (Some requireLine)] (mkWorld [] []) H)
    as [E _].
  assert (P : forall (a : world) (b : settled), fst (a, b) = a)
    by reflexivity.
  rewrite E. split; [reflexivity|apply P].
Defined.

Lemma failed_file_is_isolated_sample :
  forallb walkable ([File (js "a.sol") (Some transferLine)] ++ []) = true
  /\ (Some (js "function f( ) public {}") = None
      \/ exists source e,
           Some (js "function f( ) public {}") = Some source
           /\ Script2Exn.calculateSignatures sampleKeccak256 source
              = Raise e)
  /\ stream
       (fst (Script2Io.readFilesRecursively sampleKeccak256 (js "contracts")
               sampleJoin sampleRelative sampleExtname (js "contracts")
               (Some ([File (js "a.sol") (Some transferLine)]
                      ++ File (js "d.sol")
                           (Some (js "function f( ) public {}")) :: []))
               (mkWorld [] [])))
     = stream
         (fst (Script2Io.readFilesRecursively sampleKeccak256
                 (js "contracts") sampleJoin sampleRelative sampleExtname
                 (js "contracts")
                 (Some ([File (js "a.sol") (Some transferLine)] ++ []))
                 (mkWorld [] []))).
Proof.
  assert (H1 : forallb walkable ([File (js "a.sol") (Some transferLine)] ++ [])
               = true) by reflexivity.
  assert (H2 : Some (js "function f( ) public {}") = None
               \/ exists source e,
                    Some (js "function f( ) public {}") = Some source
                    /\ Script2Exn.calculateSignatures sampleKeccak256 source
                       = Raise e).
  { right. exists (js "function f( ) public {}"), TypeError.
    split; reflexivity. }
  split; [exact H1|]. split; [exact H2|].
  exact (@failed_file_is_isolated sampleKeccak256 (js "contracts") sampleJoin
           sampleRelative sampleExtname (js "contracts")
           [File (js "a.sol") (Some transferLine)] (js "d.sol")
           (Some (js "function f( ) public {}")) [] (mkWorld [] []) H1 H2).
Defined.

Lemma failed_file_is_isolated_first_sample :
  forallb walkable ([File (js "a.sol") (Some transferLine)] ++ []) = true
  /\ (Some oddLiteralLine = None
      \/ exists source e,
           Some oddLiteralLine = Some source
           /\ Script1Exn.calculateSignatures sampleKeccak256 source = Raise e)
  /\ stream
       (fst (Script1Io.readFilesRecursively sampleKeccak256 (js "contracts")
               sampleJoin sampleRelative sampleExtname (js "contracts")
               (Some ([File (js "a.sol") (Some transferLine)]
                      ++ File (js "e.sol") (Some oddLiteralLine) :: []))
               (mkWorld [] [])))
     = stream
         (fst (Script1Io.readFilesRecursively sampleKeccak256
                 (js "contracts") sampleJoin sampleRelative sampleExtname
                 (js "contracts")
                 (Some ([File (js "a.sol") (Some transferLine)] ++ []))
                 (mkWorld [] []))).
Proof.
  assert (H1 : forallb walkable ([File (js "a.sol") (Some transferLine)] ++ [])
               = true) by reflexivity.
  assert (H2 : Some oddLiteralLine = None
               \/ exists source e,
                    Some oddLiteralLine = Some source
                    /\ Script1Exn.calculateSignatures sampleKeccak256 source
                       = Raise e).
  { right. exists oddLiteralLine, Web3Error. split; reflexivity. }
  split; [exact H1|]. split; [exact H2|].
  exact (@failed_file_is_isolated_first sampleKeccak256 (js "contracts")
           sampleJoin sampleRelative sampleExtname (js "contracts")
           [File (js "a.sol") (Some transferLine)] (js "e.sol")
           (Some oddLiteralLine) [] (mkWorld [] []) H1 H2).
Defined.

Lemma function_match_transfer :
  jsmatch functionRe transferLine
  = Some [(0, js "function transfer(address to, uint256 amount) ");
          (2, js "address to, uint256 amount"); (1, js "transfer")]
  /\ exists pre ws1 name ws2 params post,
       transferLine
       = pre ++ js "function" ++ ws1 ++ name ++ ws2
             ++ ch "(" :: params ++ ch ")" :: post
       /\ name = js "transfer" /\ params = js "address to, uint256 amount".
Proof.
  assert (H : jsmatch functionRe transferLine
              = Some [(0, js "function transfer(address to, uint256 amount) ");
                      (2, js "address to, uint256 amount"); (1, js "transfer")])
    by (vm_compute; reflexivity).
  split; [exact H|].
  destruct (LazyFacts.function_match _ H)
    as [pre [ws1 [name [ws2 [params [post [E [_ [_ [_ [_ [_ [_ [G1 G2]]]]]]]]]]]]]].
  exists pre, ws1, name, ws2, params, post. split; [exact E|].
  cbn in G1, G2. inversion G1; inversion G2. split; reflexivity.
Defined.

(* ------------------------------------------------------------------ *)
(** *** Where the pieces of a require record come from *)

(** A line gives a require record only if it holds [require(], a condition,
    a comma, optional blanks, a double-quoted message and [);]; the captured
    condition and message are those two pieces, and neither holds a line
    terminator. *)
Theorem require_match l mt :
  jsmatch requireRe l = Some mt ->
  exists pre cond ws msg post,
    l = pre ++ js "require(" ++ cond ++ ch "," :: ws ++ dquote :: msg
            ++ dquote :: js ");" ++ post
    /\ forallb is_dot cond = true
    /\ forallb is_space ws = true
    /\ forallb is_dot msg = true
    /\ group 1 mt = Some cond /\ group 2 mt = Some msg.
Proof.
  unfold jsmatch. intros H.
  apply ReFacts.search_sound in H as [pre [post [s' [-> [R ->]]]]].
  unfold requireRe, s_star, dot_lazy in R.
  apply RunFacts.run_seq_inv in R as [sa [Ra R]].
  apply RunFacts.run_lit_inv in Ra as [Ea Ca]. cbn [rest caps] in Ea, Ca.
  apply RunFacts.run_seq_inv in R as [sb [Rb R]].
  apply RunFacts.run_group_inv in Rb as [sb' [Rb Eb]].
  apply RunFacts.run_star_class_inv in Rb as [cond [E1 [H1 C1]]].
  apply RunFacts.run_seq_inv in R as [sc [Rc R]].
  apply RunFacts.run_chr_inv in Rc as [Ec Cc].
  apply RunFacts.run_seq_inv in R as [sd [Rd R]].
  apply RunFacts.run_star_class_inv in Rd as [ws [Es [Hs Cs]]].
  apply RunFacts.run_seq_inv in R as [se [Re R]].
  apply RunFacts.run_chr_inv in Re as [Ee Ce].
  apply RunFacts.run_seq_inv in R as [sf [Rf R]].
  apply RunFacts.run_group_inv in Rf as [sf' [Rf Ef]].
  apply RunFacts.run_star_class_inv in Rf as [msg [E2 [H2 C2]]].
  apply RunFacts.run_seq_inv in R as [sg [Rg R]].
  apply RunFacts.run_chr_inv in Rg as [Eg Cg].
  apply RunFacts.run_seq_inv in R as [sh [Rh R]].
  apply RunFacts.run_lit_inv in Rh as [Eh Ch].
  apply RunFacts.run_star_class_inv in R as [ws' [Es' [Hs' Cs']]].
  assert (Tb : rest sb = rest sb') by (rewrite Eb; reflexivity).
  assert (Tf : rest sf = rest sf') by (rewrite Ef; reflexivity).
  assert (Cb : caps sb = [(1, cond)]).
  { rewrite Eb, (CanonShape.set_cap_caps_eq 1 cond sb' E1), C1, Ca.
    reflexivity. }
  assert (Cf : caps sf = [(2, msg); (1, cond)]).
  { rewrite Ef, (CanonShape.set_cap_caps_eq 2 msg sf' E2), C2, Ce, Cs, Cc, Cb.
    reflexivity. }
  exists pre, cond, ws, msg, (ws' ++ rest s').
  split.
  { rewrite Ea, E1, <- Tb, Ec, Es, Ee, E2, <- Tf, Eg, Eh, Es'.
    reflexivity. }
  repeat split; try assumption;
    unfold group; cbn [lookup Nat.eqb]; rewrite Cs', Ch, Cg, Cf; reflexivity.
Qed.

Lemma require_match_balance :
  jsmatch requireRe requireLine
  = Some [(0, requireLine); (2, js "Insufficient balance");
          (1, js "balance >= amount")]
  /\ exists pre cond ws msg post,
       requireLine
       = pre ++ js "require(" ++ cond ++ ch "," :: ws ++ dquote :: msg
             ++ dquote :: js ");" ++ post
       /\ cond = js "balance >= amount" /\ msg = js "Insufficient balance".
Proof.
  assert (H : jsmatch requireRe requireLine
              = Some [(0, requireLine); (2, js "Insufficient balance");
                      (1, js "balance >= amount")])
    by (vm_compute; reflexivity).
  split; [exact H|].
  destruct (@require_match _ _ H)
    as [pre [cond [ws [msg [post [E [_ [_ [_ [G1 G2]]]]]]]]]].
  exists pre, cond, ws, msg, post. split; [exact E|].
  cbn in G1, G2. inversion G1; inversion G2. split; reflexivity.
Defined.
